(** * insurance-policy-manager: clause extraction, validation and repair

    A shallow embedding of the rule-based clause extractor
    (generate_batch14_complex.py, generate_batch14_final.py,
    scripts/parse-coverages-direct.py), of the batch loader
    (tools/1_generate_batch.py), of the validator and fixer modules
    (tools/utils/validators.py, tools/utils/fixers.py,
    tools/3_ai_reviewer.py) and of the corpus clean-up script
    (解析结果/fix_all_issues.py), followed by the properties proved of them.

    Python [str] values are modelled as lists of Unicode code points, so
    that [len], slicing and the regular expressions count characters the
    way Python does.  Dictionaries with optional keys are records with
    [option] fields; a function that mutates its argument returns the new
    value next to its Python result. *)

From Stdlib Require Import String Ascii DecimalString.
From Stdlib Require Import List NArith ZArith Bool Lia.
From Stdlib Require Import Permutation Sorted.
Import ListNotations.

Set Implicit Arguments.

(* ================================================================== *)
(** * Python strings *)
(* ================================================================== *)

Module Text.

(** A Python [str]: a sequence of code points. *)
Definition ustr := list N.

Fixpoint bytes_of (s : string) : list N :=
  match s with
  | EmptyString => []
  | String a r => N_of_ascii a :: bytes_of r
  end.

(** UTF-8 decoding of the bytes of a literal of this file. *)
Fixpoint utf8_decode (bs : list N) : ustr :=
  match bs with
  | [] => []
  | b0 :: r0 =>
    if (b0 <? 128)%N then b0 :: utf8_decode r0
    else match r0 with
    | [] => []
    | b1 :: r1 =>
      if (b0 <? 224)%N then
        ((b0 - 192) * 64 + (b1 - 128))%N :: utf8_decode r1
      else match r1 with
      | [] => []
      | b2 :: r2 =>
        if (b0 <? 240)%N then
          ((b0 - 224) * 4096 + (b1 - 128) * 64 + (b2 - 128))%N
            :: utf8_decode r2
        else match r2 with
        | [] => []
        | b3 :: r3 =>
          ((b0 - 240) * 262144 + (b1 - 128) * 4096
             + (b2 - 128) * 64 + (b3 - 128))%N :: utf8_decode r3
        end
      end
    end
  end.

(** [u "..."] is the Python literal ['...']. *)
Definition u (s : string) : ustr := utf8_decode (bytes_of s).
Arguments u s%_string.

Definition ustr_eqb (a b : ustr) : bool :=
  if list_eq_dec N.eq_dec a b then true else false.

(** [s.startswith(p)] *)
Fixpoint startswith (s p : ustr) {struct p} : bool :=
  match p with
  | [] => true
  | a :: p' =>
    match s with
    | [] => false
    | b :: s' => N.eqb a b && startswith s' p'
    end
  end.

(** [sub in s] *)
Fixpoint contains (sub s : ustr) : bool :=
  startswith s sub ||
  match s with
  | [] => false
  | _ :: s' => contains sub s'
  end.

(** [s.find(sub)]: the lowest index of an occurrence, or -1. *)
Fixpoint find_from (s sub : ustr) (i : Z) : Z :=
  if startswith s sub then i
  else match s with
       | [] => (-1)%Z
       | _ :: s' => find_from s' sub (i + 1)%Z
       end.

Definition find (s sub : ustr) : Z := find_from s sub 0%Z.

(** [s[i:]], for any integer [i] (a negative index counts from the end). *)
Definition slice_from (s : ustr) (i : Z) : ustr :=
  if (i <? 0)%Z
  then skipn (Z.to_nat (Z.max 0 (Z.of_nat (length s) + i))) s
  else skipn (Z.to_nat i) s.

(** [s[:n]], for [n >= 0]. *)
Definition slice_to (s : ustr) (n : nat) : ustr := firstn n s.

(** [s.replace(a, b)] for a non-empty [a]: the occurrences of [a] are
    replaced from left to right and do not overlap.  [skip] counts the
    characters of an occurrence still to be dropped. *)
Fixpoint replace_aux (a b s : ustr) (skip : nat) : ustr :=
  match s with
  | [] => []
  | c :: s' =>
    match skip with
    | S k => replace_aux a b s' k
    | O =>
      if startswith s a then b ++ replace_aux a b s' (pred (length a))
      else c :: replace_aux a b s' 0
    end
  end.

Definition replace (s a b : ustr) : ustr := replace_aux a b s 0.

(** [s.split(sep)] for a non-empty separator. *)
Fixpoint split_aux (sep s : ustr) (skip : nat) : list ustr :=
  match s with
  | [] => [[]]
  | c :: s' =>
    match skip with
    | S k => split_aux sep s' k
    | O =>
      if startswith s sep then [] :: split_aux sep s' (pred (length sep))
      else match split_aux sep s' 0 with
           | h :: t => (c :: h) :: t
           | [] => [[c]]
           end
    end
  end.

Definition split (s sep : ustr) : list ustr := split_aux sep s 0.

(** [s.split(sep, 1)]: at most one cut, at the first occurrence. *)
Definition split1 (s sep : ustr) : list ustr :=
  let i := find s sep in
  if (i <? 0)%Z then [s]
  else [firstn (Z.to_nat i) s; skipn (Z.to_nat i + length sep) s].

(** [sep.join(l)] *)
Fixpoint join (sep : ustr) (l : list ustr) : ustr :=
  match l with
  | [] => []
  | x :: r =>
    match r with
    | [] => x
    | _ :: _ => x ++ sep ++ join sep r
    end
  end.

(** [c.isspace()]: the code points Python treats as white space. *)
Definition isspace (c : N) : bool :=
  ((9 <=? c) && (c <=? 13) || (28 <=? c) && (c <=? 32)
   || (c =? 133) || (c =? 160) || (c =? 5760)
   || (8192 <=? c) && (c <=? 8202)
   || (c =? 8232) || (c =? 8233) || (c =? 8239) || (c =? 8287)
   || (c =? 12288))%N.

Fixpoint lstrip (s : ustr) : ustr :=
  match s with
  | [] => []
  | c :: s' => if isspace c then lstrip s' else s
  end.

Definition rstrip (s : ustr) : ustr := rev (lstrip (rev s)).

(** [s.strip()] *)
Definition strip (s : ustr) : ustr := rstrip (lstrip s).

(** [s.split()]: the maximal runs of characters that are not white space. *)
Fixpoint words (s : ustr) : list ustr :=
  match s with
  | [] => []
  | c :: s' =>
    if isspace c then words s'
    else match s' with
         | [] => [[c]]
         | d :: _ =>
           if isspace d then [c] :: words s'
           else match words s' with
                | w :: ws => (c :: w) :: ws
                | [] => [[c]]
                end
         end
  end.

(** Decimal digits.  Python reads the digits of every script: the
    characters of category Nd, which come in runs of ten, each from its
    zero on.  The table is that of Unicode 14 (Python 3.11): the ASCII
    digits, the Arabic-Indic digits, ..., the full-width digits, ... *)
Definition decimal_zeros : list N :=
  [ 48; 1632; 1776; 1984; 2406; 2534; 2662; 2790; 2918; 3046; 3174;
    3302; 3430; 3558; 3664; 3792; 3872; 4160; 4240; 6112; 6160; 6470;
    6608; 6784; 6800; 6992; 7088; 7232; 7248; 42528; 43216; 43264;
    43472; 43504; 43600; 44016; 65296; 66720; 68912; 69734; 69872;
    69942; 70096; 70384; 70736; 70864; 71248; 71360; 71472; 71904;
    72016; 72784; 73040; 73120; 92768; 92864; 93008; 120782; 120792;
    120802; 120812; 120822; 123200; 123632; 125264; 130032 ]%N.

Fixpoint decimal_in (zeros : list N) (c : N) : option N :=
  match zeros with
  | [] => None
  | z :: rest =>
    if ((z <=? c) && (c <=? z + 9))%N then Some (c - z)%N
    else decimal_in rest c
  end.

(** The value of a decimal digit. *)
Definition decimal_value (c : N) : option N := decimal_in decimal_zeros c.

(** [c.isdecimal()]; the class [\d] of a pattern; a digit for [int]. *)
Definition is_decimal (c : N) : bool :=
  match decimal_value c with
  | Some _ => true
  | None => false
  end.

(** The other characters with a digit value (superscripts, subscripts,
    circled digits, ...): [str.isdigit] accepts them, [\d] and [int] do
    not. *)
Definition other_digits : list (N * N) :=
  [     (178, 179); (185, 185); (4969, 4977); (6618, 6618); (8304, 8304);
    (8308, 8313); (8320, 8329); (9312, 9320); (9332, 9340);
    (9352, 9360); (9450, 9450); (9461, 9469); (9471, 9471);
    (10102, 10110); (10112, 10120); (10122, 10130); (68160, 68163);
    (69216, 69224); (69714, 69722); (127232, 127242) ]%N.

(** [c.isdigit()] *)
Definition is_digit (c : N) : bool :=
  is_decimal c
  || existsb (fun r => ((fst r <=? c) && (c <=? snd r))%N) other_digits.

Definition digit_val (c : N) : Z :=
  match decimal_value c with
  | Some v => Z.of_N v
  | None => 0%Z
  end.

(** [s.isdigit()] *)
Definition isdigit (s : ustr) : bool :=
  match s with
  | [] => false
  | _ :: _ => forallb is_digit s
  end.

(** The digits of an integer literal: single underscores may separate
    digits. *)
Fixpoint int_body (s : ustr) (acc : Z) (prev_digit : bool) : option Z :=
  match s with
  | [] => if prev_digit then Some acc else None
  | c :: s' =>
    if is_decimal c then int_body s' (acc * 10 + digit_val c)%Z true
    else if (c =? 95)%N && prev_digit then int_body s' acc false
    else None
  end.

(** The white space [int] passes over at both ends: that of [isspace]
    but for the separators U+001C to U+001F. *)
Definition int_space (c : N) : bool :=
  isspace c && negb ((28 <=? c) && (c <=? 31))%N.

Fixpoint int_lstrip (s : ustr) : ustr :=
  match s with
  | [] => []
  | c :: s' => if int_space c then int_lstrip s' else s
  end.

Definition int_strip (s : ustr) : ustr :=
  rev (int_lstrip (rev (int_lstrip s))).

(** [int(s)]: [None] stands for the [ValueError] Python raises.  (The
    limit Python 3.11 puts on the length of a literal, 4300 digits by
    default, is left out: the numbers are taken to be shorter.) *)
Definition py_int (s : ustr) : option Z :=
  match int_strip s with
  | [] => None
  | c :: r =>
    if (c =? 45)%N then option_map Z.opp (int_body r 0%Z false)
    else if (c =? 43)%N then int_body r 0%Z false
    else int_body (c :: r) 0%Z false
  end.

(** [int(s)] for a string [s] matched by [\d+]: decimal digits only,
    which [int] always reads. *)
Definition int_of_digits (s : ustr) : Z :=
  fold_left (fun acc c => acc * 10 + digit_val c)%Z s 0%Z.

(** [str(n)] for an integer [n]. *)
Definition str_of_Z (n : Z) : ustr :=
  u (NilEmpty.string_of_int (Z.to_int n)).

End Text.

(* ================================================================== *)
(** * Regular expressions *)
(* ================================================================== *)

(** The fragment of Python's [re] the sources use, with its backtracking
    semantics: the leftmost match, alternatives in priority order, greedy
    and lazy repetition of a character class, numbered groups. *)
Module Regex.
Import Text.

Inductive cls : Type :=
| Any                  (* .   : any character but a newline *)
| Digit                (* \d *)
| Space                (* \s *)
| OneOf (l : ustr)     (* [...] *)
| Either (c1 c2 : cls). (* the union of two classes, as in [...\d] *)

Fixpoint cls_match (c : cls) (x : N) : bool :=
  match c with
  | Any => negb (x =? 10)%N
  | Digit => is_decimal x
  | Space => isspace x
  | OneOf l => existsb (N.eqb x) l
  | Either c1 c2 => cls_match c1 x || cls_match c2 x
  end.

Inductive regex : Type :=
| Lit (s : ustr)
| Rep (c : cls) (lo : nat) (hi : option nat) (greedy : bool)
| Seq (r1 r2 : regex)
| Alt (r1 r2 : regex)
| Opt (r : regex)
| Grp (i : nat) (r : regex).

(** The text of the groups closed so far, latest first. *)
Definition caps := list (nat * ustr).

Fixpoint group (g : caps) (i : nat) : option ustr :=
  match g with
  | [] => None
  | (j, s) :: g' => if Nat.eqb i j then Some s else group g' i
  end.

(** [strip_prefix p s]: the rest of [s] after the literal [p]. *)
Fixpoint strip_prefix (p s : ustr) {struct p} : option ustr :=
  match p with
  | [] => Some s
  | a :: p' =>
    match s with
    | [] => None
    | b :: s' => if N.eqb a b then strip_prefix p' s' else None
    end
  end.

Definition room (hi : option nat) : bool :=
  match hi with
  | Some O => false
  | _ => true
  end.

Section Matcher.
Variable A : Type.

(** Greedy [c{lo,hi}]: take a character when possible, fall back to
    stopping here. *)
Fixpoint rep_greedy (c : cls) (lo : nat) (hi : option nat) (s : ustr)
    (k : ustr -> option A) {struct s} : option A :=
  match s with
  | [] => match lo with O => k [] | S _ => None end
  | x :: s' =>
    if room hi && cls_match c x then
      match rep_greedy c (pred lo) (option_map pred hi) s' k with
      | Some r => Some r
      | None => match lo with O => k s | S _ => None end
      end
    else match lo with O => k s | S _ => None end
  end.

(** Lazy [c{lo,hi}?]: stop here when allowed, take a character only when
    the rest fails. *)
Fixpoint rep_lazy (c : cls) (lo : nat) (hi : option nat) (s : ustr)
    (k : ustr -> option A) {struct s} : option A :=
  match s with
  | [] => match lo with O => k [] | S _ => None end
  | x :: s' =>
    match (match lo with O => k s | S _ => None end) with
    | Some r => Some r
    | None =>
      if room hi && cls_match c x
      then rep_lazy c (pred lo) (option_map pred hi) s' k
      else None
    end
  end.

(** [rmatch r s g k]: match [r] at the start of [s], then continue with
    [k] on what is left; [None] makes the matcher backtrack. *)
Fixpoint rmatch (r : regex) (s : ustr) (g : caps)
    (k : ustr -> caps -> option A) : option A :=
  match r with
  | Lit l =>
    match strip_prefix l s with
    | Some rest => k rest g
    | None => None
    end
  | Rep c lo hi true => rep_greedy c lo hi s (fun rest => k rest g)
  | Rep c lo hi false => rep_lazy c lo hi s (fun rest => k rest g)
  | Seq r1 r2 => rmatch r1 s g (fun rest g' => rmatch r2 rest g' k)
  | Alt r1 r2 =>
    match rmatch r1 s g k with
    | Some x => Some x
    | None => rmatch r2 s g k
    end
  | Opt r1 =>
    match rmatch r1 s g k with
    | Some x => Some x
    | None => k s g
    end
  | Grp i r1 =>
    rmatch r1 s g
      (fun rest g' => k rest ((i, firstn (length s - length rest) s) :: g'))
  end.

End Matcher.

(** A match object: the matched text, what follows it, the groups. *)
Record match_obj : Type := {
  m_text : ustr;
  m_rest : ustr;
  m_groups : caps
}.

Definition match_at (r : regex) (s : ustr) : option match_obj :=
  rmatch r s []
    (fun rest g =>
       Some {| m_text := firstn (length s - length rest) s;
               m_rest := rest;
               m_groups := g |}).

(** [re.search(r, s)] *)
Fixpoint search (r : regex) (s : ustr) : option match_obj :=
  match match_at r s with
  | Some m => Some m
  | None =>
    match s with
    | [] => None
    | _ :: s' => search r s'
    end
  end.

(** [m.group(i)] for a group that took part in the match. *)
Definition group_text (m : match_obj) (i : nat) : ustr :=
  match group (m_groups m) i with
  | Some s => s
  | None => []
  end.

(** [re.finditer(r, s)]: the successive matches, each search starting
    where the previous match ended. *)
Fixpoint finditer_aux (fuel : nat) (r : regex) (s : ustr) : list match_obj :=
  match fuel with
  | O => []
  | S f =>
    match search r s with
    | None => []
    | Some m =>
      m :: match m_text m, m_rest m with
           | [], [] => []
           | [], _ :: t => finditer_aux f r t
           | _ :: _, rest => finditer_aux f r rest
           end
    end
  end.

Definition finditer (r : regex) (s : ustr) : list match_obj :=
  finditer_aux (S (length s)) r s.

(** Notation of the patterns. *)
Fixpoint cat (l : list regex) : regex :=
  match l with
  | [] => Lit []
  | r :: l' =>
    match l' with
    | [] => r
    | _ :: _ => Seq r (cat l')
    end
  end.

Definition L (s : string) : regex := Lit (u s).
Arguments L s%_string.
Definition set (s : string) : regex := Rep (OneOf (u s)) 1 (Some 1) true.
Arguments set s%_string.
Definition plus (c : cls) : regex := Rep c 1 None true.
Definition star (c : cls) : regex := Rep c 0 None true.
Definition lazy_star (c : cls) : regex := Rep c 0 None false.
Definition digits : regex := plus Digit.                  (* \d+ *)
Definition decimal : regex :=                           (* \d+(?:\.\d+)? *)
  Seq digits (Opt (Seq (L ".") digits)).

End Regex.

(* ================================================================== *)
(** * generate_batch14_complex.py *)
(* ================================================================== *)

Module Batch14Complex.
Import Text Regex.

(** [CHINESE_NUM_MAP] *)
Definition CHINESE_NUM_MAP : list (ustr * Z) :=
  [ (u "零", 0); (u "一", 1); (u "二", 2); (u "三", 3); (u "四", 4);
    (u "五", 5); (u "六", 6); (u "七", 7); (u "八", 8); (u "九", 9);
    (u "十", 10); (u "百", 100);
    (u "十八", 18); (u "二十", 20); (u "二十一", 21); (u "二十五", 25);
    (u "三十", 30); (u "四十", 40); (u "五十", 50); (u "六十", 60);
    (u "七十", 70); (u "八十", 80); (u "九十", 90);
    (u "一百", 100) ]%Z.

(** [d.get(key)] *)
Fixpoint dict_get (d : list (ustr * Z)) (key : ustr) : option Z :=
  match d with
  | [] => None
  | (k, v) :: d' => if ustr_eqb key k then Some v else dict_get d' key
  end.

(** [d.get(key, 0)] *)
Definition dict_get0 (d : list (ustr * Z)) (key : ustr) : Z :=
  match dict_get d key with
  | Some v => v
  | None => 0%Z
  end.

(** [chinese_to_num]; [None] is Python's [None]. *)
Definition chinese_to_num (chinese_str : ustr) : option Z :=
  match chinese_str with
  | [] => None
  | _ :: _ =>
    match dict_get CHINESE_NUM_MAP chinese_str with
    | Some v => Some v
    | None =>
      if contains (u "十") chinese_str then
        if ustr_eqb chinese_str (u "十") then Some 10%Z
        else if startswith chinese_str (u "十") then
          match chinese_str with
          | _ :: c1 :: _ =>
            let ones := dict_get0 CHINESE_NUM_MAP [c1] in
            Some (10 + ones)%Z
          | _ => None
          end
        else match chinese_str with
        | [c0; _] =>
          let tens := dict_get0 CHINESE_NUM_MAP [c0] in
          if (tens >? 0)%Z then Some (tens * 10)%Z else None
        | [c0; _; c2] =>
          let tens := dict_get0 CHINESE_NUM_MAP [c0] in
          let ones := dict_get0 CHINESE_NUM_MAP [c2] in
          if (tens >? 0)%Z then Some (tens * 10 + ones)%Z else None
        | _ => dict_get CHINESE_NUM_MAP chinese_str
        end
      else dict_get CHINESE_NUM_MAP chinese_str
    end
  end.

(** One entry of [ageConditions]. *)
Record AgeCondition : Type := {
  ageType : ustr;
  operator : ustr;
  age : option Z;           (* [None]: the value None *)
  maxAge : option Z         (* [None]: no such key *)
}.

(** What a rule's interpreter returns: [('range', a, b)] or
    [(age_type, operator, age)]. *)
Inductive rule_result : Type :=
| RRange (a : option Z) (b : Z)
| RCond (age_type op : ustr) (a : option Z).

(** Truth value of an optional integer: neither [None] nor 0. *)
Definition truthy (o : option Z) : bool :=
  match o with
  | Some v => negb (v =? 0)%Z
  | None => false
  end.

Definition g1 (m : match_obj) : ustr := group_text m 1.
Definition g2 (m : match_obj) : ustr := group_text m 2.

(** The interpreters of the rule table. *)
Definition rng_dd (m : match_obj) : option rule_result :=
  Some (RRange (Some (int_of_digits (g1 m))) (int_of_digits (g2 m) - 1)%Z).

Definition rng_dd_incl (m : match_obj) : option rule_result :=
  Some (RRange (Some (int_of_digits (g1 m))) (int_of_digits (g2 m))).

Definition rng_cc (m : match_obj) : option rule_result :=
  if truthy (chinese_to_num (g1 m)) && truthy (chinese_to_num (g2 m)) then
    match chinese_to_num (g2 m) with
    | Some b => Some (RRange (chinese_to_num (g1 m)) (b - 1)%Z)
    | None => None
    end
  else None.

Definition rng_cd (m : match_obj) : option rule_result :=
  Some (RRange (chinese_to_num (g1 m)) (int_of_digits (g2 m))).

Definition cond_d (age_type op : string) (m : match_obj)
  : option rule_result :=
  Some (RCond (u age_type) (u op) (Some (int_of_digits (g1 m)))).

Definition cond_c (age_type op : string) (m : match_obj)
  : option rule_result :=
  Some (RCond (u age_type) (u op) (chinese_to_num (g1 m))).

Definition lp : regex := set "（(".          (* [（(] *)
Definition rp : regex := set ")）".          (* [)）] *)
Definition cn : regex :=                    (* [一二三四五六七八九十]+ *)
  plus (OneOf (u "一二三四五六七八九十")).
Definition gd : regex := Grp 1 digits.      (* (\d+) *)
Definition gc : regex := Grp 1 cn.
Definition some : regex := lazy_star Any.   (* .*? *)

(** The rule table of [extract_age_conditions], in the order of the
    source. *)
Definition age_patterns : list (regex * (match_obj -> option rule_result)) :=
  [ (* ranges first *)
    (cat [L "年满"; Grp 1 digits; L "周岁的首个保险单周年日"; lp; L "含当日"; rp;
          L "到年满"; Grp 2 digits; L "周岁的首个保险单周年日"; lp;
          L "不含当日"; rp; L "之间"], rng_dd);
    (cat [L "年满"; Grp 1 cn; L "周岁的保单周年日"; lp; L "含"; cn;
          L "周岁对应的保单周年日"; rp; L "与年满"; Grp 2 cn;
          L "周岁的保单周年日"; lp; L "不含"], rng_cc);
    (cat [L "年满"; Grp 1 digits; L "周岁的保单周年日"; lp; L "含"; rp;
          L "与年满"; Grp 2 digits; L "周岁的保单周年日"; lp; L "不含"],
     rng_dd);
    (cat [L "年龄到达"; Grp 1 cn; L "周岁的合同生效对应日"; lp; L "含"; rp;
          L "至年龄到达"; Grp 2 cn; L "周岁的合同生效对应日"; lp; L "不含"; rp;
          L "之间"], rng_cc);
    (cat [L "于"; Grp 1 digits; L "周岁的保单周年日"; lp; L "含"; rp;
          L "后且"; Grp 2 digits; L "周岁的保单周年日"; lp; L "不含"; rp;
          L "前"], rng_dd);
    (cat [Grp 1 digits; L "周岁（含）至"; Grp 2 digits; L "周岁（含）之间"],
     rng_dd_incl);
    (cat [Grp 1 cn; L "周岁（含）至"; Grp 2 digits; L "周岁（含）之间"],
     rng_cd);
    (* "年满X周岁" *)
    (cat [L "年满"; gc; L "周岁的保单周年日"; lp; L "不含"; rp; L "前"],
     cond_c "确诊时" "<");
    (cat [L "年满"; gd; L "周岁后的首个保单周年日之前"], cond_d "投保时" "<");
    (cat [L "年满"; gc; L "周岁后的首个保单周年日之前"], cond_c "投保时" "<");
    (cat [L "年满"; gd; L "周岁的首个保单周年日之后"], cond_d "投保时" ">=");
    (cat [L "年满"; gc; L "周岁的首个保单周年日之后"], cond_c "投保时" ">=");
    (cat [L "年满"; gd; L "周岁后的首个保单年生效对应日零时之前"],
     cond_d "投保时" "<");
    (cat [L "年满"; gd; L "周岁的年生效对应日前"], cond_d "投保时" "<");
    (cat [L "年满"; gc; L "周岁的年生效对应日前"], cond_c "投保时" "<");
    (* "在X周岁" *)
    (cat [L "在被保险人"; gd; L "周岁的保单周年日之前"], cond_d "确诊时" "<");
    (cat [L "在"; gd; L "周岁的保单周年日之前"], cond_d "确诊时" "<");
    (cat [L "在"; gd; L "周岁的保单周年日前"; lp; L "不含"; some; rp],
     cond_d "确诊时" "<");
    (cat [L "在"; gd; L "周岁的保单周年日前"], cond_d "确诊时" "<");
    (cat [L "在"; gd; L "周岁的保险单周年日零时前"], cond_d "确诊时" "<");
    (cat [L "在"; gd; L "周岁的保险单周年日零时后"], cond_d "确诊时" ">=");
    (* "于X周岁" *)
    (cat [gd; L "周岁的首个保单周年日之后"; lp; L "含"; digits;
          L "周岁的首个保单周年日"; rp], cond_d "投保时" ">=");
    (cat [L "于"; gd; L "周岁"; some; L "之后"; lp; L "含"; digits; L "周岁";
          rp], cond_d "确诊时" ">=");
    (cat [L "于"; gd; L "周岁的保单周年日之后"; lp; L "含"; digits;
          L "周岁的保单周年日"; rp], cond_d "确诊时" ">=");
    (cat [L "于"; gd; L "周岁的保单周年日"; lp; L "含"; rp; L "后"],
     cond_d "确诊时" ">=");
    (cat [L "于"; gd; L "周岁保单生效对应日后"], cond_d "确诊时" ">=");
    (cat [L "于"; gd; L "周岁保单生效对应日"; lp; L "不含"; rp; L "之前"],
     cond_d "确诊时" "<");
    (* "未满X周岁" *)
    (cat [L "确诊时未满"; gd; L "周岁"], cond_d "确诊时" "<");
    (cat [L "确诊时未满"; gc; L "周岁"], cond_c "确诊时" "<");
    (cat [L "初次确诊时"; some; L "未满"; gd; L "周岁"], cond_d "确诊时" "<");
    (cat [L "年龄未满"; gd; L "周岁"], cond_d "确诊时" "<");
    (cat [L "未满"; gd; L "周岁"], cond_d "确诊时" "<");
    (* "年龄在X周岁" *)
    (cat [L "投保年龄小于或等于"; gd; L "周岁"], cond_d "投保时" "<=");
    (cat [L "确诊时被保险人小于或等于"; gd; L "周岁"], cond_d "确诊时" "<=");
    (cat [L "投保时被保险人年龄"; gd; L "周岁及以下"], cond_d "投保时" "<=");
    (cat [L "年龄在"; gd; L "周岁及以下"], cond_d "确诊时" "<=");
    (cat [L "年龄在"; gd; L "周岁"; lp; L "含"; rp; L "以下"],
     cond_d "确诊时" "<=");
    (cat [L "确诊时年龄在"; gd; L "周岁"; lp; L "含"; rp; L "以下"],
     cond_d "确诊时" "<=");
    (cat [L "确诊时年龄在"; gc; L "周岁"; lp; L "含"; rp; L "以下"],
     cond_c "确诊时" "<=");
    (* "已满X周岁" *)
    (cat [L "年龄已满"; gd; L "周岁"; lp; L "含"; digits; L "周岁"; rp],
     cond_d "确诊时" ">=");
    (cat [L "初次确诊时年龄已满"; gd; L "周岁"], cond_d "确诊时" ">=");
    (cat [L "确诊时已满"; gd; L "周岁"], cond_d "确诊时" ">=");
    (cat [L "已满"; gd; L "周岁"], cond_d "确诊时" ">=");
    (* "年龄到达X周岁" *)
    (cat [L "年龄到达"; gd; L "周岁的合同生效对应日"; lp; L "不含"; rp; L "前"],
     cond_d "投保时" "<");
    (cat [L "年龄到达"; gc; L "周岁的合同生效对应日"; lp; L "不含"; rp; L "前"],
     cond_c "投保时" "<");
    (* Chinese numerals, special forms *)
    (cat [L "年满"; gc; L "周岁的保单周年日前"; lp; L "不含"; cn;
          L "周岁对应的保单周年日"; rp], cond_c "确诊时" "<");
    (cat [L "年满"; gc; L "周岁的保单周年日后"; lp; L "含"; cn;
          L "周岁对应的保单周年日"; rp], cond_c "确诊时" ">=");
    (cat [L "到达年龄"; set "注未"; L "满"; gd; L "周岁"; lp; L "不含"; rp;
          L "前"], cond_d "确诊时" "<");
    (cat [L "到达年龄"; some; L "在"; gc; L "周岁"; lp; L "不含"; rp;
          L "之前"], cond_c "确诊时" "<");
    (cat [L "于年满"; gd; L "周岁"; lp; L "含"; rp; L "后"],
     cond_d "确诊时" ">=");
    (cat [L "年龄到达"; gc; L "周岁的合同生效对应日"; lp; L "含"; rp],
     cond_c "投保时" ">=");
    (* generic forms, last *)
    (cat [L "年满"; gd; L "周岁"; some; L "之前"], cond_d "投保时" "<");
    (cat [L "年满"; gc; L "周岁"; some; L "之前"], cond_c "投保时" "<");
    (cat [L "年满"; gd; L "周岁"; some; L "之后"], cond_d "投保时" ">=");
    (cat [L "年满"; gc; L "周岁"; some; L "之后"], cond_c "投保时" ">=");
    (cat [gd; L "周岁前"], cond_d "投保时" "<");
    (cat [gc; L "周岁前"], cond_c "投保时" "<");
    (cat [gd; L "周岁后"], cond_d "投保时" ">=");
    (cat [gc; L "周岁后"], cond_c "投保时" ">=") ].

(** [f"{x}"] for an integer or [None]. *)
Definition fmt_opt (o : option Z) : ustr :=
  match o with
  | Some v => str_of_Z v
  | None => u "None"
  end.

(** The loop state of [extract_age_conditions]: [conditions] and [seen]. *)
Definition age_state : Type := (list AgeCondition * list ustr)%type.

Definition in_seen (key : ustr) (seen : list ustr) : bool :=
  existsb (ustr_eqb key) seen.

(** The body of the inner loop, for one match. *)
Definition age_step (extractor : match_obj -> option rule_result)
    (st : age_state) (m : match_obj) : age_state :=
  let '(conditions, seen) := st in
  match extractor m with
  | None => st
  | Some (RRange a b) =>
    let key := u "range_" ++ fmt_opt a ++ u "_" ++ str_of_Z b in
    if in_seen key seen then st
    else (conditions ++ [ {| ageType := u "确诊时"; operator := u "range";
                             age := a; maxAge := Some b |} ],
          key :: seen)
  | Some (RCond age_type op a) =>
    match a with
    | None => st
    | Some v =>
      let key := age_type ++ u "_" ++ op ++ u "_" ++ str_of_Z v in
      if in_seen key seen then st
      else (conditions ++ [ {| ageType := age_type; operator := op;
                               age := Some v; maxAge := None |} ],
            key :: seen)
    end
  end.

(** [extract_age_conditions]: the conditions, or [None] when there are
    none. *)
Definition extract_age_conditions (text : ustr)
  : option (list AgeCondition) :=
  let st :=
    fold_left
      (fun st pe => fold_left (age_step (snd pe)) (finditer (fst pe) text) st)
      age_patterns ([], []) in
  match fst st with
  | [] => None
  | c :: cs => Some (c :: cs)
  end.

Record PolicyYearRange : Type := {
  minYear : Z;
  maxYear : Z
}.

(** [extract_policy_year_range] *)
Definition extract_policy_year_range (text : ustr) : option PolicyYearRange :=
  match search (cat [L "第"; gd; L "个保险合同周年日"; some; lp; L "含"; rp;
                     some; set "前之"]) text with
  | Some m => Some {| minYear := 1; maxYear := int_of_digits (g1 m) |}
  | None =>
  match search (cat [L "第"; gd; L "个保单周年日之前"; lp; L "不含第"; digits;
                     L "个保单周年日"; rp]) text with
  | Some m => Some {| minYear := 1; maxYear := int_of_digits (g1 m) - 1 |}
  | None =>
  match search (cat [L "第"; gd; L "个保单周年日前"]) text with
  | Some m => Some {| minYear := 1; maxYear := int_of_digits (g1 m) |}
  | None =>
  match search (cat [L "第"; gc; L "个保单周年日前"]) text with
  | Some m =>
    match chinese_to_num (g1 m) with
    | Some year =>
      if (year =? 0)%Z then None
      else Some {| minYear := 1; maxYear := year |}
    | None => None
    end
  | None => None
  end end end end.

(** [extract_payment_period_status] *)
Definition extract_payment_period_status (text : ustr) : option ustr :=
  if contains (u "交费期内") text then Some (u "交费期内")
  else if contains (u "交费期满") text || contains (u "交费期后") text
  then Some (u "交费期满")
  else None.

End Batch14Complex.

(* ================================================================== *)
(** * generate_batch14_final.py *)
(* ================================================================== *)

Module Batch14Final.
Import Text Regex Batch14Complex.

(** One entry of [payoutAmount]; an absent key is [None]. *)
Record Stage : Type := {
  stageNumber : Z;
  period : ustr;
  formula : ustr;
  naturalLanguageDescription : ustr;
  ageConditions : option (list AgeCondition);
  policyYearRange : option PolicyYearRange;
  paymentPeriodStatus : option ustr;
  note : option ustr
}.

(** A case: 序号, 产品编码, 险种类型, 责任名称, payoutAmount. *)
Record Case : Type := {
  seq : Z;
  code : ustr;
  category : ustr;
  name : ustr;
  payoutAmount : list Stage
}.

Definition has_table (text : ustr) : bool :=
  contains (u "下表") text || contains (u "表格") text.

Definition has_premium (text : ustr) : bool :=
  contains (u "已交保费") text || contains (u "已交纳") text
  || contains (u "已支付的保险费") text.

Definition has_waiting (text : ustr) : bool :=
  contains (u "等待期内") text || contains (u "180日内") text
  || contains (u "90日内") text.

Definition cn_digit : regex := set "一二三四五六七八九十".

(** The three patterns tried for the number of payouts. *)
Definition count_patterns : list regex :=
  [ cat [Grp 1 cn_digit; L "次为限"];
    cat [L "累计"; some; Grp 1 cn_digit; L "次"];
    cat [L "给付"; some; Grp 1 cn_digit; L "次"] ].

(** The [for ... break] loop over [count_patterns]. *)
Fixpoint first_count (ps : list regex) (text : ustr) : list ustr :=
  match ps with
  | [] => []
  | p :: ps' =>
    match search p text with
    | Some m => [u "累计限赔" ++ group_text m 1 ++ u "次"]
    | None => first_count ps' text
    end
  end.

Definition collect_notes (text : ustr) : list ustr :=
  (if contains (u "限交一次") text || contains (u "仅给付一次") text
      || contains (u "限给付一次") text || contains (u "以一次为限") text
   then [u "限赔1次"]
   else if contains (u "多次") text || contains (u "累计给付") text
   then first_count count_patterns text
   else [])
  ++ (if contains (u "运动") text && contains (u "达标") text
      then [u "需达到运动标准"] else []).

(** The tail of [parse_remaining_case]: the single stage built from
    [formula] and [desc]. *)
Definition single_stage_case (seq0 : Z) (code0 category0 name0 text : ustr)
    (formula0 desc : ustr) : Case :=
  let notes := collect_notes text in
  let stage :=
    {| stageNumber := 1; period := u "等待期后"; formula := formula0;
       naturalLanguageDescription := desc;
       ageConditions := extract_age_conditions text;
       policyYearRange := extract_policy_year_range text;
       paymentPeriodStatus := extract_payment_period_status text;
       note := match notes with
               | [] => None
               | _ :: _ => Some (join (u "；") notes)
               end |} in
  {| seq := seq0; code := code0; category := category0; name := name0;
     payoutAmount := [stage] |}.

(** The early return of [parse_remaining_case]: the waiting-period
    split. *)
Definition waiting_split_case (seq0 : Z) (code0 category0 name0 text : ustr)
  : Case :=
  let wait_stage :=
    {| stageNumber := 1; period := u "等待期内"; formula := u "已交保费";
       naturalLanguageDescription := u "等待期内确诊，返还已交保费";
       ageConditions := None; policyYearRange := None;
       paymentPeriodStatus := None; note := None |} in
  let after_stage :=
    {| stageNumber := 2; period := u "等待期后";
       formula := u "基本保额 * 100%";
       naturalLanguageDescription := u "等待期后确诊，按基本保额赔付";
       ageConditions := extract_age_conditions text;
       policyYearRange := extract_policy_year_range text;
       paymentPeriodStatus := None; note := None |} in
  {| seq := seq0; code := code0; category := category0; name := name0;
     payoutAmount := [wait_stage; after_stage] |}.

(** [parse_remaining_case] *)
Definition parse_remaining_case (seq0 : Z) (code0 category0 name0 text : ustr)
  : Case :=
  let single := single_stage_case seq0 code0 category0 name0 text in
  (* 1. table *)
  if has_table text then single (u "按表格赔付") (u "按表格比例赔付")
  (* 2. premiums paid *)
  else if has_premium text then
    if has_waiting text then
      waiting_split_case seq0 code0 category0 name0 text
    else single (u "已交保费") (u "确诊后返还已交保费")
  (* 3. cash value *)
  else if contains (u "现金价值") text then
    single (u "已交保费或现金价值的较大者")
           (u "按已交保费或现金价值的较大者赔付")
  (* 4. percentage *)
  else if contains (u "%") text then
    match search (cat [Grp 1 decimal; L "%"]) text with
    | Some m =>
      let percent := group_text m 1 in
      single (u "基本保额 * " ++ percent ++ u "%")
             (u "按基本保额×" ++ percent ++ u "%赔付")
    | None => single (u "基本保额 * 100%") (u "按基本保额赔付")
    end
  (* 5. default *)
  else single (u "基本保额 * 100%") (u "按基本保额赔付").

(** [l[i]] for [i >= 0], with a default for the positions the caller has
    excluded. *)
Definition item (l : list ustr) (i : nat) : ustr := nth i l [].

(** The loop of [main] over the lines of the raw-clause file: the cases
    parsed for the sequence numbers not yet in the corpus; [None] when
    [int] raises on a first field that [isdigit] let through. *)
Fixpoint new_cases (parsed_seqs : list Z) (lines : list ustr)
  : option (list Case) :=
  match lines with
  | [] => Some []
  | line :: rest =>
    let parts := split (strip line) (u "|||") in
    if (5 <=? length parts)%nat && isdigit (item parts 0) then
      match py_int (item parts 0) with
      | None => None                       (* ValueError: the run aborts *)
      | Some seq0 =>
        if negb (existsb (Z.eqb seq0) parsed_seqs) && (seq0 <=? 2800)%Z then
          option_map
            (cons (parse_remaining_case seq0 (item parts 1) (item parts 2)
                     (item parts 3) (item parts 4)))
            (new_cases parsed_seqs rest)
        else new_cases parsed_seqs rest
      end
    else new_cases parsed_seqs rest
  end.

(** [list.sort(key=lambda x: x['序号'])]: a stable sort. *)
Fixpoint insert_by_seq (c : Case) (l : list Case) : list Case :=
  match l with
  | [] => [c]
  | d :: l' =>
    if (seq c <=? seq d)%Z then c :: l else d :: insert_by_seq c l'
  end.

Fixpoint sort_by_seq (l : list Case) : list Case :=
  match l with
  | [] => []
  | c :: l' => insert_by_seq c (sort_by_seq l')
  end.

(** The merge of [main]: [existing_cases + new_cases], sorted; nothing
    is written when the loop has raised. *)
Definition merge_cases (existing_cases : list Case) (lines : list ustr)
  : option (list Case) :=
  let parsed_seqs := map seq existing_cases in
  match new_cases parsed_seqs lines with
  | None => None
  | Some new_cases0 => Some (sort_by_seq (existing_cases ++ new_cases0))
  end.

End Batch14Final.

(* ================================================================== *)
(** * The persisted corpus (tools/, 解析结果/) *)
(* ================================================================== *)

(** The records of the result files, as the validator and the fixers
    read them.  An absent key is [None]. *)
Module Corpus.
Import Text.

Record AgeCond : Type := {
  limit : option Z;
  operator : option ustr
}.

(** A [policyYearRange] object; a key may hold null. *)
Record YearRange : Type := {
  start : option Z;
  end_ : option Z
}.

(** A [continuousPayment] object; it always has its [type]. *)
Record ContinuousPayment : Type := {
  cp_type : ustr;
  totalCount : option Z;
  frequency : option ustr
}.

Record Stage : Type := {
  stageNumber : option Z;
  period : option ustr;
  waitingPeriodStatus : option ustr;
  paymentPeriodStatus : option ustr;
  formula : option ustr;
  naturalLanguageDescription : option ustr;
  ageConditions : option (list AgeCond);
  policyYearRange : option YearRange;
  continuousPayment : option ContinuousPayment;
  note : option ustr
}.

(** A case: 序号, 责任名称, 责任原文, note, a (forbidden) case-level
    naturalLanguageDescription, payoutAmount. *)
Record Case : Type := {
  seq : Z;
  name : ustr;
  clause : option ustr;
  case_note : option ustr;
  case_description : option ustr;
  payoutAmount : option (list Stage)
}.

(** [d.get(key, '')] *)
Definition get_str (o : option ustr) : ustr :=
  match o with
  | Some s => s
  | None => []
  end.

(** [d.get(key, [])] *)
Definition get_list (A : Type) (o : option (list A)) : list A :=
  match o with
  | Some l => l
  | None => []
  end.

(** Truth value of an optional string: neither absent nor empty. *)
Definition nonempty (o : option ustr) : bool :=
  match o with
  | Some (_ :: _) => true
  | _ => false
  end.

(** Truth value of an optional integer: neither absent nor 0. *)
Definition nonzero (o : option Z) : bool :=
  match o with
  | Some v => negb (v =? 0)%Z
  | None => false
  end.

(** [f"{x}"] for an integer or [None]. *)
Definition fmt (o : option Z) : ustr :=
  match o with
  | Some v => str_of_Z v
  | None => u "None"
  end.

(** Record updates, for the assignments to a key. *)
Definition set_note (s : Stage) (v : option ustr) : Stage :=
  {| stageNumber := stageNumber s; period := period s;
     waitingPeriodStatus := waitingPeriodStatus s;
     paymentPeriodStatus := paymentPeriodStatus s;
     formula := formula s;
     naturalLanguageDescription := naturalLanguageDescription s;
     ageConditions := ageConditions s;
     policyYearRange := policyYearRange s;
     continuousPayment := continuousPayment s;
     note := v |}.

Definition set_description (s : Stage) (v : option ustr) : Stage :=
  {| stageNumber := stageNumber s; period := period s;
     waitingPeriodStatus := waitingPeriodStatus s;
     paymentPeriodStatus := paymentPeriodStatus s;
     formula := formula s;
     naturalLanguageDescription := v;
     ageConditions := ageConditions s;
     policyYearRange := policyYearRange s;
     continuousPayment := continuousPayment s;
     note := note s |}.

Definition set_paymentPeriodStatus (s : Stage) (v : option ustr) : Stage :=
  {| stageNumber := stageNumber s; period := period s;
     waitingPeriodStatus := waitingPeriodStatus s;
     paymentPeriodStatus := v;
     formula := formula s;
     naturalLanguageDescription := naturalLanguageDescription s;
     ageConditions := ageConditions s;
     policyYearRange := policyYearRange s;
     continuousPayment := continuousPayment s;
     note := note s |}.


Definition set_continuousPayment (s : Stage) (v : option ContinuousPayment)
  : Stage :=
  {| stageNumber := stageNumber s; period := period s;
     waitingPeriodStatus := waitingPeriodStatus s;
     paymentPeriodStatus := paymentPeriodStatus s;
     formula := formula s;
     naturalLanguageDescription := naturalLanguageDescription s;
     ageConditions := ageConditions s;
     policyYearRange := policyYearRange s;
     continuousPayment := v;
     note := note s |}.

Definition set_frequency (cp : ContinuousPayment) (v : option ustr)
  : ContinuousPayment :=
  {| cp_type := cp_type cp; totalCount := totalCount cp; frequency := v |}.

Definition set_case_note (c : Case) (v : option ustr) : Case :=
  {| seq := seq c; name := name c; clause := clause c; case_note := v;
     case_description := case_description c;
     payoutAmount := payoutAmount c |}.

Definition set_case_description (c : Case) (v : option ustr) : Case :=
  {| seq := seq c; name := name c; clause := clause c;
     case_note := case_note c; case_description := v;
     payoutAmount := payoutAmount c |}.

Definition set_payoutAmount (c : Case) (v : option (list Stage)) : Case :=
  {| seq := seq c; name := name c; clause := clause c;
     case_note := case_note c; case_description := case_description c;
     payoutAmount := v |}.

End Corpus.

(* ================================================================== *)
(** * tools/utils/validators.py *)
(* ================================================================== *)

Module Validators.
Import Text Regex Corpus.

(** A value that is an [int] or a [str]. *)
Inductive pyval : Type :=
| VInt (z : Z)
| VStr (s : ustr).

(** Truth value: a non-zero integer, a non-empty string. *)
Definition truthy (v : pyval) : bool :=
  match v with
  | VInt z => negb (z =? 0)%Z
  | VStr [] => false
  | VStr (_ :: _) => true
  end.

(** [str(v)] *)
Definition str_of (v : pyval) : ustr :=
  match v with
  | VInt z => str_of_Z z
  | VStr s => s
  end.

Definition cn_num_map : list (ustr * Z) :=
  [ (u "一", 1); (u "二", 2); (u "三", 3); (u "四", 4); (u "五", 5);
    (u "六", 6); (u "七", 7); (u "八", 8); (u "九", 9); (u "十", 10) ]%Z.

Fixpoint lookup (d : list (ustr * Z)) (key : ustr) : option Z :=
  match d with
  | [] => None
  | (k, v) :: d' => if ustr_eqb key k then Some v else lookup d' key
  end.

(** [convert_chinese_num]: the number, or the token itself; [None]
    stands for the [ValueError] of [int], raised for a token that
    passes [isdigit] and is not made of decimal digits. *)
Definition convert_chinese_num (cn : ustr) : option pyval :=
  match lookup cn_num_map cn with
  | Some v => Some (VInt v)
  | None => if isdigit cn then option_map VInt (py_int cn)
            else Some (VStr cn)
  end.

(** 累计给付以([一二三四五六七八九十\d]+)次为限 *)
Definition cumulative_pattern : regex :=
  cat [L "累计给付以";
       Grp 1 (plus (Either (OneOf (u "一二三四五六七八九十")) Digit));
       L "次为限"].

(** [has_cumulative_limit].  The group holds numerals and decimal
    digits only, so neither call of [int] can raise here (this is
    [cumulative_count_read] below) and the last branch is not taken. *)
Definition has_cumulative_limit (text : ustr) : option pyval :=
  match search cumulative_pattern text with
  | None => None
  | Some m =>
    match convert_chinese_num (group_text m 1) with
    | Some (VStr s) => if isdigit s then option_map VInt (py_int s)
                       else Some (VStr s)
    | Some v => Some v
    | None => None
    end
  end.

(** Truth value of the result of [has_cumulative_limit]. *)
Definition truthy_opt (o : option pyval) : bool :=
  match o with
  | Some v => truthy v
  | None => false
  end.

Definition anyc : regex := star Any.        (* .* *)
Definition comma : regex := set "，,".       (* [，,] *)

Definition termination_patterns : list regex :=
  [ cat [L "给付"; anyc; L "保险金"; comma; anyc; L "本合同终止"];
    cat [L "给付"; anyc; L "保险金"; comma; anyc; L "责任终止"];
    cat [L "给付"; anyc; L "保险金责任终止"];
    cat [L "按"; anyc; L "给付"; anyc; comma; anyc; L "本合同终止"];
    cat [L "按"; anyc; L "给付"; anyc; comma; anyc; L "责任终止"] ].

(** [re.search(pattern, s)] as a truth value. *)
Definition found (r : regex) (s : ustr) : bool :=
  match search r s with
  | Some _ => true
  | None => false
  end.

(** [has_termination] *)
Definition has_termination (text : ustr) : bool :=
  existsb (fun p => found p text) termination_patterns.

Definition patterns_during : list regex :=
  [ cat [L "交费期"; set "内间"];
    cat [L "缴费期"; set "内间"];
    cat [L "交费"; anyc; L "期间届满"; anyc; L "前"];
    cat [L "缴费"; anyc; L "期间届满"; anyc; L "前"] ].

Definition patterns_after : list regex :=
  [ L "交费期满";
    L "缴费期满";
    cat [L "交费"; anyc; L "期间届满"; anyc; L "后"];
    cat [L "缴费"; anyc; L "期间届满"; anyc; L "以后"] ].

(** [detect_payment_period] *)
Definition detect_payment_period (text : ustr) : option ustr :=
  if existsb (fun p => found p text) patterns_during then Some (u "during")
  else if existsb (fun p => found p text) patterns_after then Some (u "after")
  else None.

(** (\d+(?:\.\d+)?)\s*% *)
Definition ratio_pattern : regex := cat [Grp 1 decimal; star Space; L "%"].

(** [check_description_completeness]: [(is_complete, missing)]. *)
Definition check_description_completeness (stage : Stage) (text : ustr)
  : bool * list ustr :=
  let desc := get_str (naturalLanguageDescription stage) in
  (* 1. waiting period *)
  let m1 :=
    let waiting_status := waitingPeriodStatus stage in
    if nonempty waiting_status then
      if ustr_eqb (get_str waiting_status) (u "during")
         && negb (contains (u "等待期内") desc)
      then [u "等待期内"]
      else if ustr_eqb (get_str waiting_status) (u "after")
              && negb (contains (u "等待期后") desc)
              && negb (contains (u "等待期") desc)
      then [u "等待期后"]
      else []
    else [] in
  (* 2. age conditions *)
  let m2 :=
    match get_list (ageConditions stage) with
    | [] => []
    | age_conditions =>
      if existsb (fun cond => contains (fmt (limit cond) ++ u "周岁") desc)
                 age_conditions
      then [] else [u "年龄条件"]
    end in
  (* 3. policy year *)
  let m3 :=
    match policyYearRange stage with
    | Some _ =>
      if contains (u "保单年度") desc || contains (u "年度") desc
      then [] else [u "保单年度"]
    | None => []
    end in
  (* 4. payment period *)
  let m4 :=
    let payment_status := paymentPeriodStatus stage in
    if nonempty payment_status then
      if ustr_eqb (get_str payment_status) (u "during")
         && negb (contains (u "交费期内") desc)
         && negb (contains (u "缴费期内") desc)
      then [u "交费期内"]
      else if ustr_eqb (get_str payment_status) (u "after")
              && negb (contains (u "交费期满") desc)
              && negb (contains (u "缴费期满") desc)
      then [u "交费期满后"]
      else []
    else [] in
  (* 5. continuous payment *)
  let m5 :=
    match continuousPayment stage with
    | Some cp =>
      let total_count := totalCount cp in
      if ustr_eqb (cp_type cp) (u "fixed_count") && nonzero total_count then
        if negb (contains (u "分" ++ fmt total_count ++ u "次") desc)
           && negb (contains (u "共" ++ fmt total_count ++ u "次") desc)
        then [u "持续给付(分" ++ fmt total_count ++ u "次)"]
        else []
      else if ustr_eqb (cp_type cp) (u "until_termination") then
        if negb (contains (u "持续给付") desc)
        then [u "持续给付至合同终止"] else []
      else []
    | None => []
    end in
  (* 6. formula *)
  let m6 :=
    let formula0 := get_str (formula stage) in
    if nonempty (formula stage) && negb (contains formula0 desc) then
      match search ratio_pattern formula0 with
      | Some m =>
        let ratio := group_text m 1 in
        if negb (contains ratio desc)
        then [u "赔付比例(" ++ ratio ++ u "%)"] else []
      | None => []
      end
    else [] in
  let missing := m1 ++ m2 ++ m3 ++ m4 ++ m5 ++ m6 in
  (match missing with [] => true | _ :: _ => false end, missing).

(** [has_stage_level_note] *)
Definition has_stage_level_note (stage : Stage) : bool :=
  match note stage with
  | Some _ => true
  | None => false
  end.

(** [has_continuous_payment_frequency] *)
Definition has_continuous_payment_frequency (stage : Stage) : bool :=
  match continuousPayment stage with
  | None => true
  | Some cp =>
    match frequency cp with
    | Some _ => true
    | None => false
    end
  end.

End Validators.

(* ================================================================== *)
(** * tools/utils/fixers.py *)
(* ================================================================== *)

(** A fixer mutates the case or stage it is given and returns a flag or
    a count: here it returns the new record and that result. *)
Module Fixers.
Import Text Regex Corpus Validators.

(** [fix_cumulative_limit_note] *)
Definition fix_cumulative_limit_note (case : Case) : Case * bool :=
  let text := get_str (clause case) in
  let note0 := get_str (case_note case) in
  match has_cumulative_limit text with
  | None => (case, false)
  | Some n =>
    if negb (truthy n) then (case, false)
    else
      let has_cumulative :=
        contains (u "累计") note0
        && (contains (u "次") note0 || contains (str_of n) note0) in
      let has_at_most :=
        contains (u "最多") note0 && contains (str_of n) note0 in
      if has_cumulative || has_at_most then (case, false)
      else
        let added := u "累计最多赔" ++ str_of n ++ u "次" in
        let new_note :=
          match note0 with
          | [] => added
          | _ :: _ =>
            if contains (u "每种") note0 then
              match split1 note0 (u "；") with
              | [p0; p1] => p0 ++ u "；" ++ added ++ u "；" ++ p1
              | _ => note0 ++ u "；" ++ added
              end
            else added ++ u "；" ++ note0
          end in
        (set_case_note case (Some new_note), true)
  end.

Definition payout_limit_patterns : list regex :=
  [ cat [L "给付以"; Rep Any 1 (Some 3) true; L "次为限"];
    cat [L "限赔"; Rep Any 1 (Some 3) true; L "次"];
    cat [L "累计"; Rep (OneOf (u "最多")) 0 (Some 1) true;
         Rep (OneOf (u "赔")) 0 (Some 1) true; digits; L "次"];
    cat [L "仅"; Rep (OneOf (u "限")) 0 (Some 1) true;
         Rep Any 1 (Some 3) true; L "次"] ].

(** [fix_termination_note] *)
Definition fix_termination_note (case : Case) : Case * bool :=
  let text := get_str (clause case) in
  let note0 := get_str (case_note case) in
  if negb (has_termination text) then (case, false)
  else if existsb (fun p => found p note0) payout_limit_patterns
  then (case, false)
  else
    let added := u "给付以1次为限" in
    let new_note :=
      match note0 with
      | [] => added
      | _ :: _ => added ++ u "；" ++ note0
      end in
    (set_case_note case (Some new_note), true).

(** The body of the loop of [fix_payment_period], for one stage. *)
Definition fix_payment_period_stage (payment_status : ustr) (stage : Stage)
  : Stage * bool :=
  match paymentPeriodStatus stage with
  | Some _ => (stage, false)
  | None =>
    let stage1 := set_paymentPeriodStatus stage (Some payment_status) in
    let old_desc := get_str (naturalLanguageDescription stage) in
    match old_desc with
    | [] => (stage1, true)
    | _ :: _ =>
      let payment_desc :=
        if ustr_eqb payment_status (u "during")
        then u "交费期内" else u "交费期满后" in
      let new_desc :=
        if contains (u "等待期后") old_desc
        then replace old_desc (u "等待期后")
                     (u "等待期后、" ++ payment_desc)
        else payment_desc ++ u "、" ++ old_desc in
      (set_description stage1 (Some new_desc), true)
    end
  end.

Fixpoint fix_payment_period_stages (payment_status : ustr)
    (stages : list Stage) : list Stage * Z :=
  match stages with
  | [] => ([], 0%Z)
  | st :: rest =>
    let '(st', changed) := fix_payment_period_stage payment_status st in
    let '(rest', n) := fix_payment_period_stages payment_status rest in
    (st' :: rest', if changed then (n + 1)%Z else n)
  end.

(** [fix_payment_period]: the number of stages changed. *)
Definition fix_payment_period (case : Case) : Case * Z :=
  let text := get_str (clause case) in
  match detect_payment_period text with
  | None => (case, 0%Z)
  | Some payment_status =>
    match payoutAmount case with
    | None => (case, 0%Z)
    | Some stages =>
      let '(stages', n) := fix_payment_period_stages payment_status stages in
      (set_payoutAmount case (Some stages'), n)
    end
  end.

(** The phrase of one age condition, when its operator has one. *)
Definition age_part (cond : AgeCond) : list ustr :=
  let l := fmt (limit cond) in
  match operator cond with
  | Some op =>
    if ustr_eqb op (u "<") then [l ++ u "周岁前"]
    else if ustr_eqb op (u "<=") then [l ++ u "周岁及以前"]
    else if ustr_eqb op (u ">") then [l ++ u "周岁后"]
    else if ustr_eqb op (u ">=") then [l ++ u "周岁及以上"]
    else []
  | None => []
  end.

(** [fix_description_completeness]: the new description, or [None] when
    nothing is to be repaired. *)
Definition fix_description_completeness (stage : Stage) (text : ustr)
  : option ustr :=
  let '(is_complete, _) := check_description_completeness stage text in
  if is_complete then None
  else
    let desc := get_str (naturalLanguageDescription stage) in
    (* 1. waiting period *)
    let p1 :=
      let waiting_status := get_str (waitingPeriodStatus stage) in
      if ustr_eqb waiting_status (u "during") then [u "等待期内"]
      else if ustr_eqb waiting_status (u "after") then [u "等待期后"]
      else [] in
    (* 2. age conditions *)
    let p2 := flat_map age_part (get_list (ageConditions stage)) in
    (* 3. policy year *)
    let p3 :=
      match policyYearRange stage with
      | Some policy_year =>
        if nonzero (start policy_year) && nonzero (end_ policy_year) then
          [u "第" ++ fmt (start policy_year) ++ u "-"
             ++ fmt (end_ policy_year) ++ u "保单年度"]
        else if nonzero (start policy_year)
                && negb (nonzero (end_ policy_year)) then
          [u "第" ++ fmt (start policy_year) ++ u "保单年度起"]
        else []
      | None => []
      end in
    (* 4. payment period *)
    let p4 :=
      let payment_status := get_str (paymentPeriodStatus stage) in
      if ustr_eqb payment_status (u "during") then [u "交费期内"]
      else if ustr_eqb payment_status (u "after") then [u "交费期满后"]
      else [] in
    let parts := p1 ++ p2 ++ p3 ++ p4 in
    (* 5. the payout phrase *)
    let current_payout :=
      if contains (u "赔付") desc then slice_from desc (find desc (u "按"))
      else if contains (u "退还") desc
      then slice_from desc (find desc (u "退还"))
      else
        let formula0 := get_str (formula stage) in
        if contains (u "已交保费") formula0 then u "退还已交保费"
        else if contains (u "*") formula0 && contains (u "%") formula0 then
          match search ratio_pattern formula0 with
          | Some m => u "按基本保额的" ++ group_text m 1 ++ u "%赔付"
          | None => []
          end
        else [] in
    (* 6. continuous payment *)
    let head := join (u "、") parts in
    match continuousPayment stage with
    | Some cp =>
      if ustr_eqb (cp_type cp) (u "fixed_count") then
        Some (head ++ u "确诊，每年" ++ current_payout ++ u "（分"
                ++ fmt (totalCount cp) ++ u "次）")
      else if ustr_eqb (cp_type cp) (u "until_termination") then
        Some (head ++ u "确诊，每年" ++ current_payout
                ++ u "，持续给付至合同终止")
      else Some (head ++ u "确诊，" ++ current_payout)
    | None => Some (head ++ u "确诊，" ++ current_payout)
    end.

(** [remove_stage_level_note] *)
Definition remove_stage_level_note (stage : Stage) : Stage * bool :=
  match note stage with
  | Some _ => (set_note stage None, true)
  | None => (stage, false)
  end.

(** [add_continuous_payment_frequency] *)
Definition add_continuous_payment_frequency (stage : Stage) : Stage * bool :=
  match continuousPayment stage with
  | None => (stage, false)
  | Some cp =>
    match frequency cp with
    | Some _ => (stage, false)
    | None =>
      if ustr_eqb (cp_type cp) (u "fixed_count")
         || ustr_eqb (cp_type cp) (u "until_termination")
      then (set_continuousPayment stage
              (Some (set_frequency cp (Some (u "年")))), true)
      else (stage, true)
    end
  end.

(** Removal of the four punctuation marks, then [×], [x], [X] to [*]. *)
Definition strip_invalid (s : ustr) : ustr :=
  fold_left (fun acc ch => replace acc ch [])
            [u "、"; u "，"; u "。"; u "；"] s.

Definition unify_times (s : ustr) : ustr :=
  replace (replace (replace s (u "×") (u "*")) (u "x") (u "*"))
          (u "X") (u "*").


End Fixers.

(* ================================================================== *)
(** * tools/3_ai_reviewer.py *)
(* ================================================================== *)

Module Reviewer.
Import Text Regex Corpus Validators Fixers.

(** An entry of [self.issues]. *)
Record Issue : Type := {
  severity : ustr;
  issue_type : ustr;
  case_number : Z;
  case_name : ustr;
  stage : option Z;
  missing : option (list ustr);
  message : ustr
}.

Definition mk_issue (sev ty : string) (c : Case) (st : option Z)
    (miss : option (list ustr)) (msg : ustr) : Issue :=
  {| severity := u sev; issue_type := u ty; case_number := seq c;
     case_name := name c; stage := st; missing := miss; message := msg |}.

(** [enumerate(stages, 1)] *)
Fixpoint enumerate_from (A : Type) (i : Z) (l : list A) : list (Z * A) :=
  match l with
  | [] => []
  | x :: l' => (i, x) :: enumerate_from (i + 1)%Z l'
  end.

(** Check 1 of [run_auto_checks]: the cumulative limit. *)
Definition check_cumulative_limit (case : Case) : list Issue :=
  if truthy_opt (has_cumulative_limit (get_str (clause case))) then
    let note0 := get_str (case_note case) in
    if negb (contains (u "累计") note0 && contains (u "次") note0) then
      [mk_issue "P1" "missing_cumulative_limit" case None None
         (u "原文有累计次数限制，但note中未体现")]
    else []
  else [].

(** Check 2: the termination wording. *)
Definition check_termination (case : Case) : list Issue :=
  if has_termination (get_str (clause case)) then
    let note0 := get_str (case_note case) in
    if negb (contains (u "次为限") note0 || contains (u "最多赔") note0) then
      [mk_issue "P1" "missing_termination_note" case None None
         (u "原文有" ++ [34%N] ++ u "合同终止" ++ [34%N]
            ++ u "表述，但note中未体现赔付次数限制")]
    else []
  else [].

(** Check 3: the payment period, stage by stage. *)
Definition check_payment_period (case : Case) : list Issue :=
  match detect_payment_period (get_str (clause case)) with
  | Some _ =>
    flat_map
      (fun '(stage_idx, st) =>
         match paymentPeriodStatus st with
         | None =>
           [mk_issue "P2" "missing_payment_period" case (Some stage_idx) None
              (u "原文有交费期条件，但stage中未体现")]
         | Some _ => []
         end)
      (enumerate_from 1%Z (get_list (payoutAmount case)))
  | None => []
  end.

(** Check 4: the completeness of the descriptions. *)
Definition check_descriptions (case : Case) : list Issue :=
  flat_map
    (fun '(stage_idx, st) =>
       let '(is_complete, miss) :=
         check_description_completeness st (get_str (clause case)) in
       if is_complete then []
       else
         [mk_issue "P2" "incomplete_description" case (Some stage_idx)
            (Some miss)
            (u "自然语言描述不完整，缺少: " ++ join (u ", ") miss)])
    (enumerate_from 1%Z (get_list (payoutAmount case))).

(** Check 5: a note at stage level. *)
Definition check_stage_notes (case : Case) : list Issue :=
  flat_map
    (fun '(stage_idx, st) =>
       match note st with
       | Some _ =>
         [mk_issue "P0" "stage_level_note" case (Some stage_idx) None
            (u "note应该在案例级别，不应在stage级别")]
       | None => []
       end)
    (enumerate_from 1%Z (get_list (payoutAmount case))).

(** Check 6: a continuousPayment without frequency. *)
Definition check_frequency (case : Case) : list Issue :=
  flat_map
    (fun '(stage_idx, st) =>
       match continuousPayment st with
       | Some cp =>
         match frequency cp with
         | None =>
           [mk_issue "P2" "missing_frequency" case (Some stage_idx) None
              (u "continuousPayment缺少frequency字段")]
         | Some _ => []
         end
       | None => []
       end)
    (enumerate_from 1%Z (get_list (payoutAmount case))).

(** [run_auto_checks]: the issues found, in the order they are
    appended. *)
Definition run_auto_checks (cases : list Case) : list Issue :=
  flat_map
    (fun case =>
       check_cumulative_limit case ++ check_termination case
       ++ check_payment_period case ++ check_descriptions case
       ++ check_stage_notes case ++ check_frequency case)
    cases.

(** [severity_order.get(severity, 2)] *)
Definition severity_rank (sev : ustr) : Z :=
  if ustr_eqb sev (u "P0") then 0%Z
  else if ustr_eqb sev (u "P1") then 1%Z
  else 2%Z.

(** [sorted(self.issues, key=...)]: a stable sort. *)
Fixpoint insert_issue (i : Issue) (l : list Issue) : list Issue :=
  match l with
  | [] => [i]
  | j :: l' =>
    if (severity_rank (severity i) <=? severity_rank (severity j))%Z
    then i :: l else j :: insert_issue i l'
  end.

Fixpoint sort_issues (l : list Issue) : list Issue :=
  match l with
  | [] => []
  | i :: l' => insert_issue i (sort_issues l')
  end.

(** The position [l[i]] designates in a list of length [n]; [None] is
    the IndexError. *)
Definition py_position (i : Z) (n : nat) : option nat :=
  if (i <? 0)%Z then
    if (- i <=? Z.of_nat n)%Z then Some (Z.to_nat (Z.of_nat n + i))
    else None
  else if (i <? Z.of_nat n)%Z then Some (Z.to_nat i) else None.

Fixpoint update_nth (A : Type) (k : nat) (x : A) (l : list A) : list A :=
  match l, k with
  | [], _ => []
  | _ :: l', O => x :: l'
  | y :: l', S k' => y :: update_nth k' x l'
  end.

(** The pattern shared by the stage repairs of [apply_fixes]:
    [if stage_idx < len(stages): stage = stages[stage_idx]; ...].
    [None] is the IndexError of a stage number below [1 - len(stages)]. *)
Definition on_stage (case : Case) (stage_idx : Z)
    (f : Stage -> Stage * bool) : option (Case * bool) :=
  let stages := get_list (payoutAmount case) in
  if (stage_idx <? Z.of_nat (length stages))%Z then
    match py_position stage_idx (length stages) with
    | None => None
    | Some k =>
      match nth_error stages k with
      | None => None
      | Some st =>
        let '(st', fixed) := f st in
        Some (set_payoutAmount case (Some (update_nth k st' stages)), fixed)
      end
    end
  else Some (case, false).

(** The repair [apply_fixes] applies to the case of one issue. *)
Definition apply_issue (issue : Issue) (case : Case) : option (Case * bool) :=
  let ty := issue_type issue in
  let stage_idx :=
    (match stage issue with Some n => n | None => 1 end - 1)%Z in
  if ustr_eqb ty (u "missing_cumulative_limit") then
    Some (fix_cumulative_limit_note case)
  else if ustr_eqb ty (u "missing_termination_note") then
    Some (fix_termination_note case)
  else if ustr_eqb ty (u "missing_payment_period") then
    if (stage_idx <? Z.of_nat (length (get_list (payoutAmount case))))%Z then
      let '(case', fixed_stages) := fix_payment_period case in
      Some (case', (fixed_stages >? 0)%Z)
    else Some (case, false)
  else if ustr_eqb ty (u "incomplete_description") then
    on_stage case stage_idx
      (fun st =>
         match fix_description_completeness st (get_str (clause case)) with
         | Some (c :: new_desc) =>
           (set_description st (Some (c :: new_desc)), true)
         | _ => (st, false)
         end)
  else if ustr_eqb ty (u "stage_level_note") then
    on_stage case stage_idx remove_stage_level_note
  else if ustr_eqb ty (u "missing_frequency") then
    on_stage case stage_idx add_continuous_payment_frequency
  else Some (case, false).

(** [case_map.get(case_number)]: the position of the last case with that
    number. *)
Fixpoint case_index (cases : list Case) (n : Z) (i : nat) : option nat :=
  match cases with
  | [] => None
  | c :: cases' =>
    match case_index cases' n (S i) with
    | Some k => Some k
    | None => if (seq c =? n)%Z then Some i else None
    end
  end.

(** The loop of [apply_fixes] over the sorted issues: the corpus and the
    number of issues repaired; [None] when an IndexError escapes. *)
Fixpoint apply_sorted (issues : list Issue) (cases : list Case)
    (fixed_count : Z) : option (list Case * Z) :=
  match issues with
  | [] => Some (cases, fixed_count)
  | issue :: rest =>
    match case_index cases (case_number issue) 0 with
    | None => apply_sorted rest cases fixed_count
    | Some k =>
      match nth_error cases k with
      | None => apply_sorted rest cases fixed_count
      | Some case =>
        match apply_issue issue case with
        | None => None
        | Some (case', fixed) =>
          apply_sorted rest (update_nth k case' cases)
            (if fixed then fixed_count + 1 else fixed_count)%Z
        end
      end
    end
  end.

(** [apply_fixes] *)
Definition apply_fixes (issues : list Issue) (cases : list Case)
  : option (list Case * Z) :=
  apply_sorted (sort_issues issues) cases 0%Z.

End Reviewer.

(* ================================================================== *)
(** * 解析结果/fix_all_issues.py *)
(* ================================================================== *)

Module FixAllIssues.
Import Text Corpus.

(** The wording that must not appear in a note. *)
Definition skip_words : list ustr :=
  [ u "等待期"; u "因意外"; u "确诊"; u "不给付"; u "不承担";
    u "责任终止"; u "本项"; u "按"; u "赔付"; u "给付日";
    u "当日"; u "首次"; u "无"; u "对应日"; u "初次" ].

(** The wording a note is kept for. *)
Definition keywords : list ustr :=
  [ u "限赔"; u "最多赔"; u "给付以"; u "次为限"; u "累计";
    u "需间隔"; u "需属于"; u "不同组"; u "同组";
    u "豁免"; u "额外给付" ].

(** The test of the inner loop: the part is kept. *)
Definition keeps (part : ustr) : bool :=
  negb (existsb (fun skip => contains skip part) skip_words)
  && existsb (fun keyword => contains keyword part) keywords.

(** [filtered_parts] for the note of one stage. *)
Definition filtered_parts (stage_note : ustr) : list ustr :=
  match strip stage_note with
  | [] => []
  | note_content => filter keeps (map strip (split note_content (u "；")))
  end.

(** The first occurrences, in order ([unique_notes], with [seen]). *)
Fixpoint unique_from (seen : list ustr) (l : list ustr) : list ustr :=
  match l with
  | [] => []
  | x :: l' =>
    if existsb (ustr_eqb x) seen then unique_from seen l'
    else x :: unique_from (x :: seen) l'
  end.

Definition unique_notes (all_notes : list ustr) : list ustr :=
  unique_from [] all_notes.

(** The body of the loop over the stages: the stage without its note and
    with a frequency, the parts kept, whether anything changed. *)
Definition fix_stage (st : Stage) : Stage * list ustr * bool :=
  let '(st1, parts, fixed1) :=
    match note st with
    | Some n => (set_note st None, filtered_parts n, true)
    | None => (st, [], false)
    end in
  match continuousPayment st1 with
  | Some cp =>
    match frequency cp with
    | None =>
      (set_continuousPayment st1
         (Some (set_frequency cp (Some (u "每年对应日")))), parts, true)
    | Some _ => (st1, parts, fixed1)
    end
  | None => (st1, parts, fixed1)
  end.

Fixpoint fix_stages (stages : list Stage) : list Stage * list ustr * bool :=
  match stages with
  | [] => ([], [], false)
  | st :: rest =>
    let '(st', parts, f1) := fix_stage st in
    let '(rest', all_notes, f2) := fix_stages rest in
    (st' :: rest', parts ++ all_notes, f1 || f2)
  end.

(** [fix_case] *)
Definition fix_case (case : Case) : Case * bool :=
  match payoutAmount case with
  | None => (case, false)
  | Some stages =>
    (* 1. no description at case level *)
    let '(case1, fixed1) :=
      match case_description case with
      | Some _ => (set_case_description case None, true)
      | None => (case, false)
      end in
    (* 2. the notes of the stages; 3. the frequency *)
    let '(stages', all_notes, fixed2) := fix_stages stages in
    let case2 := set_payoutAmount case1 (Some stages') in
    match unique_notes all_notes with
    | [] => (case2, fixed1 || fixed2)
    | n :: ns =>
      (set_case_note case2 (Some (join (u "；") (n :: ns))), true)
    end
  end.

End FixAllIssues.

(* ================================================================== *)
(** * tools/1_generate_batch.py *)
(* ================================================================== *)

Module GenerateBatch.
Import Text.

(** What a function that may raise gives back. *)
Inductive result (A : Type) : Type :=
| Ok (x : A)
| ValueError.
Arguments Ok {A} x.
Arguments ValueError {A}.

(** A value of [raw_data]. *)
Record RawRecord : Type := {
  seq : Z;
  policy_id : ustr;
  coverage_type : ustr;
  coverage_name : ustr;
  clause_text : ustr
}.

(** [raw_data[key] = value]: a dictionary keeps the position of a key it
    already has. *)
Fixpoint dict_set (d : list (Z * RawRecord)) (key : Z) (v : RawRecord)
  : list (Z * RawRecord) :=
  match d with
  | [] => [(key, v)]
  | (k, w) :: d' =>
    if (k =? key)%Z then (k, v) :: d' else (k, w) :: dict_set d' key v
  end.

Definition item (l : list ustr) (i : nat) : ustr := nth i l [].

(** The lines [load_raw_data] passes over before it splits them. *)
Definition ignored (line : ustr) : bool :=
  match line with
  | [] => true
  | _ :: _ => startswith line (u "#") || startswith line (u "序号范围")
  end.

(** The loop of [load_raw_data] over the lines of the file. *)
Fixpoint load_lines (lines : list ustr) (start_ end_ : Z)
    (raw_data : list (Z * RawRecord)) : result (list (Z * RawRecord)) :=
  match lines with
  | [] => Ok raw_data
  | line0 :: rest =>
    let line := strip line0 in
    if ignored line then load_lines rest start_ end_ raw_data
    else
      let parts := split line (u "|||") in
      if (5 <=? length parts)%nat then
        match py_int (item parts 0) with
        | None => ValueError
        | Some n =>
          if (start_ <=? n)%Z && (n <=? end_)%Z then
            load_lines rest start_ end_
              (dict_set raw_data n
                 {| seq := n; policy_id := item parts 1;
                    coverage_type := item parts 2;
                    coverage_name := item parts 3;
                    clause_text := item parts 4 |})
          else load_lines rest start_ end_ raw_data
        end
      else load_lines rest start_ end_ raw_data
  end.

(** [load_raw_data], on the lines of an existing file. *)
Definition load_raw_data (lines : list ustr) (start_ end_ : Z)
  : result (list (Z * RawRecord)) :=
  load_lines lines start_ end_ [].

End GenerateBatch.

(* ================================================================== *)
(** * scripts/parse-coverages-direct.py *)
(* ================================================================== *)

Module ParseCoveragesDirect.
Import Text Regex.

(** [parse_waiting_period_status] *)
Definition parse_waiting_period_status (clause_text : ustr) : ustr :=
  if contains (u "等待期内") clause_text || contains (u "观察期内") clause_text
  then u "during"
  else if contains (u "等待期后") clause_text
          || contains (u "等待期满后") clause_text
          || contains (u "意外") clause_text
          || contains (u "意外伤害") clause_text
  then u "after"
  else u "after".

(** The object an [age_condition] string encodes (the JSON text
    [parse_age_condition] writes), taken decoded. *)
Record AgeObj : Type := {
  limit : Z;
  operator : ustr;
  type : option ustr
}.

(** The object a [policy_year_range] string encodes, taken decoded. *)
Record YearObj : Type := {
  start : option Z;
  end_ : option Z
}.

Definition nonzero (o : option Z) : bool :=
  match o with
  | Some v => negb (v =? 0)%Z
  | None => false
  end.

Definition get_Z (o : option Z) : Z :=
  match o with
  | Some v => v
  | None => 0%Z
  end.

(** ×\s*(\d+(?:\.\d+)?%?) *)
Definition times_pattern : regex :=
  cat [L "×"; star Space; Grp 1 (Seq decimal (Opt (L "%")))].

(** [desc_parts] of [generate_natural_language_description]. *)
Definition desc_parts (clause_text waiting_period formula : ustr)
    (age_condition : option AgeObj) (policy_year_range : option YearObj)
  : list ustr :=
  (* waiting period *)
  (if ustr_eqb waiting_period (u "after") then [u "等待期后"]
   else if ustr_eqb waiting_period (u "during") then [u "等待期内"]
   else [])
  (* kind of illness *)
  ++ (if contains (u "重大疾病") clause_text then [u "确诊重大疾病"]
      else if contains (u "中症疾病") clause_text
              || contains (u "中度疾病") clause_text
      then [u "确诊中症疾病"]
      else if contains (u "轻症疾病") clause_text
              || contains (u "轻度疾病") clause_text
      then [u "确诊轻症疾病"]
      else if contains (u "恶性肿瘤") clause_text then [u "确诊恶性肿瘤"]
      else if contains (u "特定疾病") clause_text then [u "确诊特定疾病"]
      else [u "确诊"])
  (* age condition *)
  ++ (match age_condition with
      | Some age_obj =>
        let age_type :=
          match type age_obj with
          | Some t => t
          | None => u "确诊时"
          end in
        if ustr_eqb (operator age_obj) (u "<") then
          [age_type ++ u "未满" ++ str_of_Z (limit age_obj) ++ u "周岁"]
        else if ustr_eqb (operator age_obj) (u ">=") then
          [age_type ++ u "满" ++ str_of_Z (limit age_obj) ++ u "周岁"]
        else []
      | None => []
      end)
  (* policy years *)
  ++ (match policy_year_range with
      | Some year_obj =>
        if nonzero (end_ year_obj) then
          [u "且第" ++ str_of_Z (get_Z (end_ year_obj) + 1)
             ++ u "个保单周年日前"]
        else if nonzero (start year_obj) then
          [u "且第" ++ str_of_Z (get_Z (start year_obj))
             ++ u "个保单周年日后"]
        else []
      | None => []
      end)
  (* formula *)
  ++ (match formula with
      | [] => []
      | _ :: _ =>
        if contains (u "已交保费") formula then [u "，按已交保费给付"]
        else if contains (u "×") formula then
          match search times_pattern formula with
          | Some m => [u "，按投保金额×" ++ group_text m 1 ++ u "给付"]
          | None => [u "，按投保金额给付"]
          end
        else [u "，按投保金额给付"]
      end).

(** [generate_natural_language_description] *)
Definition generate_natural_language_description
    (clause_text waiting_period formula : ustr)
    (age_condition : option AgeObj) (policy_year_range : option YearObj)
  : ustr :=
  let desc :=
    concat (desc_parts clause_text waiting_period formula
                       age_condition policy_year_range) in
  if (50 <? length desc)%nat then slice_to desc 47 ++ u "..."
  else desc.

(** A record of [parse_md_file]. *)
Record Record_ : Type := {
  serialNumber : Z;
  policyDocumentId : ustr;
  coverageType : ustr;
  coverageName : ustr;
  clauseText : ustr
}.

Definition item (l : list ustr) (i : nat) : ustr := nth i l [].

(** The body of the loop of [parse_md_file]: the record of a line, or
    nothing for a line that is passed over. *)
Definition parse_md_line (line0 : ustr) : list Record_ :=
  let line := strip line0 in
  if ustr_eqb line (u "```") || startswith line (u "#") then []
  else match line with
  | [] => []
  | _ :: _ =>
    if negb (contains (u "|||") line) then []
    else
      let parts := split line (u "|||") in
      if (length parts <? 5)%nat then []
      else
        let cleaned_parts := map strip parts in
        match py_int (item cleaned_parts 0) with
        | None => []               (* except ValueError: continue *)
        | Some num =>
          if (num <=? 0)%Z then []
          else [ {| serialNumber := num;
                    policyDocumentId := item cleaned_parts 1;
                    coverageType := item cleaned_parts 2;
                    coverageName := item cleaned_parts 3;
                    clauseText := item cleaned_parts 4 |} ]
        end
  end.

(** [parse_md_file], on the text of the file. *)
Definition parse_md_file (content : ustr) : list Record_ :=
  flat_map parse_md_line (split content [10%N]).

(** The loop of [main] over the records: those whose number the CSV file
    does not have yet; these are the records it goes on to parse. *)
Definition new_records (existing_serial_numbers : list Z)
    (records : list Record_) : list Record_ :=
  filter
    (fun record =>
       negb (existsb (Z.eqb (serialNumber record)) existing_serial_numbers))
    records.

End ParseCoveragesDirect.

(* ================================================================== *)
(** * tools/utils/validators.py: the formula *)
(* ================================================================== *)

Module FormulaValidator.
Import Text Regex Validators.

Definition invalid_chars : list ustr := [u "、"; u "，"; u "。"; u "；"].

(** The shapes a formula may show. *)
Definition valid_patterns : list regex :=
  [ L "基本保额";
    L "已交保费";
    cat [decimal; star Space; L "%"];
    set "+-*/()";
    set "xX×" ].

(** The [for char in invalid_chars] loop: the message for the first
    character found. *)
Fixpoint first_invalid (chars : list ustr) (formula : ustr) : option ustr :=
  match chars with
  | [] => None
  | ch :: rest =>
    if contains ch formula then Some (u "公式包含无效字符: " ++ ch)
    else first_invalid rest formula
  end.

(** [validate_formula]: [(is_valid, error_msg)]. *)
Definition validate_formula (formula : ustr) : bool * ustr :=
  match formula with
  | [] => (false, u "公式为空")
  | _ :: _ =>
    match first_invalid invalid_chars formula with
    | Some msg => (false, msg)
    | None =>
      let formula_clean := replace formula (u " ") [] in
      if existsb (fun p => found p formula_clean) valid_patterns
      then (true, [])
      else (false, u "公式格式不符合规范")
    end
  end.

End FormulaValidator.

(* ================================================================== *)
(** * tools/1_generate_batch.py: the manual template *)
(* ================================================================== *)

Module ManualTemplate.
Import Text GenerateBatch.

(** The stage of the template. *)
Record TemplateStage : Type := {
  stageNumber : Z;
  period : ustr;
  waitingPeriodStatus : ustr;
  formula : ustr;
  note : ustr
}.

(** A case of the template: 序号, 保单ID号, 责任类型, 责任名称, 责任原文,
    payoutAmount. *)
Record TemplateCase : Type := {
  case_seq : Z;
  case_policy_id : ustr;
  case_coverage_type : ustr;
  case_coverage_name : ustr;
  case_clause_text : ustr;
  payoutAmount : list TemplateStage
}.

(** [sorted(raw_data.items())]: by key (the keys of a dictionary are
    distinct). *)
Fixpoint insert_item (x : Z * RawRecord) (l : list (Z * RawRecord))
  : list (Z * RawRecord) :=
  match l with
  | [] => [x]
  | y :: l' =>
    if (fst x <=? fst y)%Z then x :: l else y :: insert_item x l'
  end.

Fixpoint sorted_items (d : list (Z * RawRecord)) : list (Z * RawRecord) :=
  match d with
  | [] => []
  | x :: d' => insert_item x (sorted_items d')
  end.

Definition template_stage : TemplateStage :=
  {| stageNumber := 1;
     period := u "TODO: 填写阶段描述";
     waitingPeriodStatus := u "TODO: after/during/无";
     formula := u "TODO: 填写公式，如 基本保额 * 100%";
     note := u "TODO: 填写备注（如有）" |}.

(** [generate_manual] *)
Definition generate_manual (raw_data : list (Z * RawRecord))
  : list TemplateCase :=
  map (fun item =>
         let data := snd item in
         {| case_seq := seq data;
            case_policy_id := policy_id data;
            case_coverage_type := coverage_type data;
            case_coverage_name := coverage_name data;
            case_clause_text := clause_text data;
            payoutAmount := [template_stage] |})
      (sorted_items raw_data).

End ManualTemplate.

(* ================================================================== *)
(** * Vocabulary of the properties *)
(* ================================================================== *)

(** Names for the conditions and intermediate values the statements
    below speak about. *)
Module Vocabulary.
Import Text.

(** The test [parse_waiting_period_status] makes first. *)
Definition during_marked (clause_text : ustr) : bool :=
  contains (u "等待期内") clause_text || contains (u "观察期内") clause_text.

(** The description before the cap is applied: [desc_parts] joined. *)
Definition synthesized (clause_text waiting_period formula : ustr)
    (age_condition : option ParseCoveragesDirect.AgeObj)
    (policy_year_range : option ParseCoveragesDirect.YearObj) : ustr :=
  concat (ParseCoveragesDirect.desc_parts clause_text waiting_period formula
            age_condition policy_year_range).

(** The clause of the running example: a return of premiums during the
    waiting period, the sum insured after it, an age condition. *)
Definition split_clause : ustr :=
  u "等待期内确诊，退还已交保费；等待期后未满18周岁确诊，按基本保额给付".

(** The same wording with a reference to a table. *)
Definition table_clause : ustr :=
  u "等待期内确诊，退还已交保费；等待期后按下表比例给付".




(** What [fix_formula_format] does to a non-empty formula. *)
Definition normalize_formula (f : ustr) : ustr :=
  join (u " ") (words (Fixers.unify_times (Fixers.strip_invalid f))).



(** The pass over the stage notes: the merge of [fix_case], then the
    deletion of [remove_stage_level_note] on every stage. *)
Definition stage_note_pass (case : Corpus.Case) : Corpus.Case :=
  let case1 := fst (FixAllIssues.fix_case case) in
  match Corpus.payoutAmount case1 with
  | Some stages =>
    Corpus.set_payoutAmount case1
      (Some (map (fun st => fst (Fixers.remove_stage_level_note st)) stages))
  | None => case1
  end.

(** The parts [fix_case] keeps of the note of a stage. *)
Definition kept_parts (st : Corpus.Stage) : list ustr :=
  match Corpus.note st with
  | Some n => FixAllIssues.filtered_parts n
  | None => []
  end.

(** A stage that has only a note, and a case made of such stages. *)
Definition noted_stage (n : ustr) : Corpus.Stage :=
  {| Corpus.stageNumber := Some 1%Z; Corpus.period := None;
     Corpus.waitingPeriodStatus := None;
     Corpus.paymentPeriodStatus := None;
     Corpus.formula := None; Corpus.naturalLanguageDescription := None;
     Corpus.ageConditions := None; Corpus.policyYearRange := None;
     Corpus.continuousPayment := None; Corpus.note := Some n |}.

Definition noted_case (notes : list ustr) : Corpus.Case :=
  {| Corpus.seq := 1%Z; Corpus.name := u "重大疾病保险金";
     Corpus.clause := None; Corpus.case_note := None;
     Corpus.case_description := None;
     Corpus.payoutAmount := Some (map noted_stage notes) |}.

(** The Chinese digits 零 一 ... 九, and the usual writing of the
    numbers 0 to 100: a digit, 十, 十X, X十, X十Y, 一百. *)
Definition cn_digits : ustr := u "零一二三四五六七八九".

Definition digit_char (d : nat) : ustr :=
  match nth_error cn_digits d with
  | Some c => [c]
  | None => []
  end.

Definition numeral (n : nat) : ustr :=
  if (n <? 10)%nat then digit_char n
  else if (n =? 10)%nat then u "十"
  else if (n <? 20)%nat then u "十" ++ digit_char (n - 10)
  else if (n <? 100)%nat then
    digit_char (n / 10) ++ u "十"
    ++ (if (n mod 10 =? 0)%nat then [] else digit_char (n mod 10))
  else u "一百".

(** The check of the numerals of 0..100, one by one. *)
Definition numerals_ok : bool :=
  forallb (fun n => match Batch14Complex.chinese_to_num (numeral n) with
                    | Some v => (v =? Z.of_nat n)%Z
                    | None => false
                    end) (seq 0 101).

(** The token is the numeral of no number of 0..100. *)
Definition not_a_numeral (t : ustr) : bool :=
  forallb (fun n => negb (ustr_eqb t (numeral n))) (seq 0 101).

(** Two lines of a raw-clause file: one whose first field is not a
    number, one that is well formed. *)
Definition bad_line : ustr :=
  u "abc|||P001|||疾病责任|||重大疾病保险金|||等待期后确诊，按基本保额给付".

Definition good_line : ustr :=
  u "3001|||P001|||疾病责任|||轻症疾病保险金|||等待期后确诊，按基本保额的30%给付".

Definition short_line : ustr := u "3002|||P001|||疾病责任".

(** Two more well-formed lines, for a file that is not in order. *)
Definition line_3005 : ustr :=
  u "3005|||P002|||疾病责任|||中症疾病保险金|||按基本保额的60%给付".

Definition line_3003 : ustr :=
  u "3003|||P002|||身故责任|||身故保险金|||按已交保费给付".

(** The order of a corpus: by sequence number. *)
Definition by_seq (a b : Batch14Final.Case) : Prop :=
  (Batch14Final.seq a <= Batch14Final.seq b)%Z.

(** A corpus with the case 2601, and a raw-clause file with a line for
    2601 again and a line for 2600. *)
Definition corpus_2601 : list Batch14Final.Case :=
  [ Batch14Final.parse_remaining_case 2601 (u "P014") (u "疾病责任")
      (u "重大疾病保险金") (u "等待期后确诊，按基本保额给付") ].

Definition line_2601 : ustr :=
  u "2601|||P014|||疾病责任|||重大疾病保险金|||按基本保额的50%给付".

Definition line_2600 : ustr :=
  u "2600|||P014|||疾病责任|||轻症疾病保险金|||按基本保额的30%给付".



(** A case whose clause caps the payouts at 3 and whose note states the
    number without the word 累计. *)
Definition capped_case : Corpus.Case :=
  {| Corpus.seq := 12%Z; Corpus.name := u "轻症疾病保险金";
     Corpus.clause := Some (u "轻症疾病保险金累计给付以3次为限");
     Corpus.case_note := Some (u "最多赔3次");
     Corpus.case_description := None; Corpus.payoutAmount := Some [] |}.

(** A stage paid in 3 yearly instalments of 50% of the sum insured,
    described without the instalments and without the ratio, and its
    case. *)
Definition annuity_stage : Corpus.Stage :=
  {| Corpus.stageNumber := Some 1%Z;
     Corpus.period := Some (u "等待期后");
     Corpus.waitingPeriodStatus := Some (u "after");
     Corpus.paymentPeriodStatus := None;
     Corpus.formula := Some (u "基本保额 * 50%");
     Corpus.naturalLanguageDescription :=
       Some (u "等待期后确诊，按基本保额赔付");
     Corpus.ageConditions := None;
     Corpus.policyYearRange := None;
     Corpus.continuousPayment :=
       Some {| Corpus.cp_type := u "fixed_count";
               Corpus.totalCount := Some 3%Z;
               Corpus.frequency := Some (u "年") |};
     Corpus.note := None |}.

Definition annuity_case : Corpus.Case :=
  {| Corpus.seq := 7%Z; Corpus.name := u "恶性肿瘤关爱金";
     Corpus.clause := Some (u "确诊后每年给付基本保额的50%，共给付3次");
     Corpus.case_note := None; Corpus.case_description := None;
     Corpus.payoutAmount := Some [annuity_stage] |}.

(** The order [apply_fixes] handles the findings in: by severity. *)
Definition by_rank (i j : Reviewer.Issue) : Prop :=
  (Reviewer.severity_rank (Reviewer.severity i)
   <= Reviewer.severity_rank (Reviewer.severity j))%Z.

(** What the repairs of [apply_fixes] are not meant to touch: a stage
    without its note, description, payment-period status and frequency,
    a case without its note. *)
Definition stage_skeleton (st : Corpus.Stage) : Corpus.Stage :=
  {| Corpus.stageNumber := Corpus.stageNumber st;
     Corpus.period := Corpus.period st;
     Corpus.waitingPeriodStatus := Corpus.waitingPeriodStatus st;
     Corpus.paymentPeriodStatus := None;
     Corpus.formula := Corpus.formula st;
     Corpus.naturalLanguageDescription := None;
     Corpus.ageConditions := Corpus.ageConditions st;
     Corpus.policyYearRange := Corpus.policyYearRange st;
     Corpus.continuousPayment :=
       option_map (fun cp => Corpus.set_frequency cp None)
                  (Corpus.continuousPayment st);
     Corpus.note := None |}.

Definition case_skeleton (c : Corpus.Case) : Corpus.Case :=
  {| Corpus.seq := Corpus.seq c; Corpus.name := Corpus.name c;
     Corpus.clause := Corpus.clause c; Corpus.case_note := None;
     Corpus.case_description := Corpus.case_description c;
     Corpus.payoutAmount :=
       option_map (map stage_skeleton) (Corpus.payoutAmount c) |}.

(** The marker of a payment-period status in a description. *)
Definition payment_marker (payment_status : ustr) : ustr :=
  if ustr_eqb payment_status (u "during") then u "交费期内" else u "交费期满".

(** A case whose clause ends the contract after the payout, with a note
    about something else. *)
Definition terminating_case : Corpus.Case :=
  {| Corpus.seq := 21%Z; Corpus.name := u "身故保险金";
     Corpus.clause := Some (u "我们按基本保额给付身故保险金，本合同终止");
     Corpus.case_note := Some (u "需间隔180天");
     Corpus.case_description := None; Corpus.payoutAmount := Some [] |}.

(** A case whose clause caps the payouts at 3 and which has no note. *)
Definition uncapped_case : Corpus.Case :=
  {| Corpus.seq := 13%Z; Corpus.name := u "轻症疾病保险金";
     Corpus.clause := Some (u "轻症疾病保险金累计给付以3次为限");
     Corpus.case_note := None;
     Corpus.case_description := None; Corpus.payoutAmount := Some [] |}.

End Vocabulary.

(* ================================================================== *)
(** * Forms and invariants the statements use *)
(* ================================================================== *)

Module RepairTerms.
Import Text Corpus.

(** A stage as [fix_case] leaves it: no note, and a frequency in its
    continuousPayment when it has one. *)
Definition settled (st : Stage) : Prop :=
  note st = None
  /\ match continuousPayment st with
     | Some cp => frequency cp <> None
     | None => True
     end.

(** The labels [fix_description_completeness] puts in front: waiting
    period and payment period (the age and policy-year phrases come
    between them). *)
Definition waiting_label (stage : Stage) : list ustr :=
  if ustr_eqb (get_str (waitingPeriodStatus stage)) (u "during")
  then [u "等待期内"]
  else if ustr_eqb (get_str (waitingPeriodStatus stage)) (u "after")
  then [u "等待期后"]
  else [].

Definition payment_label (stage : Stage) : list ustr :=
  if ustr_eqb (get_str (paymentPeriodStatus stage)) (u "during")
  then [u "交费期内"]
  else if ustr_eqb (get_str (paymentPeriodStatus stage)) (u "after")
  then [u "交费期满后"]
  else [].

(** The end of a repaired description, after the payout phrase. *)
Definition continuous_suffix (stage : Stage) : ustr :=
  match continuousPayment stage with
  | Some cp =>
    if ustr_eqb (cp_type cp) (u "fixed_count")
    then u "（分" ++ fmt (totalCount cp) ++ u "次）"
    else if ustr_eqb (cp_type cp) (u "until_termination")
    then u "，持续给付至合同终止"
    else []
  | None => []
  end.

(** A stage with a continuous payment of a type the frequency repair
    does not know, and no frequency. *)
Definition lifelong_stage : Corpus.Stage :=
  Corpus.set_continuousPayment Vocabulary.annuity_stage
    (Some {| Corpus.cp_type := u "lifelong";
             Corpus.totalCount := None;
             Corpus.frequency := None |}).

End RepairTerms.

Module ExtractionTerms.
Import Text Regex Batch14Complex.

(** The characters of the group [一二三四五六七八九十]+. *)
Definition cn_chars : ustr := u "一二三四五六七八九十".

(** The key [extract_age_conditions] files a condition under. *)
Definition age_key (c : AgeCondition) : ustr :=
  match maxAge c with
  | Some b => u "range_" ++ fmt_opt (age c) ++ u "_" ++ str_of_Z b
  | None => ageType c ++ u "_" ++ operator c ++ u "_" ++ fmt_opt (age c)
  end.

(** The invariant of the loops of [extract_age_conditions]: [seen] holds
    the keys of the conditions, each once; a condition that is not a
    range has an age. *)
Definition age_state_ok (st : age_state) : Prop :=
  map age_key (fst st) = rev (snd st)
  /\ NoDup (snd st)
  /\ Forall (fun c => maxAge c = None -> age c <> None) (fst st).

(** The characters a pattern can consume. *)
Fixpoint alphabet (r : regex) (x : N) : bool :=
  match r with
  | Lit l => existsb (N.eqb x) l
  | Rep c _ _ _ => cls_match c x
  | Seq r1 r2 => alphabet r1 x || alphabet r2 x
  | Alt r1 r2 => alphabet r1 x || alphabet r2 x
  | Opt r1 => alphabet r1 x
  | Grp _ r1 => alphabet r1 x
  end.

Definition written_in (r : regex) (s : ustr) : Prop :=
  Forall (fun x => alphabet r x = true) s.

Definition percent_pattern : regex := cat [Grp 1 decimal; L "%"].

End ExtractionTerms.

Module LoaderTerms.
Import Text GenerateBatch.

(** The invariant of the dictionary [load_raw_data] builds: distinct
    keys, each within the range asked for, each the number of its
    record. *)
Definition raw_data_ok (start_ end_ : Z) (d : list (Z * RawRecord)) : Prop :=
  NoDup (map fst d)
  /\ Forall (fun kv => (start_ <= fst kv <= end_)%Z /\ seq (snd kv) = fst kv)
            d.

End LoaderTerms.

(* ================================================================== *)
(** * Facts about strings *)
(* ================================================================== *)

Module TextFacts.
Import Text.

Lemma ustr_eqb_eq (a b : ustr) : ustr_eqb a b = true <-> a = b.
Proof.
  unfold ustr_eqb. destruct (list_eq_dec N.eq_dec a b); split; congruence.
Qed.

Lemma ustr_eqb_refl (a : ustr) : ustr_eqb a a = true.
Proof. now apply ustr_eqb_eq. Qed.

Lemma ustr_eqb_neq (a b : ustr) : ustr_eqb a b = false <-> a <> b.
Proof.
  unfold ustr_eqb. destruct (list_eq_dec N.eq_dec a b); split; congruence.
Qed.

Lemma startswith_spec (s p : ustr) :
  startswith s p = true <-> exists r, s = p ++ r.
Proof.
  revert s. induction p as [|a p IH]; intros s; simpl.
  - split; [intros _; now exists s | reflexivity].
  - destruct s as [|b s].
    + split; [discriminate | intros [r Hr]; discriminate].
    + rewrite andb_true_iff, N.eqb_eq, IH. split.
      * intros [-> [r ->]]. now exists r.
      * intros [r Hr]. injection Hr as -> ->. split; [reflexivity | now exists r].
Qed.

Lemma startswith_app (p r : ustr) : startswith (p ++ r) p = true.
Proof. apply startswith_spec. now exists r. Qed.

Lemma contains_spec (sub s : ustr) :
  contains sub s = true <-> exists a b, s = a ++ sub ++ b.
Proof.
  induction s as [|c s IH]; simpl.
  - rewrite orb_false_r, startswith_spec. split.
    + intros [r Hr]. now exists [], r.
    + intros [a [b H]]. destruct a; simpl in H.
      * now exists b.
      * discriminate.
  - rewrite orb_true_iff, startswith_spec, IH. split.
    + intros [[r Hr] | [a [b H]]].
      * now exists [], r.
      * exists (c :: a), b. simpl. now rewrite H.
    + intros [a [b H]]. destruct a as [|c' a]; simpl in H.
      * left. now exists b.
      * right. injection H as _ H. now exists a, b.
Qed.

Lemma contains_intro (sub a b : ustr) : contains sub (a ++ sub ++ b) = true.
Proof. apply contains_spec. now exists a, b. Qed.

Lemma contains_app_r (sub a s : ustr) :
  contains sub s = true -> contains sub (a ++ s) = true.
Proof.
  rewrite !contains_spec. intros [x [y ->]].
  exists (a ++ x), y. now rewrite <- app_assoc.
Qed.

Lemma contains_app_l (sub s b : ustr) :
  contains sub s = true -> contains sub (s ++ b) = true.
Proof.
  rewrite !contains_spec. intros [x [y ->]].
  exists x, (y ++ b). now rewrite <- !app_assoc.
Qed.

Lemma contains_self (s : ustr) : contains s s = true.
Proof. apply contains_spec. exists [], []. now rewrite app_nil_r. Qed.

(** A member of a joined list occurs in the joined text. *)
Lemma contains_join (sep x : ustr) (l : list ustr) :
  In x l -> contains x (join sep l) = true.
Proof.
  induction l as [|y l IH]; [easy|].
  intros [-> | Hin]; simpl; destruct l as [|z l].
  - apply contains_self.
  - apply contains_app_l, contains_self.
  - destruct Hin.
  - apply contains_app_r, contains_app_r, IH, Hin.
Qed.

(** Replacing a character that does not occur changes nothing; replacing
    one character is a map over the characters. *)
Lemma replace_char (s : ustr) (a : N) (b : ustr) :
  replace s [a] b = flat_map (fun c => if (a =? c)%N then b else [c]) s.
Proof.
  unfold replace. induction s as [|c s IH]; [reflexivity|].
  simpl. rewrite andb_true_r. destruct (a =? c)%N; simpl; now rewrite IH.
Qed.



End TextFacts.

(* ================================================================== *)
(** * The extractor of scripts/parse-coverages-direct.py *)
(* ================================================================== *)

Section WaitingPeriodStatus.
Import Text ParseCoveragesDirect Vocabulary.

Lemma during_neq_after : u "during" <> u "after".
Proof. discriminate. Qed.

(** C9.  [parse_waiting_period_status] returns a value for every clause,
    and only ['during'] or ['after']: ['during'] exactly for the clauses
    that contain 等待期内 or 观察期内, ['after'] exactly for all others,
    among them the clauses without any waiting-period phrase and those
    that only mention an accident; both values occur. *)
Theorem parse_waiting_period_status_range :
  (forall clause_text,
      parse_waiting_period_status clause_text = u "during"
      <-> during_marked clause_text = true)
  /\ (forall clause_text,
      parse_waiting_period_status clause_text = u "after"
      <-> during_marked clause_text = false)
  /\ parse_waiting_period_status (u "等待期内确诊") = u "during"
  /\ parse_waiting_period_status (u "") = u "after"
  /\ parse_waiting_period_status (u "因意外伤害导致身故") = u "after".
Proof.
  assert (H : forall t,
             parse_waiting_period_status t
             = if during_marked t then u "during" else u "after").
  { intros t. unfold parse_waiting_period_status, during_marked.
    destruct (contains (u "等待期内") t || contains (u "观察期内") t);
      [reflexivity|].
    now destruct (contains (u "等待期后") t || contains (u "等待期满后") t
                  || contains (u "意外") t || contains (u "意外伤害") t). }
  repeat split; try (intros Hr; rewrite H in *);
    try (rewrite H; destruct (during_marked clause_text));
    try reflexivity; try discriminate.
  - destruct (during_marked clause_text); [reflexivity | discriminate].
  - now rewrite Hr.
  - destruct (during_marked clause_text); [discriminate | reflexivity].
  - now rewrite Hr.
Qed.

End WaitingPeriodStatus.

Section DescriptionLength.
Import Text ParseCoveragesDirect Vocabulary.

(** C8.  [generate_natural_language_description] returns at most 50
    characters: a synthesized description of at most 50 characters is
    returned as it is, a longer one is cut to its first 47 characters
    followed by ['...'], which makes 50. *)
Theorem generate_natural_language_description_capped :
  forall clause_text waiting_period formula age_condition policy_year_range,
    let desc := synthesized clause_text waiting_period formula
                            age_condition policy_year_range in
    let out := generate_natural_language_description
                 clause_text waiting_period formula
                 age_condition policy_year_range in
    length out <= 50
    /\ ((length desc <= 50 /\ out = desc)
        \/ (50 < length desc /\ out = firstn 47 desc ++ u "..."
            /\ length out = 50)).
Proof.
  intros ct wp f ac pyr desc out.
  unfold out, generate_natural_language_description. fold (synthesized ct wp f ac pyr).
  fold desc. destruct (Nat.ltb_spec 50 (length desc)) as [Hlt|Hge].
  - assert (Hlen : length (slice_to desc 47 ++ u "...") = 50).
    { unfold slice_to. rewrite length_app, firstn_length_le by lia.
      reflexivity. }
    split; [lia|]. right. repeat split; assumption.
  - split; [lia|]. left. split; [lia | reflexivity].
Qed.

(** A description that is cut: 58 characters are synthesized. *)
Example long_description_is_cut :
  let age := {| limit := 18; operator := u "<"; type := Some (u "投保时") |} in
  let years := {| start := Some 1%Z; end_ := Some 10%Z |} in
  length (synthesized (u "重大疾病") (u "after")
                      (u "投保金额×1234567890123456.5%")
                      (Some age) (Some years)) = 58
  /\ generate_natural_language_description
       (u "重大疾病") (u "after") (u "投保金额×1234567890123456.5%")
       (Some age) (Some years)
     = u "等待期后确诊重大疾病投保时未满18周岁且第11个保单周年日前，按投保金额×1234567890...".
Proof. vm_compute. split; reflexivity. Qed.

End DescriptionLength.

(* ================================================================== *)
(** * The waiting-period split of generate_batch14_final.py *)
(* ================================================================== *)

Section WaitingSplit.
Import Text Batch14Complex Batch14Final Vocabulary.

(** C1, as stated, fails: a clause with premium-return wording and a
    waiting-period marker that also refers to a table gives one stage,
    with the table formula. *)
Lemma waiting_split_not_for_tables :
  ~ (forall seq0 code0 category0 name0 text,
        has_premium text = true -> has_waiting text = true ->
        length (payoutAmount
                  (parse_remaining_case seq0 code0 category0 name0 text))
        = 2).
Proof.
  intros H.
  specialize (H 2700%Z [] [] [] table_clause eq_refl eq_refl).
  vm_compute in H. discriminate.
Qed.

(** C1, amended.  For a clause with premium-return wording and a
    waiting-period marker that refers to no table, the case has exactly
    two stages: stage 1 is the waiting-period stage, with formula
    已交保费 and no age condition, policy-year range, payment-period
    status or note; stage 2 is the stage after the waiting period, with
    formula 基本保额 * 100%, and it carries the age conditions and the
    policy-year range extracted from the clause. *)
Theorem waiting_split_two_stages :
  forall seq0 code0 category0 name0 text,
    has_table text = false ->
    has_premium text = true ->
    has_waiting text = true ->
    exists s1 s2,
      payoutAmount (parse_remaining_case seq0 code0 category0 name0 text)
      = [s1; s2]
      /\ stageNumber s1 = 1%Z /\ period s1 = u "等待期内"
      /\ formula s1 = u "已交保费"
      /\ ageConditions s1 = None /\ policyYearRange s1 = None
      /\ paymentPeriodStatus s1 = None /\ note s1 = None
      /\ stageNumber s2 = 2%Z /\ period s2 = u "等待期后"
      /\ formula s2 = u "基本保额 * 100%"
      /\ ageConditions s2 = extract_age_conditions text
      /\ policyYearRange s2 = extract_policy_year_range text.
Proof.
  intros seq0 code0 category0 name0 text Ht Hp Hw.
  unfold parse_remaining_case. rewrite Ht, Hp, Hw.
  unfold waiting_split_case. cbn [payoutAmount].
  eexists; eexists. split; [reflexivity|].
  cbn [stageNumber period formula ageConditions policyYearRange
       paymentPeriodStatus note].
  repeat split; reflexivity.
Qed.

(** The theorem on the running example: the age condition 未满18周岁 is
    on stage 2 only. *)
Lemma waiting_split_two_stages_witness :
  exists s1 s2,
    payoutAmount (parse_remaining_case 2700%Z [] [] [] split_clause)
    = [s1; s2]
    /\ formula s1 = u "已交保费" /\ ageConditions s1 = None
    /\ formula s2 = u "基本保额 * 100%"
    /\ ageConditions s2
       = Some [ {| ageType := u "确诊时"; operator := u "<";
                   age := Some 18%Z; maxAge := None |} ].
Proof.
  destruct (@waiting_split_two_stages 2700%Z [] [] [] split_clause
              eq_refl eq_refl eq_refl)
    as [s1 [s2 [H [_ [_ [F1 [A1 [_ [_ [_ [_ [_ [F2 [A2 _]]]]]]]]]]]]]].
  exists s1, s2. repeat split; assumption.
Defined.

End WaitingSplit.

(* ================================================================== *)
(** * The repairs of tools/utils/fixers.py *)
(* ================================================================== *)

Section WhiteSpace.
Import Text TextFacts Vocabulary.









End WhiteSpace.

Section FormulaFormat.
Import Text TextFacts Corpus Fixers Vocabulary.














(** The normal form on an example: punctuation removed, the three
    multiplication signs rewritten, the white space collapsed. *)
Example fix_formula_format_example :
  normalize_formula (u "基本保额  ×  50%，  加 已交保费 x 2 。")
  = u "基本保额 * 50% 加 已交保费 * 2".
Proof. vm_compute. reflexivity. Qed.

End FormulaFormat.

(* ================================================================== *)
(** * The stage notes (解析结果/fix_all_issues.py) *)
(* ================================================================== *)

Section StageNotes.
Import Text TextFacts Corpus FixAllIssues Vocabulary.

Lemma fix_stage_note (st : Stage) : note (fst (fst (fix_stage st))) = None.
Proof.
  unfold fix_stage. destruct (note st) eqn:Hn.
  - destruct (continuousPayment (set_note st None)) as [cp|];
      [destruct (frequency cp)|]; reflexivity.
  - destruct (continuousPayment st) as [cp|];
      [destruct (frequency cp)|]; cbn; assumption.
Qed.

Lemma fix_stage_parts (st : Stage) : snd (fst (fix_stage st)) = kept_parts st.
Proof.
  unfold fix_stage, kept_parts. destruct (note st).
  - destruct (continuousPayment (set_note st None)) as [cp|];
      [destruct (frequency cp)|]; reflexivity.
  - destruct (continuousPayment st) as [cp|];
      [destruct (frequency cp)|]; reflexivity.
Qed.

Lemma fix_stages_spec (stages : list Stage) :
  Forall (fun st => note st = None) (fst (fst (fix_stages stages)))
  /\ snd (fst (fix_stages stages)) = flat_map kept_parts stages.
Proof.
  induction stages as [|st rest [IH1 IH2]]; [split; [constructor | reflexivity]|].
  simpl. pose proof (fix_stage_note st) as Hn.
  pose proof (fix_stage_parts st) as Hp.
  destruct (fix_stage st) as [[st' parts] f1].
  destruct (fix_stages rest) as [[rest' all_notes] f2].
  cbn in *. split; [now constructor | now rewrite Hp, IH2].
Qed.

Lemma existsb_ustr_eqb (x : ustr) (l : list ustr) :
  existsb (ustr_eqb x) l = true <-> In x l.
Proof.
  rewrite existsb_exists. split.
  - intros [y [Hy He]]. apply ustr_eqb_eq in He. now subst.
  - intros H. exists x. split; [assumption | apply ustr_eqb_refl].
Qed.

Lemma unique_from_In (seen l : list ustr) (x : ustr) :
  In x (unique_from seen l) <-> In x l /\ ~ In x seen.
Proof.
  revert seen. induction l as [|y l IH]; intros seen; simpl; [tauto|].
  destruct (existsb (ustr_eqb y) seen) eqn:He.
  - apply existsb_ustr_eqb in He. rewrite IH. split.
    + intros [H1 H2]. auto.
    + intros [[-> | H1] H2]; [contradiction | auto].
  - assert (Hn : ~ In y seen).
    { intros H. apply existsb_ustr_eqb in H. congruence. }
    simpl. rewrite IH. simpl. split.
    + intros [<- | [H1 H2]]; [auto|]. split; [auto | tauto].
    + intros [[<- | H1] H2]; [auto|].
      destruct (list_eq_dec N.eq_dec y x) as [->|Hne]; [auto|].
      right. split; [assumption|]. intros [H | H]; auto.
Qed.

Lemma unique_from_NoDup (seen l : list ustr) : NoDup (unique_from seen l).
Proof.
  revert seen. induction l as [|y l IH]; intros seen; simpl; [constructor|].
  destruct (existsb (ustr_eqb y) seen); [apply IH|].
  constructor; [|apply IH].
  rewrite unique_from_In. intros [_ H]. apply H. now left.
Qed.

Lemma remove_stage_level_note_clears (st : Stage) :
  note (fst (Fixers.remove_stage_level_note st)) = None.
Proof.
  unfold Fixers.remove_stage_level_note.
  destruct (note st) eqn:Hn; [reflexivity | assumption].
Qed.

(** What [fix_case] leaves in a case that has stages. *)
Lemma fix_case_spec (case : Case) (stages : list Stage) :
  payoutAmount case = Some stages ->
  let case1 := fst (fix_case case) in
  let kept := unique_notes (flat_map kept_parts stages) in
  payoutAmount case1 = Some (fst (fst (fix_stages stages)))
  /\ case_note case1
     = match kept with
       | [] => case_note case
       | _ :: _ => Some (join (u "；") kept)
       end.
Proof.
  intros Hp case1 kept. subst case1 kept. unfold fix_case. rewrite Hp.
  destruct (fix_stages_spec stages) as [_ Hall].
  destruct (fix_stages stages) as [[stages' all_notes] f2].
  cbn [fst snd] in Hall |- *. subst all_notes.
  destruct (case_description case);
    destruct (unique_notes (flat_map kept_parts stages));
    split; reflexivity.
Qed.

(** C3, as stated, fails: the part 等待期内不给付 of a stage note is in
    the deny list of [fix_case]; after the pass it is in no note. *)
Lemma stage_note_phrase_discarded :
  ~ (forall (case : Case) stages st n phrase,
        payoutAmount case = Some stages ->
        In st stages -> note st = Some n ->
        In phrase (split n (u "；")) ->
        exists merged,
          case_note (stage_note_pass case) = Some merged
          /\ contains phrase merged = true).
Proof.
  intros H.
  destruct (H (noted_case [u "等待期内不给付；限赔1次"]) _
              (noted_stage (u "等待期内不给付；限赔1次")) _
              (u "等待期内不给付") eq_refl (or_introl eq_refl) eq_refl
              (or_introl eq_refl))
    as [merged [Hm Hc]].
  vm_compute in Hm. injection Hm as <-. vm_compute in Hc. discriminate.
Qed.

(** C3, amended.  After the pass no stage of the case has a note.  The
    case-level note retains every distinct phrase of the stage notes
    that passes the filter of [fix_case] (none of the excluded
    wordings, one of the kept wordings), deduplicated: when there is
    such a phrase, the note is a list of distinct parts joined by ；
    that has each of them, and has no phrase of a stage note that the
    filter rejects; when there is none, the case-level note is left as
    it was. *)
Theorem stage_notes_merged :
  forall case : Case,
    (forall st, In st (get_list (payoutAmount (stage_note_pass case))) ->
                note st = None)
    /\ (forall stages,
          payoutAmount case = Some stages ->
          let kept_somewhere part :=
            exists st, In st stages /\ In part (kept_parts st) in
          ((exists part, kept_somewhere part) ->
           exists parts,
             case_note (stage_note_pass case) = Some (join (u "；") parts)
             /\ NoDup parts
             /\ (forall part,
                   kept_somewhere part ->
                   In part parts
                   /\ contains part (join (u "；") parts) = true)
             /\ (forall st n part,
                   In st stages -> note st = Some n ->
                   In part (map strip (split (strip n) (u "；"))) ->
                   keeps part = false ->
                   ~ In part parts))
          /\ ((forall part, ~ kept_somewhere part) ->
              case_note (stage_note_pass case) = case_note case)).
Proof.
  intros case. split.
  - intros st. unfold stage_note_pass.
    destruct (payoutAmount case) as [stages|] eqn:Hp.
    + destruct (fix_case_spec case Hp) as [Hp1 _]. rewrite Hp1.
      cbn [set_payoutAmount payoutAmount get_list].
      rewrite in_map_iff. intros [st0 [<- _]].
      apply remove_stage_level_note_clears.
    + unfold fix_case. rewrite Hp. cbn [fst]. rewrite !Hp.
      cbn [get_list]. intros [].
  - intros stages Hp kept_somewhere.
    destruct (fix_case_spec case Hp) as [Hp1 Hn1].
    set (kept := unique_notes (flat_map kept_parts stages)) in Hn1.
    assert (Hnote : case_note (stage_note_pass case)
                    = match kept with
                      | [] => case_note case
                      | _ :: _ => Some (join (u "；") kept)
                      end).
    { unfold stage_note_pass. rewrite Hp1. exact Hn1. }
    assert (Hkept : forall part, In part kept <-> kept_somewhere part).
    { intros part. unfold kept, unique_notes, kept_somewhere.
      rewrite unique_from_In, in_flat_map. tauto. }
    split.
    + intros [part0 H0]. apply Hkept in H0. exists kept.
      split; [rewrite Hnote; destruct kept; [destruct H0 | reflexivity]|].
      split; [apply unique_from_NoDup|].
      split.
      * intros part Hpart. apply Hkept in Hpart.
        split; [assumption | now apply contains_join].
      * intros st n part Hst Hn Hin Hk Hpk. apply Hkept in Hpk.
        destruct Hpk as [st' [_ Hin']]. unfold kept_parts in Hin'.
        destruct (note st'); [|destruct Hin'].
        unfold filtered_parts in Hin'.
        destruct (strip u0); [destruct Hin'|].
        apply filter_In in Hin'. destruct Hin' as [_ Hk'].
        congruence.
    + intros Hnone. rewrite Hnote.
      destruct kept as [|p ps] eqn:Hk; [reflexivity|].
      exfalso. apply (Hnone p). apply Hkept. now left.
Qed.

(** The theorem on a case with two noted stages: the parts kept are
    限赔1次 and 需间隔180天; 等待期内不给付 and the repetition are gone. *)
Lemma stage_notes_merged_witness :
  let case := noted_case [u "等待期内不给付；限赔1次";
                          u " 限赔1次 ；需间隔180天"] in
  exists parts,
    case_note (stage_note_pass case) = Some (join (u "；") parts)
    /\ NoDup parts
    /\ In (u "限赔1次") parts /\ In (u "需间隔180天") parts
    /\ ~ In (u "等待期内不给付") parts.
Proof.
  intros case.
  destruct (stage_notes_merged case) as [_ H].
  destruct (H _ eq_refl) as [Hsome _].
  destruct Hsome as [parts [Hn [Hd [Hin Hout]]]].
  { exists (u "限赔1次"), (noted_stage (u "等待期内不给付；限赔1次")).
    split; [now left | vm_compute; tauto]. }
  exists parts. split; [exact Hn|]. split; [exact Hd|].
  split; [|split].
  - apply Hin.
    exists (noted_stage (u "等待期内不给付；限赔1次")).
    split; [now left | vm_compute; tauto].
  - apply Hin.
    exists (noted_stage (u " 限赔1次 ；需间隔180天")).
    split; [right; now left | vm_compute; tauto].
  - apply (Hout (noted_stage (u "等待期内不给付；限赔1次"))
                (u "等待期内不给付；限赔1次")).
    + now left.
    + reflexivity.
    + vm_compute. tauto.
    + vm_compute. reflexivity.
Defined.

End StageNotes.

(* ================================================================== *)
(** * The numeral normalizer *)
(* ================================================================== *)

Section Numerals.
Import Text TextFacts Batch14Complex Validators Vocabulary.

Lemma contains_char (a : N) (s : ustr) :
  contains [a] s = true <-> In a s.
Proof.
  rewrite contains_spec. split.
  - intros [x [y ->]]. rewrite in_app_iff. right. now left.
  - intros H. destruct (in_split _ _ H) as [x [y ->]]. now exists x, y.
Qed.

Lemma chinese_to_num_numeral (n : nat) :
  n <= 100 -> chinese_to_num (numeral n) = Some (Z.of_nat n).
Proof.
  intros Hn. assert (H : numerals_ok = true) by (vm_compute; reflexivity).
  unfold numerals_ok in H. rewrite forallb_forall in H.
  specialize (H n). rewrite in_seq in H. specialize (H ltac:(lia)).
  destruct (chinese_to_num (numeral n)); [|discriminate].
  apply Z.eqb_eq in H. now subst.
Qed.

Lemma not_a_numeral_spec (t : ustr) :
  not_a_numeral t = true -> forall n, n <= 100 -> numeral n <> t.
Proof.
  intros Hb n Hn He. unfold not_a_numeral in Hb.
  rewrite forallb_forall in Hb.
  specialize (Hb n). rewrite in_seq in Hb. specialize (Hb ltac:(lia)).
  rewrite <- He, ustr_eqb_refl in Hb. discriminate.
Qed.

(** C4.  The branch of [chinese_to_num] for a token that starts with 十
    has no guard: 十十 and 十两 are the numerals of no number of 0..100
    and get the values 20 and 10, where the branches for X十 and X十Y
    return no value for a first character that is no numeral (两十,
    两十一). *)
Theorem malformed_composite_has_a_value :
  chinese_to_num (u "十十") = Some 20%Z
  /\ chinese_to_num (u "十两") = Some 10%Z
  /\ (forall n, n <= 100 ->
                numeral n <> u "十十" /\ numeral n <> u "十两")
  /\ chinese_to_num (u "两十") = None
  /\ chinese_to_num (u "两十一") = None.
Proof.
  split; [vm_compute; reflexivity|].
  split; [vm_compute; reflexivity|].
  split.
  { intros n Hn. split; apply not_a_numeral_spec;
      (vm_compute; reflexivity) || assumption. }
  split; vm_compute; reflexivity.
Qed.

End Numerals.

(* ================================================================== *)
(** * The loaders of the raw-clause stream *)
(* ================================================================== *)

Section Loaders.
Import Text TextFacts GenerateBatch Vocabulary.

(** A line with fewer than five fields is passed over by
    [load_raw_data]. *)
Lemma load_lines_skips_short (line : ustr) (rest : list ustr)
    (start_ end_ : Z) (raw_data : list (Z * RawRecord)) :
  length (split (strip line) (u "|||")) < 5 ->
  load_lines (line :: rest) start_ end_ raw_data
  = load_lines rest start_ end_ raw_data.
Proof.
  intros H. cbn [load_lines]. destruct (ignored (strip line)); [reflexivity|].
  destruct (Nat.leb_spec 5 (length (split (strip line) (u "|||"))));
    [lia | reflexivity].
Qed.

(** A line with five fields whose first field [int] rejects makes
    [load_raw_data] raise, whatever follows. *)
Lemma load_lines_raises (line : ustr) (rest : list ustr)
    (start_ end_ : Z) (raw_data : list (Z * RawRecord)) :
  ignored (strip line) = false ->
  5 <= length (split (strip line) (u "|||")) ->
  py_int (item (split (strip line) (u "|||")) 0) = None ->
  load_lines (line :: rest) start_ end_ raw_data = ValueError.
Proof.
  intros Hi Hl Hn. cbn [load_lines]. rewrite Hi.
  destruct (Nat.leb_spec 5 (length (split (strip line) (u "|||"))));
    [|lia].
  now rewrite Hn.
Qed.

(** [parse_md_file] passes such a line over: it returns the records of
    the other lines. *)
Lemma parse_md_line_skips (line : ustr) :
  py_int (item (map strip (split (strip line) (u "|||"))) 0) = None ->
  ParseCoveragesDirect.parse_md_line line = [].
Proof.
  intros Hn. unfold ParseCoveragesDirect.parse_md_line.
  remember (strip line) as l eqn:Hl. clear Hl.
  destruct (ustr_eqb l (u "```") || startswith l (u "#")); [reflexivity|].
  destruct l as [|c l]; [reflexivity|].
  destruct (negb (contains (u "|||") (c :: l))); [reflexivity|].
  destruct (length (split (c :: l) (u "|||")) <? 5); [reflexivity|].
  unfold ParseCoveragesDirect.item. unfold item in Hn. now rewrite Hn.
Qed.

(** C7 at a line with five fields and the sequence number abc: the
    ValueError of [int] leaves [load_raw_data], the well-formed line
    that follows is not read and no record is returned; a short line
    is passed over; [parse_md_file] passes both over and returns the
    record of the well-formed line. *)
Theorem load_raw_data_aborts_on_non_numeric :
  load_raw_data [bad_line; good_line] 3001 3200 = ValueError
  /\ load_raw_data [short_line; good_line] 3001 3200
     = load_raw_data [good_line] 3001 3200
  /\ (exists r, load_raw_data [good_line] 3001 3200 = Ok [(3001%Z, r)])
  /\ (exists r,
        ParseCoveragesDirect.parse_md_file
          (bad_line ++ [10%N] ++ short_line ++ [10%N] ++ good_line)
        = [r]
        /\ ParseCoveragesDirect.serialNumber r = 3001%Z).
Proof.
  split; [apply load_lines_raises; vm_compute; (reflexivity || lia)|].
  split; [apply load_lines_skips_short; vm_compute; lia|].
  split; eexists; vm_compute; [reflexivity | split; reflexivity].
Qed.

End Loaders.

(* ================================================================== *)
(** * The merge of two corpus sources *)
(* ================================================================== *)

Section Merge.
Import Text TextFacts Batch14Final Vocabulary.

Lemma insert_by_seq_perm (c : Case) (l : list Case) :
  Permutation (c :: l) (insert_by_seq c l).
Proof.
  induction l as [|d l IH]; simpl; [reflexivity|].
  destruct (seq c <=? seq d)%Z; [reflexivity|].
  rewrite perm_swap. now constructor.
Qed.

Lemma sort_by_seq_perm (l : list Case) : Permutation l (sort_by_seq l).
Proof.
  induction l as [|c l IH]; simpl; [constructor|].
  rewrite <- insert_by_seq_perm. now constructor.
Qed.

Lemma insert_by_seq_hd (c x : Case) (l : list Case) :
  by_seq x c -> HdRel by_seq x l -> HdRel by_seq x (insert_by_seq c l).
Proof.
  intros Hxc Hl. destruct l as [|d l]; simpl; [now constructor|].
  destruct (seq c <=? seq d)%Z; constructor; [assumption|].
  now inversion Hl.
Qed.

Lemma insert_by_seq_sorted (c : Case) (l : list Case) :
  Sorted by_seq l -> Sorted by_seq (insert_by_seq c l).
Proof.
  induction 1 as [|d l Hs IH Hd]; simpl; [repeat constructor|].
  destruct (Z.leb_spec (seq c) (seq d)) as [Hle|Hgt].
  - constructor; [now constructor|]. now constructor.
  - constructor; [assumption|].
    apply insert_by_seq_hd; [unfold by_seq; lia | assumption].
Qed.

Lemma sort_by_seq_sorted (l : list Case) : Sorted by_seq (sort_by_seq l).
Proof.
  induction l as [|c l IH]; simpl; [constructor|].
  now apply insert_by_seq_sorted.
Qed.

Lemma parse_remaining_case_seq (seq0 : Z) (code0 category0 name0 text : ustr) :
  seq (parse_remaining_case seq0 code0 category0 name0 text) = seq0.
Proof.
  unfold parse_remaining_case, single_stage_case, waiting_split_case.
  repeat match goal with
         | |- context [if ?b then _ else _] => destruct b
         | |- context [match Regex.search ?r ?t with _ => _ end] =>
           destruct (Regex.search r t)
         end; reflexivity.
Qed.

Lemma existsb_Zeqb (x : Z) (l : list Z) :
  existsb (Z.eqb x) l = true <-> In x l.
Proof.
  rewrite existsb_exists. split.
  - intros [y [Hy He]]. apply Z.eqb_eq in He. now subst.
  - intros H. exists x. split; [assumption | apply Z.eqb_refl].
Qed.

(** The cases parsed from the raw file are those of numbers the corpus
    does not have. *)
Lemma new_cases_fresh (parsed_seqs : list Z) (lines : list ustr) :
  forall fresh,
    new_cases parsed_seqs lines = Some fresh ->
    forall c, In c fresh -> ~ In (seq c) parsed_seqs /\ (seq c <= 2800)%Z.
Proof.
  induction lines as [|line rest IH]; intros fresh.
  { intros [= <-] c []. }
  cbn [new_cases].
  set (parts := split (strip line) (u "|||")).
  destruct ((5 <=? length parts)%nat && isdigit (item parts 0));
    [|exact (IH fresh)].
  destruct (py_int (item parts 0)) as [seq0|]; [|discriminate].
  destruct (existsb (Z.eqb seq0) parsed_seqs) eqn:Hn; cbn [negb andb];
    [exact (IH fresh)|].
  destruct (Z.leb_spec seq0 2800) as [Hle|Hgt]; [|exact (IH fresh)].
  destruct (new_cases parsed_seqs rest) as [tail|]; [|discriminate].
  intros [= <-] c [<- | Hc]; [|now apply (IH tail)].
  rewrite parse_remaining_case_seq. split; [|assumption].
  intros Hin. apply existsb_Zeqb in Hin. rewrite Hin in Hn. discriminate.
Qed.

(** The number of cases of a sequence number is that of the
    occurrences of the number. *)
Lemma count_seq_perm (l l' : list Case) (s : Z) :
  Permutation l l' ->
  count_occ Z.eq_dec (map seq l') s = count_occ Z.eq_dec (map seq l) s.
Proof.
  intros H. symmetry. apply Permutation_count_occ. now apply Permutation_map.
Qed.

(** C5, as stated, fails: the line for 2601 is a well-formed record of
    its own, its number is in the corpus too, and the merge returns the
    corpus as it was: the record is skipped and nothing is reported. *)
Lemma merge_skips_duplicate :
  In 2601%Z (map seq corpus_2601)
  /\ (exists c, new_cases [] [line_2601] = Some [c] /\ seq c = 2601%Z)
  /\ merge_cases corpus_2601 [line_2601] = Some corpus_2601.
Proof.
  split; [now left|].
  split; [eexists; split; vm_compute; reflexivity|].
  vm_compute. reflexivity.
Qed.

(** C5, amended.  When the merge returns, the merged collection is
    ordered by sequenceId and is a rearrangement of the existing cases
    together with the cases parsed from the raw file; a case is parsed
    from the raw file only for a sequenceId the existing corpus does
    not have (and at most 2800): a raw record whose sequenceId is
    already in the corpus is skipped without a report, the existing
    case is kept, and every sequenceId of the existing corpus has in
    the result the number of cases it had.  The loop of
    parse-coverages-direct.py likewise goes on with exactly the records
    whose number the existing file does not have. *)
Theorem merge_cases_sorted :
  forall (existing merged : list Case) (lines : list ustr),
    merge_cases existing lines = Some merged ->
    exists fresh,
      new_cases (map seq existing) lines = Some fresh
      /\ Sorted by_seq merged
      /\ Permutation (existing ++ fresh) merged
      /\ (forall c, In c existing -> In c merged)
      /\ (forall c, In c fresh ->
                    ~ In (seq c) (map seq existing) /\ (seq c <= 2800)%Z)
      /\ (forall s, In s (map seq existing) ->
                    count_occ Z.eq_dec (map seq merged) s
                    = count_occ Z.eq_dec (map seq existing) s)
      /\ (forall existing_serial_numbers records r,
            In r (ParseCoveragesDirect.new_records
                    existing_serial_numbers records)
            <-> In r records
                /\ ~ In (ParseCoveragesDirect.serialNumber r)
                        existing_serial_numbers).
Proof.
  intros existing merged lines. unfold merge_cases.
  destruct (new_cases (map seq existing) lines) as [fresh|] eqn:Hnew;
    [|discriminate].
  intros [= <-]. exists fresh.
  pose proof (new_cases_fresh _ _ Hnew) as Hfresh.
  split; [reflexivity|].
  split; [apply sort_by_seq_sorted|].
  split; [apply sort_by_seq_perm|].
  split.
  { intros c Hc. apply (Permutation_in c (sort_by_seq_perm _)).
    apply in_or_app. now left. }
  split; [exact Hfresh|].
  split.
  { intros s Hs.
    rewrite (count_seq_perm s (sort_by_seq_perm (existing ++ fresh))).
    rewrite map_app, count_occ_app.
    replace (count_occ Z.eq_dec (map seq fresh) s) with 0; [lia|].
    symmetry. apply count_occ_not_In. rewrite in_map_iff.
    intros [c [<- Hc]]. destruct (Hfresh c Hc) as [Hn _]. exact (Hn Hs). }
  intros ex records r. unfold ParseCoveragesDirect.new_records.
  rewrite filter_In, negb_true_iff, <- not_true_iff_false, existsb_Zeqb.
  reflexivity.
Qed.

(** The theorem on the corpus with 2601 and a raw file with 2601 and
    2600: the result is 2600 (new), then 2601 (the existing case). *)
Lemma merge_cases_sorted_witness :
  exists merged,
    merge_cases corpus_2601 [line_2601; line_2600] = Some merged
    /\ Sorted by_seq merged
    /\ map seq merged = [2600%Z; 2601%Z]
    /\ (forall c, In c corpus_2601 -> In c merged)
    /\ count_occ Z.eq_dec (map seq merged) 2601%Z = 1.
Proof.
  eexists.
  assert (Hm : merge_cases corpus_2601 [line_2601; line_2600] = Some _)
    by (vm_compute; reflexivity).
  destruct (merge_cases_sorted _ _ Hm) as [fresh [_ [Hs [_ [Hk [_ [Hc _]]]]]]].
  split; [exact Hm|]. split; [exact Hs|].
  split; [vm_compute; reflexivity|]. split; [exact Hk|].
  rewrite (Hc 2601%Z (or_introl eq_refl)). vm_compute. reflexivity.
Defined.

End Merge.

(* ================================================================== *)
(** * The cumulative limit (validators.py, 3_ai_reviewer.py) *)
(* ================================================================== *)

Section RegexFacts.
Import Text TextFacts Regex.
Variable A : Type.

Lemma strip_prefix_spec (p s r : ustr) :
  strip_prefix p s = Some r <-> s = p ++ r.
Proof.
  revert s. induction p as [|a p IH]; intros s; simpl.
  - split; congruence.
  - destruct s as [|b s]; [split; discriminate|].
    destruct (N.eqb_spec a b) as [->|Hne].
    + rewrite IH. split; congruence.
    + split; [discriminate | congruence].
Qed.


End RegexFacts.

Section SearchFacts.
Import Text TextFacts Regex.


End SearchFacts.

Section MatchedText.
Import Text TextFacts Regex ExtractionTerms.

Lemma rep_greedy_text (A : Type) (c : cls) (k : ustr -> option A) (x : A) :
  forall (s : ustr) (lo : nat) (hi : option nat),
    rep_greedy c lo hi s k = Some x ->
    exists pre rest,
      s = pre ++ rest
      /\ Forall (fun y => cls_match c y = true) pre
      /\ k rest = Some x.
Proof.
  induction s as [|y s IH]; intros lo hi H; cbn [rep_greedy] in H.
  - exists [], []. destruct lo; [auto | discriminate].
  - assert (Hstop : match lo with O => k (y :: s) | S _ => None end = Some x
                    -> exists pre rest,
                         y :: s = pre ++ rest
                         /\ Forall (fun y => cls_match c y = true) pre
                         /\ k rest = Some x).
    { intros Hk. exists [], (y :: s). destruct lo; [auto | discriminate]. }
    destruct (room hi && cls_match c y) eqn:Hc; [|auto].
    destruct (rep_greedy c (pred lo) (option_map pred hi) s k) eqn:Hr; [|auto].
    injection H as ->.
    destruct (IH _ _ Hr) as [pre [rest [-> [Hpre Hk]]]].
    exists (y :: pre), rest. repeat split; [|assumption].
    constructor; [|assumption].
    now apply andb_true_iff in Hc.
Qed.

Lemma rep_lazy_text (A : Type) (c : cls) (k : ustr -> option A) (x : A) :
  forall (s : ustr) (lo : nat) (hi : option nat),
    rep_lazy c lo hi s k = Some x ->
    exists pre rest,
      s = pre ++ rest
      /\ Forall (fun y => cls_match c y = true) pre
      /\ k rest = Some x.
Proof.
  induction s as [|y s IH]; intros lo hi H; cbn [rep_lazy] in H.
  - exists [], []. destruct lo; [auto | discriminate].
  - destruct (match lo with O => k (y :: s) | S _ => None end) eqn:Hstop.
    + injection H as ->. exists [], (y :: s).
      destruct lo; [auto | discriminate].
    + destruct (room hi && cls_match c y) eqn:Hc; [|discriminate].
      destruct (IH _ _ H) as [pre [rest [-> [Hpre Hk]]]].
      exists (y :: pre), rest. repeat split; [|assumption].
      constructor; [|assumption].
      now apply andb_true_iff in Hc.
Qed.

Lemma firstn_prefix (pre rest : ustr) :
  firstn (length (pre ++ rest) - length rest) (pre ++ rest) = pre.
Proof.
  rewrite length_app, Nat.add_sub.
  rewrite firstn_app, Nat.sub_diag, firstn_all. cbn [firstn].
  apply app_nil_r.
Qed.

(** What a match consumes and what its groups hold is written in the
    alphabet of the pattern. *)
Lemma rmatch_text (A : Type) (r : regex) :
  forall (s : ustr) (g : caps) (k : ustr -> caps -> option A) (x : A),
    rmatch r s g k = Some x ->
    exists pre rest g1,
      s = pre ++ rest
      /\ written_in r pre
      /\ Forall (fun e => written_in r (snd e)) g1
      /\ k rest (g1 ++ g) = Some x.
Proof.
  unfold written_in.
  induction r as [l | c lo hi greedy | r1 IH1 r2 IH2 | r1 IH1 r2 IH2
                  | r1 IH1 | i r1 IH1];
    intros s g k x H; cbn [rmatch] in H.
  - destruct (strip_prefix l s) as [rest|] eqn:Hs; [|discriminate].
    apply strip_prefix_spec in Hs. exists l, rest, [].
    repeat split; auto.
    apply Forall_forall. intros y Hy. cbn [alphabet].
    apply existsb_exists. exists y. split; [assumption | apply N.eqb_refl].
  - destruct greedy.
    + destruct (rep_greedy_text _ _ _ _ _ H) as [pre [rest [-> [Hp Hk]]]].
      exists pre, rest, []. auto.
    + destruct (rep_lazy_text _ _ _ _ _ H) as [pre [rest [-> [Hp Hk]]]].
      exists pre, rest, []. auto.
  - destruct (IH1 _ _ _ _ H) as [p1 [rest1 [g1 [-> [Hp1 [Hg1 H2]]]]]].
    destruct (IH2 _ _ _ _ H2) as [p2 [rest2 [g2 [-> [Hp2 [Hg2 Hk]]]]]].
    exists (p1 ++ p2), rest2, (g2 ++ g1).
    rewrite <- !app_assoc. repeat split; [| |assumption].
    + apply Forall_app. split;
        (eapply Forall_impl; [|eassumption]); cbn [alphabet]; intros y ->;
        [reflexivity | apply orb_true_r].
    + apply Forall_app. split;
        (eapply Forall_impl; [|eassumption]); intros e He;
        (eapply Forall_impl; [|exact He]); cbn [alphabet]; intros y ->;
        [apply orb_true_r | reflexivity].
  - destruct (rmatch r1 s g k) eqn:H1.
    + injection H as ->.
      destruct (IH1 _ _ _ _ H1) as [p [rest [g1 [-> [Hp [Hg Hk]]]]]].
      exists p, rest, g1. repeat split; [| |assumption].
      * eapply Forall_impl; [|eassumption]. cbn [alphabet]. now intros y ->.
      * eapply Forall_impl; [|eassumption]. intros e He.
        eapply Forall_impl; [|exact He]. cbn [alphabet]. now intros y ->.
    + destruct (IH2 _ _ _ _ H) as [p [rest [g1 [-> [Hp [Hg Hk]]]]]].
      exists p, rest, g1. repeat split; [| |assumption].
      * eapply Forall_impl; [|eassumption]. cbn [alphabet].
        intros y ->. apply orb_true_r.
      * eapply Forall_impl; [|eassumption]. intros e He.
        eapply Forall_impl; [|exact He]. cbn [alphabet].
        intros y ->. apply orb_true_r.
  - destruct (rmatch r1 s g k) eqn:H1.
    + injection H as ->.
      destruct (IH1 _ _ _ _ H1) as [p [rest [g1 [-> [Hp [Hg Hk]]]]]].
      exists p, rest, g1. auto.
    + exists [], s, []. auto.
  - destruct (IH1 _ _ _ _ H) as [p [rest [g1 [-> [Hp [Hg Hk]]]]]].
    rewrite firstn_prefix in Hk.
    exists p, rest, ((i, p) :: g1). repeat split; auto.
Qed.

Lemma group_In (g : caps) (i : nat) (s : ustr) :
  group g i = Some s -> In (i, s) g.
Proof.
  induction g as [|[j t] g IH]; [discriminate|]. cbn [group].
  destruct (Nat.eqb_spec i j) as [->|_].
  - intros [= ->]. now left.
  - intros H. right. auto.
Qed.

Lemma match_at_group (r : regex) (s : ustr) (m : match_obj) (i : nat) :
  match_at r s = Some m -> written_in r (group_text m i).
Proof.
  unfold match_at. intros H.
  destruct (rmatch_text _ _ _ _ H) as [p [rest [g1 [_ [_ [Hg Hk]]]]]].
  injection Hk as <-. unfold group_text. cbn [m_groups].
  rewrite app_nil_r.
  destruct (group g1 i) as [t|] eqn:Ht; [|constructor].
  apply group_In in Ht.
  rewrite Forall_forall in Hg. exact (Hg _ Ht).
Qed.

Lemma search_match (r : regex) (s : ustr) (m : match_obj) :
  search r s = Some m ->
  exists pre suf, s = pre ++ suf /\ match_at r suf = Some m.
Proof.
  induction s as [|y s IH]; cbn [search].
  - destruct (match_at r []) eqn:Hm; [|discriminate].
    intros [= ->]. now exists [], [].
  - destruct (match_at r (y :: s)) eqn:Hm.
    + intros [= ->]. now exists [], (y :: s).
    + intros H. destruct (IH H) as [pre [suf [-> Hs]]].
      now exists (y :: pre), suf.
Qed.

Lemma match_at_search (r : regex) (s : ustr) (m : match_obj) :
  match_at r s = Some m -> search r s = Some m.
Proof. intros H. destruct s; cbn [search]; now rewrite H. Qed.

End MatchedText.

Section Digits.
Import Text TextFacts.







End Digits.

Section CumulativeLimit.
Import Text TextFacts Regex Corpus Validators Reviewer Vocabulary
       ExtractionTerms.





(** C6.  The clause caps the payouts at 3 and the note 最多赔3次
    carries the number: the check emits the finding all the same,
    because the note has no 累计, while [fix_cumulative_limit_note]
    takes the note to state the limit and changes nothing, so that the
    finding comes back after [apply_fixes]. *)
Theorem finding_although_note_has_count :
  has_cumulative_limit (get_str (clause capped_case)) = Some (VInt 3)
  /\ contains (str_of (VInt 3)) (get_str (case_note capped_case)) = true
  /\ (exists i, check_cumulative_limit capped_case = [i]
                /\ issue_type i = u "missing_cumulative_limit")
  /\ Fixers.fix_cumulative_limit_note capped_case = (capped_case, false)
  /\ apply_fixes (check_cumulative_limit capped_case) [capped_case]
     = Some ([capped_case], 0%Z).
Proof.
  split; [vm_compute; reflexivity|].
  split; [vm_compute; reflexivity|].
  split; [eexists; split; vm_compute; reflexivity|].
  split; vm_compute; reflexivity.
Qed.

End CumulativeLimit.

Section RepairIdempotence.
Import Text TextFacts Regex Corpus Validators Fixers Reviewer Vocabulary.

(** The phrase [fix_cumulative_limit_note] adds has both markers the
    fixer looks for. *)
Lemma added_limit_markers (n x pre post : ustr) :
  x = pre ++ (u "累计最多赔" ++ n ++ u "次") ++ post ->
  contains (u "累计") x = true /\ contains (u "次") x = true.
Proof.
  intros ->. split; apply contains_spec.
  - exists pre, (u "最多赔" ++ n ++ u "次" ++ post).
    f_equal. change (u "累计最多赔") with (u "累计" ++ u "最多赔").
    now rewrite <- !app_assoc.
  - exists (pre ++ u "累计最多赔" ++ n), post. now rewrite <- !app_assoc.
Qed.

Ltac by_assoc := repeat rewrite <- app_assoc; rewrite ?app_nil_r; reflexivity.

(** X1.  [fix_cumulative_limit_note] is idempotent: on the case it
    returns, a second run changes nothing and says so. *)
Lemma fix_cumulative_limit_note_idempotent (case : Case) :
  let case1 := fst (fix_cumulative_limit_note case) in
  fix_cumulative_limit_note case1 = (case1, false).
Proof.
  cbv zeta.
  destruct (fix_cumulative_limit_note case) as [case1 b] eqn:Hfix.
  cbn [fst]. unfold fix_cumulative_limit_note in Hfix.
  destruct (has_cumulative_limit (get_str (clause case))) as [n|] eqn:Hn.
  2:{ injection Hfix as <- <-. unfold fix_cumulative_limit_note.
      now rewrite Hn. }
  destruct (truthy n) eqn:Ht; cbn [negb] in Hfix.
  2:{ injection Hfix as <- <-. unfold fix_cumulative_limit_note.
      now rewrite Hn, Ht. }
  match type of Hfix with
  | (if ?b then _ else _) = _ => destruct b eqn:Hb
  end.
  { injection Hfix as <- <-. unfold fix_cumulative_limit_note.
    now rewrite Hn, Ht, Hb. }
  injection Hfix as <- <-. unfold fix_cumulative_limit_note.
  cbn [set_case_note clause case_note get_str]. rewrite Hn, Ht. cbn [negb].
  match goal with
  | |- context [contains (u "累计") ?x && (contains (u "次") ?x || _)] =>
    assert (Hm : contains (u "累计") x = true /\ contains (u "次") x = true)
  end.
  { destruct (get_str (case_note case)) as [|c0 note0].
    - apply (@added_limit_markers (str_of n) _ [] []). by_assoc.
    - destruct (contains (u "每种") (c0 :: note0)).
      + destruct (split1 (c0 :: note0) (u "；")) as [|p0 [|p1 [|p2 ps]]].
        * apply (@added_limit_markers (str_of n) _ ((c0 :: note0) ++ u "；") []).
          by_assoc.
        * apply (@added_limit_markers (str_of n) _ ((c0 :: note0) ++ u "；") []).
          by_assoc.
        * apply (@added_limit_markers (str_of n) _ (p0 ++ u "；") (u "；" ++ p1)).
          by_assoc.
        * apply (@added_limit_markers (str_of n) _ ((c0 :: note0) ++ u "；") []).
          by_assoc.
      + apply (@added_limit_markers (str_of n) _ [] (u "；" ++ c0 :: note0)).
        by_assoc. }
  destruct Hm as [H1 H2]. rewrite H1, H2. reflexivity.
Qed.

(** The phrase [fix_termination_note] adds is found by the first of its
    patterns, whatever follows. *)
Lemma added_termination_found (rest : ustr) :
  existsb (fun p => found p (u "给付以1次为限" ++ rest)) payout_limit_patterns
  = true.
Proof. reflexivity. Qed.

(** X2.  [fix_termination_note] is idempotent: on the case it returns,
    a second run changes nothing and says so. *)
Lemma fix_termination_note_idempotent (case : Case) :
  let case1 := fst (fix_termination_note case) in
  fix_termination_note case1 = (case1, false).
Proof.
  cbv zeta.
  destruct (fix_termination_note case) as [case1 b] eqn:Hfix.
  cbn [fst]. unfold fix_termination_note in Hfix.
  destruct (has_termination (get_str (clause case))) eqn:Hn;
    cbn [negb] in Hfix.
  2:{ injection Hfix as <- <-. unfold fix_termination_note.
      now rewrite Hn. }
  match type of Hfix with
  | (if ?b then _ else _) = _ => destruct b eqn:Hb
  end.
  { injection Hfix as <- <-. unfold fix_termination_note.
    now rewrite Hn, Hb. }
  injection Hfix as <- <-. unfold fix_termination_note.
  cbn [set_case_note clause case_note get_str]. rewrite Hn. cbn [negb].
  destruct (get_str (case_note case)) as [|c0 note0].
  - reflexivity.
  - match goal with
    | |- (if ?b then _ else _) = _ =>
      replace b with true
        by (symmetry; exact (added_termination_found (u "；" ++ c0 :: note0)))
    end.
    reflexivity.
Qed.

Lemma fix_payment_period_stage_idempotent (ps : ustr) (st : Stage) :
  fix_payment_period_stage ps (fst (fix_payment_period_stage ps st))
  = (fst (fix_payment_period_stage ps st), false).
Proof.
  destruct (fix_payment_period_stage ps st) as [st1 b] eqn:Hfix.
  cbn [fst]. unfold fix_payment_period_stage in Hfix.
  destruct (paymentPeriodStatus st) eqn:Hp.
  - injection Hfix as <- <-. unfold fix_payment_period_stage. now rewrite Hp.
  - destruct (get_str (naturalLanguageDescription st));
      injection Hfix as <- <-; reflexivity.
Qed.

Lemma fix_payment_period_stages_idempotent (ps : ustr) (stages : list Stage) :
  fix_payment_period_stages ps (fst (fix_payment_period_stages ps stages))
  = (fst (fix_payment_period_stages ps stages), 0%Z).
Proof.
  induction stages as [|st rest IH]; [reflexivity|].
  cbn [fix_payment_period_stages].
  pose proof (fix_payment_period_stage_idempotent ps st) as Hs.
  destruct (fix_payment_period_stage ps st) as [st' ch].
  destruct (fix_payment_period_stages ps rest) as [rest' n].
  cbn [fst] in *. cbn [fix_payment_period_stages]. now rewrite Hs, IH.
Qed.

(** X3.  [fix_payment_period] is idempotent: on the case it returns, a
    second run repairs no stage. *)
Lemma fix_payment_period_idempotent (case : Case) :
  let case1 := fst (fix_payment_period case) in
  fix_payment_period case1 = (case1, 0%Z).
Proof.
  cbv zeta.
  destruct (fix_payment_period case) as [case1 k] eqn:Hfix.
  cbn [fst]. unfold fix_payment_period in Hfix.
  destruct (detect_payment_period (get_str (clause case))) as [ps|] eqn:Hd.
  2:{ injection Hfix as <- <-. unfold fix_payment_period. now rewrite Hd. }
  destruct (payoutAmount case) as [stages|] eqn:Hp.
  2:{ injection Hfix as <- <-. unfold fix_payment_period.
      now rewrite Hd, Hp. }
  pose proof (fix_payment_period_stages_idempotent ps stages) as Hs.
  destruct (fix_payment_period_stages ps stages) as [stages' n].
  cbn [fst] in Hs. injection Hfix as <- <-. unfold fix_payment_period.
  cbn [set_payoutAmount clause payoutAmount]. rewrite Hd, Hs. reflexivity.
Qed.

Lemma remove_stage_level_note_idempotent (st : Stage) :
  let st1 := fst (remove_stage_level_note st) in
  remove_stage_level_note st1 = (st1, false).
Proof.
  cbv zeta. unfold remove_stage_level_note at 2 3.
  destruct (note st) eqn:Hn; [reflexivity|].
  cbn [fst]. unfold remove_stage_level_note. now rewrite Hn.
Qed.

(** [add_continuous_payment_frequency] reports a change for a type it
    has no frequency for, without making one: its result may be True
    again, the stage is the same. *)
Lemma add_continuous_payment_frequency_idempotent (st : Stage) :
  let st1 := fst (add_continuous_payment_frequency st) in
  fst (add_continuous_payment_frequency st1) = st1.
Proof.
  cbv zeta.
  destruct (add_continuous_payment_frequency st) as [st1 b] eqn:Hfix.
  cbn [fst]. unfold add_continuous_payment_frequency in Hfix.
  destruct (continuousPayment st) as [cp|] eqn:Hc.
  2:{ injection Hfix as <- <-. unfold add_continuous_payment_frequency.
      now rewrite Hc. }
  destruct (frequency cp) eqn:Hf.
  { injection Hfix as <- <-. unfold add_continuous_payment_frequency.
    now rewrite Hc, Hf. }
  destruct (ustr_eqb (cp_type cp) (u "fixed_count")
            || ustr_eqb (cp_type cp) (u "until_termination")) eqn:Ht;
    injection Hfix as <- <-.
  - reflexivity.
  - unfold add_continuous_payment_frequency. now rewrite Hc, Hf, Ht.
Qed.

(** C2 at a stage paid in 3 yearly instalments, whose description
    states neither the instalments nor the ratio of its formula.  The
    validator reports one finding, incomplete_description.  The first
    repair appends （分3次）; the description still lacks the ratio, so
    the same finding makes the second repair run again, and it appends
    （分3次） once more: the repaired case is changed by the second
    application. *)
Theorem description_repair_not_idempotent :
  let issues := run_auto_checks [annuity_case] in
  map issue_type issues = [u "incomplete_description"]
  /\ exists case1 case2,
       apply_fixes issues [annuity_case] = Some ([case1], 1%Z)
       /\ apply_fixes issues [case1] = Some ([case2], 1%Z)
       /\ map naturalLanguageDescription (get_list (payoutAmount case1))
          = [Some (u "等待期后确诊，每年按基本保额赔付（分3次）")]
       /\ map naturalLanguageDescription (get_list (payoutAmount case2))
          = [Some (u "等待期后确诊，每年按基本保额赔付（分3次）（分3次）")]
       /\ case1 <> case2.
Proof.
  split; [vm_compute; reflexivity|].
  eexists; eexists.
  split; [vm_compute; reflexivity|].
  split; [vm_compute; reflexivity|].
  split; [vm_compute; reflexivity|].
  split; [vm_compute; reflexivity|].
  vm_compute. discriminate.
Qed.

End RepairIdempotence.

(* ================================================================== *)
(** * The repairs and the checks they answer *)
(* ================================================================== *)

Section RepairsResolve.
Import Text TextFacts Regex Corpus Validators Fixers Reviewer Vocabulary.

Ltac reassoc := repeat rewrite <- app_assoc; rewrite ?app_nil_r; reflexivity.

Lemma fix_payment_period_stage_status (ps : ustr) (st : Stage) :
  paymentPeriodStatus (fst (fix_payment_period_stage ps st)) <> None.
Proof.
  unfold fix_payment_period_stage.
  destruct (paymentPeriodStatus st) eqn:Hp; [cbn [fst]; congruence|].
  destruct (get_str (naturalLanguageDescription st)); discriminate.
Qed.

Lemma fix_payment_period_stages_status (ps : ustr) (stages : list Stage) :
  Forall (fun st => paymentPeriodStatus st <> None)
         (fst (fix_payment_period_stages ps stages)).
Proof.
  induction stages as [|st rest IH]; [constructor|].
  cbn [fix_payment_period_stages].
  pose proof (fix_payment_period_stage_status ps st) as Hs.
  destruct (fix_payment_period_stage ps st) as [st' ch].
  destruct (fix_payment_period_stages ps rest) as [rest' n].
  cbn [fst] in *. now constructor.
Qed.

Lemma no_payment_issue (case : Case) (stages : list Stage) (i : Z) :
  Forall (fun st => paymentPeriodStatus st <> None) stages ->
  flat_map
    (fun '(stage_idx, st) =>
       match paymentPeriodStatus st with
       | None =>
         [mk_issue "P2" "missing_payment_period" case (Some stage_idx) None
            (u "原文有交费期条件，但stage中未体现")]
       | Some _ => []
       end)
    (enumerate_from i stages) = [].
Proof.
  intros H. revert i. induction H as [|st rest Hst Hrest IH]; intros i;
    [reflexivity|].
  cbn [enumerate_from flat_map].
  destruct (paymentPeriodStatus st); [|congruence]. apply IH.
Qed.

(** X4.  After [fix_payment_period] the payment-period check of
    [run_auto_checks] reports nothing for the case, whatever the case
    was. *)
Theorem fix_payment_period_resolves :
  forall case : Case,
    check_payment_period (fst (fix_payment_period case)) = [].
Proof.
  intros case. unfold fix_payment_period.
  destruct (detect_payment_period (get_str (clause case))) as [ps|] eqn:Hd.
  - destruct (payoutAmount case) as [stages|] eqn:Hp.
    + pose proof (fix_payment_period_stages_status ps stages) as Hs.
      destruct (fix_payment_period_stages ps stages) as [stages' n].
      cbn [fst] in *. unfold check_payment_period.
      cbn [set_payoutAmount clause payoutAmount get_list]. rewrite Hd.
      now apply no_payment_issue.
    + cbn [fst]. unfold check_payment_period. rewrite Hd, Hp. reflexivity.
  - cbn [fst]. unfold check_payment_period. now rewrite Hd.
Qed.

(** X5.  When [fix_termination_note] changes the note, the termination
    check of [run_auto_checks] reports nothing for the repaired case. *)
Theorem fix_termination_note_resolves :
  forall case : Case,
    snd (fix_termination_note case) = true ->
    check_termination (fst (fix_termination_note case)) = [].
Proof.
  intros case. unfold fix_termination_note.
  destruct (has_termination (get_str (clause case))) eqn:Hn; cbn [negb];
    [|discriminate].
  match goal with
  | |- context [if ?b then (case, false) else _] => destruct b
  end; [discriminate|].
  cbn [fst snd]. intros _. unfold check_termination.
  cbn [set_case_note clause case_note get_str]. rewrite Hn.
  match goal with
  | |- context [contains (u "次为限") ?x] =>
    assert (Hc : contains (u "次为限") x = true)
  end.
  { destruct (get_str (case_note case)) as [|c0 note0]; [reflexivity|].
    apply contains_spec. exists (u "给付以1"), (u "；" ++ c0 :: note0).
    reflexivity. }
  now rewrite Hc.
Qed.

Lemma fix_termination_note_resolves_witness :
  snd (fix_termination_note terminating_case) = true
  /\ check_termination (fst (fix_termination_note terminating_case)) = [].
Proof.
  exact (conj eq_refl (fix_termination_note_resolves terminating_case eq_refl)).
Defined.

(** X6.  When [fix_cumulative_limit_note] changes the note, the
    cumulative-limit check of [run_auto_checks] reports nothing for the
    repaired case. *)
Theorem fix_cumulative_limit_note_resolves :
  forall case : Case,
    snd (fix_cumulative_limit_note case) = true ->
    check_cumulative_limit (fst (fix_cumulative_limit_note case)) = [].
Proof.
  intros case Hch.
  destruct (fix_cumulative_limit_note case) as [case1 b] eqn:Hfix.
  cbn [fst snd] in *. subst b.
  unfold fix_cumulative_limit_note in Hfix.
  destruct (has_cumulative_limit (get_str (clause case))) as [n|] eqn:Hn;
    [|discriminate].
  destruct (truthy n) eqn:Ht; cbn [negb] in Hfix; [|discriminate].
  match type of Hfix with
  | (if ?b then _ else _) = _ => destruct b eqn:Hb
  end; [discriminate|].
  injection Hfix as <-. unfold check_cumulative_limit.
  cbn [set_case_note clause case_note get_str]. rewrite Hn.
  cbn [truthy_opt]. rewrite Ht.
  match goal with
  | |- context [contains (u "累计") ?x && contains (u "次") ?x] =>
    assert (Hm : contains (u "累计") x = true /\ contains (u "次") x = true)
  end.
  { destruct (get_str (case_note case)) as [|c0 note0].
    - apply (@added_limit_markers (str_of n) _ [] []). reassoc.
    - destruct (contains (u "每种") (c0 :: note0)).
      + destruct (split1 (c0 :: note0) (u "；")) as [|p0 [|p1 [|p2 ps]]].
        * apply (@added_limit_markers (str_of n) _ ((c0 :: note0) ++ u "；") []).
          reassoc.
        * apply (@added_limit_markers (str_of n) _ ((c0 :: note0) ++ u "；") []).
          reassoc.
        * apply (@added_limit_markers (str_of n) _ (p0 ++ u "；") (u "；" ++ p1)).
          reassoc.
        * apply (@added_limit_markers (str_of n) _ ((c0 :: note0) ++ u "；") []).
          reassoc.
      + apply (@added_limit_markers (str_of n) _ [] (u "；" ++ c0 :: note0)).
        reassoc. }
  destruct Hm as [H1 H2]. now rewrite H1, H2.
Qed.

Lemma fix_cumulative_limit_note_resolves_witness :
  snd (fix_cumulative_limit_note uncapped_case) = true
  /\ check_cumulative_limit (fst (fix_cumulative_limit_note uncapped_case))
     = [].
Proof.
  exact (conj eq_refl (fix_cumulative_limit_note_resolves uncapped_case eq_refl)).
Defined.

End RepairsResolve.

(* ================================================================== *)
(** * What the repairs write into a description *)
(* ================================================================== *)

Section DescriptionMarkers.
Import Text TextFacts Regex Corpus Validators Fixers Reviewer Vocabulary.

(** The first occurrence of a non-empty [a] in [s] is replaced. *)
Lemma replace_hits (a b s : ustr) :
  a <> [] -> contains a s = true ->
  exists x y, replace s a b = x ++ b ++ y.
Proof.
  intros Ha. unfold replace. induction s as [|c s IH].
  - cbn [contains]. rewrite orb_false_r. destruct a; [congruence|discriminate].
  - cbn [contains replace_aux]. destruct (startswith (c :: s) a) eqn:Hs.
    + intros _. now exists [], (replace_aux a b s (pred (length a))).
    + cbn [orb]. intros Hc. destruct (IH Hc) as [x [y Hxy]].
      exists (c :: x), y. cbn [app]. now rewrite Hxy.
Qed.

(** X8.  When [fix_payment_period] gives a stage that has a
    description its payment-period status, the new description
    contains the marker the validator looks for: 交费期内 for
    ['during'], 交费期满 otherwise. *)
Theorem fix_payment_period_stage_marks :
  forall (payment_status : ustr) (stage : Stage),
    paymentPeriodStatus stage = None ->
    get_str (naturalLanguageDescription stage) <> [] ->
    let stage1 := fst (fix_payment_period_stage payment_status stage) in
    paymentPeriodStatus stage1 = Some payment_status
    /\ contains (payment_marker payment_status)
                (get_str (naturalLanguageDescription stage1)) = true.
Proof.
  intros ps st Hp Hd. cbv zeta. unfold fix_payment_period_stage. rewrite Hp.
  destruct (get_str (naturalLanguageDescription st)) as [|c d] eqn:Hold;
    [congruence|].
  cbn [fst set_description set_paymentPeriodStatus paymentPeriodStatus
       naturalLanguageDescription get_str].
  split; [reflexivity|]. unfold payment_marker.
  destruct (contains (u "等待期后") (c :: d)) eqn:Hw.
  - match goal with
    | |- context [replace ?s ?a ?b] =>
      destruct (@replace_hits a b s ltac:(discriminate) Hw) as [x [y ->]]
    end.
    apply contains_app_r, contains_app_l, contains_app_r.
    destruct (ustr_eqb ps (u "during")); reflexivity.
  - apply contains_app_l. destruct (ustr_eqb ps (u "during")); reflexivity.
Qed.

Lemma fix_payment_period_stage_marks_witness :
  contains (u "交费期内")
    (get_str (naturalLanguageDescription
                (fst (fix_payment_period_stage (u "during") annuity_stage))))
  = true.
Proof.
  exact (proj2 (@fix_payment_period_stage_marks (u "during") annuity_stage
                  eq_refl ltac:(discriminate))).
Defined.

End DescriptionMarkers.

(* ================================================================== *)
(** * What a repaired description can still miss *)
(* ================================================================== *)

Section RepairedDescription.
Import Text TextFacts Regex Corpus Validators Fixers Reviewer Vocabulary RepairTerms.

(** The form of a repaired description. *)
Lemma fix_description_form (stage : Stage) (text d : ustr) :
  fix_description_completeness stage text = Some d ->
  exists middle payout,
    d = join (u "、") (waiting_label stage ++ middle ++ payment_label stage)
        ++ payout ++ continuous_suffix stage.
Proof.
  unfold fix_description_completeness, waiting_label, payment_label,
    continuous_suffix.
  destruct (check_description_completeness stage text) as [[|] miss];
    [discriminate|].
  cbv zeta.
  match goal with
  | |- context [join (u "、") (?p1 ++ ?p2 ++ ?p3 ++ ?p4)] =>
    set (P2 := p2); set (P3 := p3)
  end.
  match goal with
  | |- context [?h ++ u "确诊，" ++ ?p] => set (PAY := p)
  end.
  destruct (continuousPayment stage) as [cp|].
  - destruct (ustr_eqb (cp_type cp) (u "fixed_count")).
    + intros H. injection H as <-.
      exists (P2 ++ P3), (u "确诊，每年" ++ PAY).
      now rewrite <- !app_assoc.
    + destruct (ustr_eqb (cp_type cp) (u "until_termination")).
      * intros H. injection H as <-.
        exists (P2 ++ P3), (u "确诊，每年" ++ PAY).
        now rewrite <- !app_assoc.
      * intros H. injection H as <-.
        exists (P2 ++ P3), (u "确诊，" ++ PAY).
        now rewrite <- !app_assoc, app_nil_r.
  - intros H. injection H as <-.
    exists (P2 ++ P3), (u "确诊，" ++ PAY).
    now rewrite <- !app_assoc, app_nil_r.
Qed.

Lemma contains_trans (a b c : ustr) :
  contains a b = true -> contains b c = true -> contains a c = true.
Proof.
  rewrite !contains_spec. intros [x [y ->]] [x' [y' ->]].
  exists (x' ++ x), (y ++ y'). now rewrite <- !app_assoc.
Qed.

(** A label in front is in the description. *)
Lemma label_in_description (label : ustr) (labels : list ustr)
    (rest : ustr) :
  In label labels -> contains label (join (u "、") labels ++ rest) = true.
Proof. intros H. now apply contains_app_l, contains_join. Qed.

(** X9.  Whatever [fix_description_completeness] writes, the validator
    finds in it the waiting-period label, the payment-period label and
    the continuous-payment wording of the stage: of a repaired
    description [check_description_completeness] can only report the
    age condition, the policy year or the ratio of the formula as
    missing. *)
Theorem repaired_description_misses :
  forall (stage : Stage) (text d x : ustr),
    fix_description_completeness stage text = Some d ->
    In x (snd (check_description_completeness
                 (set_description stage (Some d)) text)) ->
    x = u "年龄条件" \/ x = u "保单年度"
    \/ startswith x (u "赔付比例(") = true.
Proof.
  intros stage text d x Hfix.
  destruct (fix_description_form _ _ Hfix) as [middle [payout Hd]].
  unfold check_description_completeness. cbv zeta.
  cbn [snd set_description waitingPeriodStatus paymentPeriodStatus formula
       naturalLanguageDescription ageConditions policyYearRange
       continuousPayment get_str].
  rewrite !in_app_iff. intros [H | [H | [H | [H | [H | H]]]]].
  - (* waiting period *)
    exfalso. destruct (nonempty (waitingPeriodStatus stage)); [|destruct H].
    unfold waiting_label in Hd.
    destruct (ustr_eqb (get_str (waitingPeriodStatus stage)) (u "during"))
      eqn:E.
    + assert (Hc : contains (u "等待期内") d = true).
      { rewrite Hd. apply label_in_description.
        apply in_or_app; left; now left. }
      rewrite Hc in H. cbn [negb andb] in H.
      apply ustr_eqb_eq in E. rewrite E in H. destruct H.
    + cbn [andb] in H.
      destruct (ustr_eqb (get_str (waitingPeriodStatus stage)) (u "after"));
        [|destruct H].
      assert (Hc : contains (u "等待期后") d = true).
      { rewrite Hd. apply label_in_description.
        apply in_or_app; left; now left. }
      rewrite Hc in H. destruct H.
  - (* age conditions *)
    left. destruct (get_list (ageConditions stage)); [destruct H|].
    destruct (existsb _ _); [destruct H | destruct H as [<- | []]].
    reflexivity.
  - (* policy year *)
    right. left. destruct (policyYearRange stage); [|destruct H].
    destruct (_ || _); [destruct H | destruct H as [<- | []]].
    reflexivity.
  - (* payment period *)
    exfalso. destruct (nonempty (paymentPeriodStatus stage)); [|destruct H].
    unfold payment_label in Hd.
    destruct (ustr_eqb (get_str (paymentPeriodStatus stage)) (u "during"))
      eqn:E.
    + assert (Hc : contains (u "交费期内") d = true).
      { rewrite Hd. apply label_in_description.
        apply in_or_app; right; apply in_or_app; right; now left. }
      rewrite Hc in H. cbn [negb andb] in H.
      apply ustr_eqb_eq in E. rewrite E in H. destruct H.
    + cbn [andb] in H.
      destruct (ustr_eqb (get_str (paymentPeriodStatus stage)) (u "after"));
        [|destruct H].
      assert (Hc : contains (u "交费期满") d = true).
      { apply contains_trans with (b := u "交费期满后"); [reflexivity|].
        rewrite Hd. apply label_in_description.
        apply in_or_app; right; apply in_or_app; right; now left. }
      rewrite Hc in H. destruct H.
  - (* continuous payment *)
    exfalso. unfold continuous_suffix in Hd.
    destruct (continuousPayment stage) as [cp|]; [|destruct H].
    destruct (ustr_eqb (cp_type cp) (u "fixed_count")) eqn:E.
    + destruct (nonzero (totalCount cp)); cbn [andb] in H.
      * assert (Hc : contains (u "分" ++ fmt (totalCount cp) ++ u "次") d
                     = true).
        { rewrite Hd. apply contains_app_r, contains_app_r.
          apply contains_spec. exists (u "（"), (u "）").
          now rewrite <- !app_assoc. }
        rewrite Hc in H. destruct H.
      * apply ustr_eqb_eq in E. rewrite E in H. destruct H.
    + cbn [andb] in H.
      destruct (ustr_eqb (cp_type cp) (u "until_termination"));
        [|destruct H].
      assert (Hc : contains (u "持续给付") d = true).
      { rewrite Hd. apply contains_app_r, contains_app_r. reflexivity. }
      rewrite Hc in H. destruct H.
  - (* formula *)
    right. right.
    destruct (nonempty (formula stage) && _); [|destruct H].
    destruct (search ratio_pattern _); [|destruct H].
    destruct (negb _); [destruct H as [<- | []] | destruct H].
    reflexivity.
Qed.

Lemma repaired_description_misses_witness :
  exists d,
    fix_description_completeness annuity_stage [] = Some d
    /\ snd (check_description_completeness
              (set_description annuity_stage (Some d)) [])
       = [u "赔付比例(50%)"]
    /\ startswith (u "赔付比例(50%)") (u "赔付比例(") = true.
Proof.
  eexists. split; [vm_compute; reflexivity|]. split; [reflexivity|].
  destruct (@repaired_description_misses annuity_stage [] _
              (u "赔付比例(50%)") eq_refl (or_introl eq_refl))
    as [H | [H | H]]; [discriminate | discriminate | exact H].
Defined.

End RepairedDescription.

(* ================================================================== *)
(** * The frequency repair on a payment of another type *)
(* ================================================================== *)

Section FrequencyRepair.
Import Text TextFacts Corpus Validators Fixers Vocabulary RepairTerms.

(** X10.  When [add_continuous_payment_frequency] leaves a stage for
    which [has_continuous_payment_frequency] is still false (a
    continuous payment whose type is neither ['fixed_count'] nor
    ['until_termination']), it has changed nothing and yet reports a
    change. *)
Theorem frequency_repair_reports_unchanged_stage :
  forall stage : Stage,
    has_continuous_payment_frequency
      (fst (add_continuous_payment_frequency stage)) = false ->
    add_continuous_payment_frequency stage = (stage, true).
Proof.
  intros stage. unfold add_continuous_payment_frequency.
  destruct (continuousPayment stage) as [cp|] eqn:Hcp.
  - destruct (frequency cp) eqn:Hf.
    + cbn [fst]. unfold has_continuous_payment_frequency.
      rewrite Hcp, Hf. discriminate.
    + destruct (ustr_eqb (cp_type cp) (u "fixed_count")
                || ustr_eqb (cp_type cp) (u "until_termination"));
        [|reflexivity].
      cbn. discriminate.
  - cbn [fst]. unfold has_continuous_payment_frequency. rewrite Hcp.
    discriminate.
Qed.

Lemma frequency_repair_reports_unchanged_stage_witness :
  add_continuous_payment_frequency lifelong_stage = (lifelong_stage, true).
Proof.
  exact (@frequency_repair_reports_unchanged_stage lifelong_stage eq_refl).
Defined.

End FrequencyRepair.

(* ================================================================== *)
(** * What apply_fixes leaves alone *)
(* ================================================================== *)

Section ApplyFixesFrame.
Import Text TextFacts Regex Corpus Validators Fixers Reviewer Vocabulary.

Lemma insert_issue_perm (i : Issue) (l : list Issue) :
  Permutation (i :: l) (insert_issue i l).
Proof.
  induction l as [|j l IH]; cbn [insert_issue]; [reflexivity|].
  destruct (_ <=? _)%Z; [reflexivity|].
  rewrite perm_swap. now constructor.
Qed.

Lemma insert_issue_sorted (i : Issue) (l : list Issue) :
  Sorted by_rank l -> Sorted by_rank (insert_issue i l).
Proof.
  induction 1 as [|j l Hs IH Hd]; cbn [insert_issue]; [repeat constructor|].
  destruct (Z.leb_spec (severity_rank (severity i))
                       (severity_rank (severity j))) as [Hle|Hgt].
  - constructor; [now constructor|]. now constructor.
  - constructor; [assumption|].
    destruct l as [|k l]; cbn [insert_issue].
    + constructor. unfold by_rank. lia.
    + destruct (_ <=? _)%Z; constructor; [unfold by_rank; lia|].
      now inversion Hd.
Qed.

(** X11.  [apply_fixes] handles the findings by severity, P0 before P1
    before anything else, and handles each of them: the sorted list is
    a rearrangement of the findings, ordered by rank. *)
Theorem sort_issues_ordered :
  forall issues : list Issue,
    Sorted by_rank (sort_issues issues)
    /\ Permutation issues (sort_issues issues).
Proof.
  induction issues as [|i l [IH1 IH2]]; cbn [sort_issues];
    [split; constructor|].
  split; [now apply insert_issue_sorted|].
  rewrite <- insert_issue_perm. now constructor.
Qed.

Lemma fix_payment_period_stages_skeleton (ps : ustr) (stages : list Stage) :
  map stage_skeleton (fst (fix_payment_period_stages ps stages))
  = map stage_skeleton stages.
Proof.
  induction stages as [|st rest IH]; [reflexivity|].
  cbn [fix_payment_period_stages].
  assert (Hs : stage_skeleton (fst (fix_payment_period_stage ps st))
               = stage_skeleton st).
  { unfold fix_payment_period_stage.
    destruct (paymentPeriodStatus st); [reflexivity|].
    destruct (get_str (naturalLanguageDescription st)); reflexivity. }
  destruct (fix_payment_period_stage ps st) as [st' ch].
  destruct (fix_payment_period_stages ps rest) as [rest' n].
  cbn [fst map] in *. now rewrite Hs, IH.
Qed.

Lemma update_nth_skeleton (A B : Type) (f : A -> B) (k : nat) (x y : A)
    (l : list A) :
  nth_error l k = Some y -> f x = f y ->
  map f (update_nth k x l) = map f l.
Proof.
  revert k. induction l as [|z l IH]; intros k Hn Hf;
    [destruct k; discriminate|].
  destruct k as [|k]; cbn in *.
  - injection Hn as ->. now rewrite Hf.
  - f_equal. now apply IH.
Qed.

Lemma on_stage_skeleton (case case' : Case) (idx : Z)
    (f : Stage -> Stage * bool) (b : bool) :
  (forall st, stage_skeleton (fst (f st)) = stage_skeleton st) ->
  on_stage case idx f = Some (case', b) ->
  case_skeleton case' = case_skeleton case.
Proof.
  intros Hf. unfold on_stage.
  destruct (idx <? Z.of_nat (length (get_list (payoutAmount case))))%Z;
    [|intros H; now injection H as <- <-].
  destruct (py_position idx (length (get_list (payoutAmount case))))
    as [k|]; [|discriminate].
  destruct (nth_error (get_list (payoutAmount case)) k) as [st|] eqn:Hn;
    [|discriminate].
  specialize (Hf st). destruct (f st) as [st' fixed]. cbn [fst] in Hf.
  intros H. injection H as <- <-.
  destruct (payoutAmount case) as [stages|] eqn:Hp.
  - unfold case_skeleton. cbn [set_payoutAmount seq name clause case_note
                               case_description payoutAmount option_map].
    rewrite Hp. cbn [option_map get_list] in *.
    now rewrite (@update_nth_skeleton _ _ stage_skeleton _ _ _ _ Hn Hf).
  - cbn [get_list] in Hn. destruct k; discriminate.
Qed.

Lemma apply_issue_skeleton (issue : Issue) (case case' : Case) (b : bool) :
  apply_issue issue case = Some (case', b) ->
  case_skeleton case' = case_skeleton case.
Proof.
  unfold apply_issue.
  destruct (ustr_eqb (issue_type issue) (u "missing_cumulative_limit")).
  { intros H. injection H as H. apply (f_equal fst) in H.
    cbn [fst] in H. rewrite <- H. unfold fix_cumulative_limit_note.
    destruct (has_cumulative_limit _); [|reflexivity].
    destruct (negb (truthy p)); [reflexivity|].
    match goal with
    | |- context [if ?c then (case, false) else _] => destruct c
    end; reflexivity. }
  destruct (ustr_eqb (issue_type issue) (u "missing_termination_note")).
  { intros H. injection H as H. apply (f_equal fst) in H.
    cbn [fst] in H. rewrite <- H. unfold fix_termination_note.
    destruct (negb (has_termination _)); [reflexivity|].
    match goal with
    | |- context [if ?c then (case, false) else _] => destruct c
    end; reflexivity. }
  destruct (ustr_eqb (issue_type issue) (u "missing_payment_period")).
  { destruct (_ <? _)%Z; [|intros H; now injection H as <- <-].
    unfold fix_payment_period.
    destruct (detect_payment_period _) as [ps|];
      [|intros H; now injection H as <- <-].
    destruct (payoutAmount case) as [stages|] eqn:Hp;
      [|intros H; now injection H as <- <-].
    pose proof (fix_payment_period_stages_skeleton ps stages) as Hs.
    destruct (fix_payment_period_stages ps stages) as [stages' n].
    cbn [fst] in Hs. intros H. injection H as <- <-.
    unfold case_skeleton.
    cbn [set_payoutAmount seq name clause case_note case_description
         payoutAmount option_map].
    now rewrite Hp, Hs. }
  destruct (ustr_eqb (issue_type issue) (u "incomplete_description")).
  { apply on_stage_skeleton. intros st.
    destruct (fix_description_completeness st _) as [[|c d]|]; reflexivity. }
  destruct (ustr_eqb (issue_type issue) (u "stage_level_note")).
  { apply on_stage_skeleton. intros st. unfold remove_stage_level_note.
    destruct (note st); reflexivity. }
  destruct (ustr_eqb (issue_type issue) (u "missing_frequency")).
  { apply on_stage_skeleton. intros st.
    unfold add_continuous_payment_frequency.
    destruct (continuousPayment st) as [cp|] eqn:Hc; [|reflexivity].
    destruct (frequency cp) eqn:Hf; [reflexivity|].
    destruct (_ || _); [|reflexivity].
    unfold stage_skeleton. cbn. now rewrite Hc. }
  intros H. now injection H as <- <-.
Qed.

Lemma apply_sorted_skeleton (issues : list Issue) :
  forall (cases cases' : list Case) (n k : Z),
    apply_sorted issues cases n = Some (cases', k) ->
    map case_skeleton cases' = map case_skeleton cases.
Proof.
  induction issues as [|issue rest IH]; intros cases cases' n k;
    cbn [apply_sorted].
  - intros H. now injection H as <- _.
  - destruct (case_index cases (case_number issue) 0) as [i|]; [|apply IH].
    destruct (nth_error cases i) as [case|] eqn:Hn; [|apply IH].
    destruct (apply_issue issue case) as [[case' fixed]|] eqn:Ha;
      [|discriminate].
    intros H. apply IH in H. rewrite H.
    apply (@update_nth_skeleton _ _ case_skeleton _ _ _ _ Hn).
    exact (apply_issue_skeleton _ _ Ha).
Qed.

(** X12.  A pass of [apply_fixes] that returns changes only the notes,
    the descriptions, the payment-period statuses and the frequencies:
    the cases, their numbers, names and clauses, the number of stages of
    each and, in every stage, the formula, the waiting-period status,
    the age conditions and the policy-year range are as before. *)
Theorem apply_fixes_keeps_skeleton :
  forall (issues : list Issue) (cases cases' : list Case) (k : Z),
    apply_fixes issues cases = Some (cases', k) ->
    map case_skeleton cases' = map case_skeleton cases.
Proof.
  intros issues cases cases' k H.
  exact (@apply_sorted_skeleton _ _ _ _ _ H).
Qed.

Lemma apply_fixes_keeps_skeleton_witness :
  exists cases' k,
    apply_fixes (run_auto_checks [annuity_case]) [annuity_case]
    = Some (cases', k)
    /\ map case_skeleton cases' = map case_skeleton [annuity_case].
Proof.
  eexists. eexists. split.
  - vm_compute. reflexivity.
  - apply (@apply_fixes_keeps_skeleton (run_auto_checks [annuity_case])
             [annuity_case] _ 1%Z).
    vm_compute. reflexivity.
Defined.

End ApplyFixesFrame.

(* ================================================================== *)
(** * fix_case, run again and checked *)
(* ================================================================== *)

Section FixCaseAgain.
Import Text TextFacts Corpus FixAllIssues Reviewer Vocabulary RepairTerms.

Lemma fix_stage_settled (st : Stage) : settled (fst (fst (fix_stage st))).
Proof.
  unfold fix_stage, settled. destruct (note st) eqn:Hn.
  - change (continuousPayment (set_note st None))
      with (continuousPayment st).
    destruct (continuousPayment st) as [cp|] eqn:Hc.
    + destruct (frequency cp) eqn:Hf; cbn; [|split; congruence].
      rewrite Hc. split; congruence.
    + cbn. rewrite Hc. tauto.
  - destruct (continuousPayment st) as [cp|] eqn:Hc.
    + destruct (frequency cp) eqn:Hf; cbn; [|split; congruence].
      rewrite Hc. split; congruence.
    + cbn. rewrite Hc. tauto.
Qed.

Lemma fix_stage_of_settled (st : Stage) :
  settled st -> fix_stage st = (st, [], false).
Proof.
  intros [Hn Hc]. unfold fix_stage. rewrite Hn.
  destruct (continuousPayment st) as [cp|]; [|reflexivity].
  destruct (frequency cp); [reflexivity | congruence].
Qed.

Lemma fix_stages_settled (stages : list Stage) :
  Forall settled (fst (fst (fix_stages stages))).
Proof.
  induction stages as [|st rest IH]; [constructor|].
  cbn [fix_stages]. pose proof (fix_stage_settled st) as Hs.
  destruct (fix_stage st) as [[st' parts] f1].
  destruct (fix_stages rest) as [[rest' all_notes] f2].
  cbn [fst] in *. now constructor.
Qed.

Lemma fix_stages_of_settled (stages : list Stage) :
  Forall settled stages -> fix_stages stages = (stages, [], false).
Proof.
  induction 1 as [|st rest Hst Hrest IH]; [reflexivity|].
  cbn [fix_stages]. now rewrite (fix_stage_of_settled Hst), IH.
Qed.

(** What [fix_case] returns for a case with stages. *)
Lemma fix_case_result (case : Case) (stages : list Stage) :
  payoutAmount case = Some stages ->
  exists n,
    fst (fix_case case)
    = {| seq := seq case; name := name case; clause := clause case;
         case_note := n; case_description := None;
         payoutAmount := Some (fst (fst (fix_stages stages))) |}.
Proof.
  intros Hp. destruct case as [sq nm cl cn cd pa]. cbn in Hp. subst pa.
  unfold fix_case. cbn [payoutAmount case_description].
  destruct (fix_stages stages) as [[stages' all_notes] f2]. cbn [fst].
  destruct cd; destruct (unique_notes all_notes); eexists; reflexivity.
Qed.

(** X13.  [fix_case] is idempotent: on the case it returns, a second
    call changes nothing and returns False. *)
Theorem fix_case_idempotent :
  forall case : Case,
    fix_case (fst (fix_case case)) = (fst (fix_case case), false).
Proof.
  intros case. destruct (payoutAmount case) as [stages|] eqn:Hp.
  - destruct (fix_case_result case Hp) as [n ->].
    unfold fix_case at 1. cbn [payoutAmount case_description].
    rewrite (fix_stages_of_settled (fix_stages_settled stages)).
    reflexivity.
  - unfold fix_case at 2 3. rewrite Hp. cbn [fst].
    unfold fix_case. now rewrite Hp.
Qed.

Lemma no_note_issue (case : Case) (stages : list Stage) (i : Z) :
  Forall settled stages ->
  flat_map
    (fun '(stage_idx, st) =>
       match note st with
       | Some _ =>
         [mk_issue "P0" "stage_level_note" case (Some stage_idx) None
            (u "note应该在案例级别，不应在stage级别")]
       | None => []
       end)
    (enumerate_from i stages) = [].
Proof.
  intros H. revert i. induction H as [|st rest [Hn _] Hrest IH]; intros i;
    [reflexivity|].
  cbn [enumerate_from flat_map]. rewrite Hn. apply IH.
Qed.

Lemma no_frequency_issue (case : Case) (stages : list Stage) (i : Z) :
  Forall settled stages ->
  flat_map
    (fun '(stage_idx, st) =>
       match continuousPayment st with
       | Some cp =>
         match frequency cp with
         | None =>
           [mk_issue "P2" "missing_frequency" case (Some stage_idx) None
              (u "continuousPayment缺少frequency字段")]
         | Some _ => []
         end
       | None => []
       end)
    (enumerate_from i stages) = [].
Proof.
  intros H. revert i. induction H as [|st rest [_ Hc] Hrest IH]; intros i;
    [reflexivity|].
  cbn [enumerate_from flat_map].
  destruct (continuousPayment st) as [cp|]; [|apply IH].
  destruct (frequency cp); [apply IH | congruence].
Qed.

(** X14.  After [fix_case] the checks of [run_auto_checks] for a note on
    a stage and for a continuousPayment without frequency report
    nothing for the case, and a case with stages has no description at
    case level. *)
Theorem fix_case_resolves :
  forall case : Case,
    check_stage_notes (fst (fix_case case)) = []
    /\ check_frequency (fst (fix_case case)) = []
    /\ (payoutAmount case = None
        \/ case_description (fst (fix_case case)) = None).
Proof.
  intros case. destruct (payoutAmount case) as [stages|] eqn:Hp.
  - destruct (fix_case_result case Hp) as [n ->].
    unfold check_stage_notes, check_frequency.
    cbn [payoutAmount get_list case_description].
    pose proof (fix_stages_settled stages) as Hs.
    split; [now apply no_note_issue|].
    split; [now apply no_frequency_issue | now right].
  - unfold fix_case. rewrite Hp. cbn [fst].
    unfold check_stage_notes, check_frequency. rewrite Hp.
    repeat split. now left.
Qed.

End FixCaseAgain.

(* ================================================================== *)
(** * The merge, run again; the shape of a parsed case *)
(* ================================================================== *)

Section MergeAgain.
Import Text TextFacts Batch14Complex Batch14Final Vocabulary.

Lemma insert_by_seq_head (c : Case) (l : list Case) :
  HdRel by_seq c l -> insert_by_seq c l = c :: l.
Proof.
  intros H. destruct l as [|d l]; [reflexivity|].
  cbn [insert_by_seq]. inversion H as [|? ? Hcd]; subst.
  unfold by_seq in Hcd. apply Z.leb_le in Hcd. now rewrite Hcd.
Qed.

(** Sorting a collection that is already ordered returns it as it
    is. *)
Lemma sort_by_seq_fixed (l : list Case) : Sorted by_seq l -> sort_by_seq l = l.
Proof.
  induction 1 as [|c l Hs IH Hd]; [reflexivity|].
  cbn [sort_by_seq]. rewrite IH. now apply insert_by_seq_head.
Qed.

Lemma new_cases_known (parsed parsed' : list Z) (lines : list ustr) :
  (forall z, In z parsed -> In z parsed') ->
  forall fresh,
    new_cases parsed lines = Some fresh ->
    (forall c, In c fresh -> In (seq c) parsed') ->
    new_cases parsed' lines = Some [].
Proof.
  intros Hsub. induction lines as [|line rest IH]; intros fresh;
    [reflexivity|].
  cbn [new_cases]. set (parts := split (strip line) (u "|||")).
  destruct ((5 <=? length parts)%nat && isdigit (item parts 0));
    [|exact (IH fresh)].
  destruct (py_int (item parts 0)) as [seq0|]; [|discriminate].
  destruct (existsb (Z.eqb seq0) parsed) eqn:He; cbn [negb andb].
  - intros Hf Hnew. apply existsb_Zeqb in He. apply Hsub in He.
    apply existsb_Zeqb in He. rewrite He. cbn [negb andb].
    now apply (IH fresh).
  - destruct (seq0 <=? 2800)%Z.
    + destruct (new_cases parsed rest) as [tail|]; [|discriminate].
      intros [= <-] Hnew.
      assert (Hin : In seq0 parsed').
      { rewrite <- (parse_remaining_case_seq seq0 (item parts 1)
                      (item parts 2) (item parts 3) (item parts 4)).
        apply Hnew. now left. }
      apply existsb_Zeqb in Hin. rewrite Hin. cbn [negb andb].
      apply (IH tail); [reflexivity|]. intros c Hc. apply Hnew. now right.
    + intros Hf Hnew. rewrite andb_false_r. now apply (IH fresh).
Qed.

(** X15.  Running the merge of [main] again, on the collection it wrote
    and the same raw file, changes nothing: every line is now the line
    of a case the collection has. *)
Theorem merge_cases_again :
  forall (existing merged : list Case) (lines : list ustr),
    merge_cases existing lines = Some merged ->
    merge_cases merged lines = Some merged.
Proof.
  intros existing merged lines. unfold merge_cases.
  destruct (new_cases (map seq existing) lines) as [fresh|] eqn:Hnew;
    [|discriminate].
  intros [= <-].
  set (merged := sort_by_seq (existing ++ fresh)).
  assert (Hperm : Permutation (existing ++ fresh) merged)
    by apply sort_by_seq_perm.
  assert (Hnone : new_cases (map seq merged) lines = Some []).
  { apply new_cases_known with (parsed := map seq existing) (fresh := fresh).
    - intros z Hz. apply in_map_iff in Hz as [c [<- Hc]].
      apply in_map. apply (Permutation_in c Hperm).
      apply in_or_app. now left.
    - exact Hnew.
    - intros c Hc. apply in_map. apply (Permutation_in c Hperm).
      apply in_or_app. now right. }
  rewrite Hnone, app_nil_r. f_equal.
  apply sort_by_seq_fixed. apply sort_by_seq_sorted.
Qed.

(** The theorem on the corpus with 2601 and a raw file with 2601 and
    2600: the second run returns the two cases of the first. *)
Lemma merge_cases_again_witness :
  exists merged,
    merge_cases corpus_2601 [line_2601; line_2600] = Some merged
    /\ map seq merged = [2600%Z; 2601%Z]
    /\ merge_cases merged [line_2601; line_2600] = Some merged.
Proof.
  eexists.
  assert (Hm : merge_cases corpus_2601 [line_2601; line_2600] = Some _)
    by (vm_compute; reflexivity).
  split; [exact Hm|]. split; [vm_compute; reflexivity|].
  exact (merge_cases_again _ _ Hm).
Defined.

(** X16.  The case [parse_remaining_case] returns carries the sequence
    number, product code, category and name it was given, and has one
    stage, numbered 1, or two stages, numbered 1 and 2; it has two
    exactly for a clause with premium-return wording and a
    waiting-period marker and without a reference to a table. *)
Theorem parse_remaining_case_shape :
  forall (seq0 : Z) (code0 category0 name0 text : ustr),
    let c := parse_remaining_case seq0 code0 category0 name0 text in
    seq c = seq0 /\ code c = code0 /\ category c = category0
    /\ name c = name0
    /\ map stageNumber (payoutAmount c)
       = (if negb (has_table text) && has_premium text && has_waiting text
          then [1%Z; 2%Z] else [1%Z]).
Proof.
  intros seq0 code0 category0 name0 text c. subst c.
  unfold parse_remaining_case, single_stage_case, waiting_split_case.
  destruct (has_table text); cbn [negb andb];
    [repeat split|].
  destruct (has_premium text); cbn [andb];
    [destruct (has_waiting text); repeat split|].
  destruct (contains (u "现金价值") text); [repeat split|].
  destruct (contains (u "%") text); [|repeat split].
  destruct (Regex.search _ text); repeat split.
Qed.

End MergeAgain.

(* ================================================================== *)
(** * The formulas of the extractor before the validator *)
(* ================================================================== *)

Section ExtractedFormulas.
Import Text TextFacts Regex Validators FormulaValidator Batch14Complex
       Batch14Final ExtractionTerms.

Lemma validate_formula_nonempty (formula : ustr) :
  formula <> [] ->
  validate_formula formula
  = match first_invalid invalid_chars formula with
    | Some msg => (false, msg)
    | None =>
      if existsb (fun p => found p (replace formula (u " ") []))
                 valid_patterns
      then (true, [])
      else (false, u "公式格式不符合规范")
    end.
Proof. destruct formula; [congruence | reflexivity]. Qed.

(** A formula that opens with the sum insured and then holds a captured
    percentage passes the validator. *)
Lemma percent_formula_valid (text : ustr) (m : match_obj) :
  search percent_pattern text = Some m ->
  validate_formula (u "基本保额 * " ++ group_text m 1 ++ u "%") = (true, []).
Proof.
  intros H. destruct (@search_match _ _ _ H) as [pre [suf [_ Hm]]].
  pose proof (@match_at_group _ _ _ 1 Hm) as Hw.
  set (percent := group_text m 1) in *.
  assert (Hno : forall ch, In ch invalid_chars ->
                  contains ch (u "基本保额 * " ++ percent ++ u "%") = false).
  { intros ch Hch.
    assert (Hc : exists c, ch = [c]
                   /\ alphabet percent_pattern c = false
                   /\ ~ In c (u "基本保额 * ") /\ ~ In c (u "%")).
    { destruct Hch as [<- | [<- | [<- | [<- | []]]]];
        eexists; (split; [reflexivity|]);
        (split; [vm_compute; reflexivity|]); split; vm_compute;
        intuition discriminate. }
    destruct Hc as [c [-> [Ha [H1 H2]]]].
    destruct (contains [c] _) eqn:Hc; [|reflexivity].
    apply contains_char in Hc. rewrite !in_app_iff in Hc.
    destruct Hc as [Hc | [Hc | Hc]]; [tauto | | tauto].
    unfold written_in in Hw. rewrite Forall_forall in Hw.
    rewrite (Hw _ Hc) in Ha. discriminate. }
  rewrite validate_formula_nonempty.
  2:{ intros Hf. apply (f_equal (@length N)) in Hf. rewrite length_app in Hf.
      vm_compute (length (u "基本保额 * ")) in Hf. discriminate. }
  replace (first_invalid invalid_chars _) with (@None ustr).
  2:{ unfold invalid_chars, first_invalid.
      rewrite !Hno by (vm_compute; tauto). reflexivity. }
  replace (existsb _ valid_patterns) with true; [reflexivity|].
  symmetry. unfold valid_patterns. cbn [existsb]. apply orb_true_iff. left.
  unfold found.
  change (u " ") with [32%N]. rewrite replace_char, flat_map_app.
  change (flat_map _ (u "基本保额 * ")) with (u "基本保额" ++ u "*").
  rewrite <- app_assoc.
  erewrite match_at_search; [reflexivity|].
  unfold match_at, L. cbn [rmatch].
  rewrite (proj2 (strip_prefix_spec _ _ _) eq_refl). reflexivity.
Qed.

(** X17.  The formula [parse_remaining_case] writes for a clause that
    refers to a table is the one formula [validate_formula] rejects;
    every other formula it writes, the captured percentage included,
    passes the validator. *)
Theorem parse_remaining_case_formulas :
  forall (seq0 : Z) (code0 category0 name0 text : ustr),
    let verdicts :=
      map (fun s => validate_formula (Batch14Final.formula s))
          (payoutAmount
             (parse_remaining_case seq0 code0 category0 name0 text)) in
    if has_table text
    then verdicts = [(false, u "公式格式不符合规范")]
    else Forall (fun v => v = (true, [])) verdicts.
Proof.
  intros seq0 code0 category0 name0 text. cbv zeta.
  unfold parse_remaining_case. cbv zeta.
  destruct (has_table text); [reflexivity|].
  destruct (has_premium text).
  { destruct (has_waiting text); repeat constructor. }
  destruct (contains (u "现金价值") text); [repeat constructor|].
  destruct (contains (u "%") text); [|repeat constructor].
  fold percent_pattern.
  destruct (search percent_pattern text) as [m|] eqn:Hm;
    [|repeat constructor].
  unfold single_stage_case. cbv zeta.
  cbn [payoutAmount map Batch14Final.formula].
  constructor; [|constructor].
  exact (@percent_formula_valid _ _ Hm).
Qed.

End ExtractedFormulas.

(* ================================================================== *)
(** * The numerals the extractor reads *)
(* ================================================================== *)

Section NumeralBounds.
Import Text TextFacts Batch14Complex Vocabulary ExtractionTerms.

Lemma cn_char_value (c : N) :
  In c cn_chars ->
  (1 <= dict_get0 CHINESE_NUM_MAP [c] <= 10)%Z
  /\ (c <> 21313%N -> (dict_get0 CHINESE_NUM_MAP [c] <= 9)%Z).
Proof.
  intros H. vm_compute in H.
  repeat (destruct H as [<- | H];
          [split; [vm_compute; split; discriminate
                  | intros Hc; try congruence; vm_compute; discriminate]|]).
  destruct H.
Qed.

Lemma dict_get_In (d : list (ustr * Z)) (k : ustr) (v : Z) :
  dict_get d k = Some v -> In (k, v) d.
Proof.
  induction d as [|[k0 v0] d IH]; [discriminate|].
  cbn [dict_get]. destruct (ustr_eqb k k0) eqn:He.
  - intros H. injection H as ->. apply ustr_eqb_eq in He. subst. now left.
  - intros H. right. now apply IH.
Qed.

Lemma table_value (t : ustr) (v : Z) :
  Forall (fun c => In c cn_chars) t ->
  dict_get CHINESE_NUM_MAP t = Some v -> (1 <= v <= 100)%Z.
Proof.
  intros Ht Hg. apply dict_get_In in Hg.
  repeat (destruct Hg as [Hg | Hg];
          [injection Hg as <- <-; try lia|]).
  - exfalso. inversion Ht as [|? ? Hc _]; subst.
    vm_compute in Hc. intuition discriminate.
  - destruct Hg.
Qed.

(** X18.  For a token made of the characters 一 to 十 - what the
    patterns of the extractor capture - [chinese_to_num] returns no
    value or a number from 1 to 100: never 0, which its callers would
    take for no value, and nothing above 100. *)
Theorem chinese_to_num_bounds :
  forall (t : ustr) (v : Z),
    Forall (fun c => In c cn_chars) t ->
    chinese_to_num t = Some v ->
    (1 <= v <= 100)%Z.
Proof.
  intros t v Ht. unfold chinese_to_num.
  destruct t as [|c0 r]; [discriminate|].
  destruct (dict_get CHINESE_NUM_MAP (c0 :: r)) as [w|] eqn:Hg.
  { intros H. injection H as <-. exact (table_value Ht Hg). }
  destruct (contains (u "十") (c0 :: r)); [|discriminate].
  destruct (ustr_eqb (c0 :: r) (u "十")); [intros H; injection H as <-; lia|].
  inversion Ht as [|? ? Hc0 Hr]; subst.
  destruct (startswith (c0 :: r) (u "十")) eqn:Hs.
  - destruct r as [|c1 r]; [discriminate|].
    inversion Hr as [|? ? Hc1 _]; subst.
    destruct (cn_char_value Hc1) as [[Hl1 Hh1] _]. cbv zeta.
    set (ones := dict_get0 CHINESE_NUM_MAP [c1]) in *.
    intros Hv. assert (Hv' : (10 + ones)%Z = v) by congruence. lia.
  - assert (Hne : c0 <> 21313%N).
    { intros ->. discriminate. }
    destruct (cn_char_value Hc0) as [[Hlo _] Hhi]. specialize (Hhi Hne).
    destruct r as [|c1 [|c2 [|c3 r]]]; try discriminate.
    + cbv zeta. set (tens := dict_get0 CHINESE_NUM_MAP [c0]) in *.
      destruct (tens >? 0)%Z; [|discriminate].
      intros Hv. assert (Hv' : (tens * 10)%Z = v) by congruence. lia.
    + inversion Hr as [|? ? _ Hr']; subst.
      inversion Hr' as [|? ? Hc2 _]; subst.
      destruct (cn_char_value Hc2) as [[Hl2 Hh2] _]. cbv zeta.
      set (tens := dict_get0 CHINESE_NUM_MAP [c0]) in *.
      set (ones := dict_get0 CHINESE_NUM_MAP [c2]) in *.
      destruct (tens >? 0)%Z; [|discriminate].
      intros Hv. assert (Hv' : (tens * 10 + ones)%Z = v) by congruence. lia.
Qed.

Lemma chinese_to_num_bounds_witness :
  chinese_to_num (u "九十十") = Some 100%Z /\ (1 <= 100 <= 100)%Z.
Proof.
  assert (Ht : Forall (fun c => In c cn_chars) (u "九十十")).
  { vm_compute. repeat (apply Forall_cons; [tauto|]). apply Forall_nil. }
  assert (Hv : chinese_to_num (u "九十十") = Some 100%Z)
    by (vm_compute; reflexivity).
  exact (conj Hv (@chinese_to_num_bounds _ _ Ht Hv)).
Defined.

End NumeralBounds.

(* ================================================================== *)
(** * The age conditions of a clause *)
(* ================================================================== *)

Section AgeConditions.
Import Text TextFacts Regex Batch14Complex Vocabulary ExtractionTerms.

Lemma in_seen_In (key : ustr) (seen : list ustr) :
  in_seen key seen = true <-> In key seen.
Proof.
  unfold in_seen. rewrite existsb_exists. split.
  - intros [y [Hy He]]. apply ustr_eqb_eq in He. now subst.
  - intros H. exists key. split; [assumption | apply ustr_eqb_refl].
Qed.

Lemma age_step_ok (extractor : match_obj -> option rule_result)
    (st : age_state) (m : match_obj) :
  age_state_ok st -> age_state_ok (age_step extractor st m).
Proof.
  intros Hok. unfold age_step. destruct st as [conditions seen].
  destruct (extractor m) as [[a b | age_type op [v|]]|]; try exact Hok.
  - destruct (in_seen _ seen) eqn:Hs; [exact Hok|].
    unfold age_state_ok in *. cbn [fst snd] in *.
    destruct Hok as [Hk [Hnd Hall]].
    split; [|split].
    + rewrite map_app, Hk. reflexivity.
    + constructor; [|assumption]. intros Hin.
      apply in_seen_In in Hin. congruence.
    + apply Forall_app. split; [assumption|].
      constructor; [discriminate | constructor].
  - destruct (in_seen _ seen) eqn:Hs; [exact Hok|].
    unfold age_state_ok in *. cbn [fst snd] in *.
    destruct Hok as [Hk [Hnd Hall]].
    split; [|split].
    + rewrite map_app, Hk. reflexivity.
    + constructor; [|assumption]. intros Hin.
      apply in_seen_In in Hin. congruence.
    + apply Forall_app. split; [assumption|].
      constructor; [discriminate | constructor].
Qed.

Lemma fold_age_step_ok (extractor : match_obj -> option rule_result)
    (ms : list match_obj) :
  forall st, age_state_ok st ->
             age_state_ok (fold_left (age_step extractor) ms st).
Proof.
  induction ms as [|m ms IH]; intros st Hok; [exact Hok|].
  cbn [fold_left]. apply IH. now apply age_step_ok.
Qed.

Lemma fold_patterns_ok (text : ustr)
    (ps : list (regex * (match_obj -> option rule_result))) :
  forall st, age_state_ok st ->
    age_state_ok
      (fold_left
         (fun st pe =>
            fold_left (age_step (snd pe)) (finditer (fst pe) text) st)
         ps st).
Proof.
  induction ps as [|pe ps IH]; intros st Hok; [exact Hok|].
  cbn [fold_left]. apply IH. now apply fold_age_step_ok.
Qed.

(** X19.  The conditions [extract_age_conditions] returns are filed
    under distinct keys - the same threshold found by two rules, or
    twice by one, is kept once - so no condition is returned twice;
    there is at least one; and a condition that is not a range has an
    age. *)
Theorem extract_age_conditions_distinct :
  forall (text : ustr) (conditions : list AgeCondition),
    extract_age_conditions text = Some conditions ->
    conditions <> []
    /\ NoDup (map age_key conditions)
    /\ NoDup conditions
    /\ Forall (fun c => maxAge c = None -> age c <> None) conditions.
Proof.
  intros text conditions. unfold extract_age_conditions. cbv zeta.
  match goal with |- context [fst ?x] => set (st := x) end.
  assert (Hok : age_state_ok st).
  { apply fold_patterns_ok. repeat split; constructor. }
  clearbody st. destruct st as [conds seen].
  destruct Hok as [Hk [Hnd Hall]]. cbn [fst snd] in *.
  destruct conds as [|c cs]; [discriminate|].
  intros H. injection H as <-.
  assert (Hkeys : NoDup (map age_key (c :: cs))).
  { rewrite Hk. apply NoDup_rev. exact Hnd. }
  split; [discriminate|]. split; [exact Hkeys|].
  split; [exact (NoDup_map_inv _ _ Hkeys) | exact Hall].
Qed.

Lemma extract_age_conditions_distinct_witness :
  exists conditions,
    extract_age_conditions (u "确诊时未满18周岁，或者未满18周岁且在60周岁前")
    = Some conditions
    /\ length conditions = 2
    /\ NoDup conditions.
Proof.
  eexists. split; [vm_compute; reflexivity|]. split; [reflexivity|].
  apply (@extract_age_conditions_distinct
           (u "确诊时未满18周岁，或者未满18周岁且在60周岁前")).
  vm_compute. reflexivity.
Defined.

End AgeConditions.

(* ================================================================== *)
(** * The loaders, line by line *)
(* ================================================================== *)

Section MarkdownLines.
Import Text TextFacts ParseCoveragesDirect Vocabulary.

Lemma split_char_cons (c : N) (s : ustr) :
  split (c :: s) [10%N]
  = if (10 =? c)%N then [] :: split s [10%N]
    else match split s [10%N] with
         | h :: t => (c :: h) :: t
         | [] => [[c]]
         end.
Proof.
  unfold split. cbn [split_aux startswith length pred].
  now rewrite andb_true_r.
Qed.

Lemma split_char_nonempty (s : ustr) : split s [10%N] <> [].
Proof.
  induction s as [|c s IH]; [discriminate|].
  rewrite split_char_cons. destruct (10 =? c)%N; [discriminate|].
  destruct (split s [10%N]); discriminate.
Qed.

(** The lines of two texts joined by a newline are the lines of the
    first, then the lines of the second. *)
Lemma split_lines_app (a b : ustr) :
  split (a ++ [10%N] ++ b) [10%N] = split a [10%N] ++ split b [10%N].
Proof.
  induction a as [|c a IH].
  - cbn [app]. now rewrite split_char_cons.
  - change ((c :: a) ++ [10%N] ++ b) with (c :: (a ++ [10%N] ++ b)).
    rewrite !split_char_cons, IH. destruct (10 =? c)%N; [reflexivity|].
    pose proof (split_char_nonempty a) as Hne.
    destruct (split a [10%N]) as [|h t]; [congruence | reflexivity].
Qed.

Lemma parse_md_line_positive (line : ustr) :
  forall r, In r (parse_md_line line) -> (0 < serialNumber r)%Z.
Proof.
  intros r. unfold parse_md_line.
  destruct (_ || _); [intros []|].
  destruct (strip line) as [|c l]; [intros []|].
  destruct (negb _); [intros []|].
  destruct (_ <? 5); [intros []|].
  destruct (py_int _) as [num|]; [|intros []].
  destruct (Z.leb_spec num 0); [intros []|].
  intros [<- | []]. assumption.
Qed.

(** X20.  [parse_md_file] reads a file line by line: the records of two
    texts joined by a newline are the records of the first followed by
    the records of the second, so a line that is passed over takes no
    record of another line with it; and every record has a sequence
    number above 0. *)
Theorem parse_md_file_by_line :
  forall a b : ustr,
    parse_md_file (a ++ [10%N] ++ b) = parse_md_file a ++ parse_md_file b
    /\ Forall (fun r => (0 < serialNumber r)%Z) (parse_md_file a).
Proof.
  intros a b. unfold parse_md_file. split.
  - now rewrite split_lines_app, flat_map_app.
  - apply Forall_forall. intros r Hr.
    apply in_flat_map in Hr as [line [_ Hr]].
    exact (parse_md_line_positive _ _ Hr).
Qed.

End MarkdownLines.

Section RawData.
Import Text TextFacts GenerateBatch ManualTemplate Vocabulary LoaderTerms.

Lemma dict_set_keys (d : list (Z * RawRecord)) (k : Z) (v : RawRecord) :
  forall x, In x (map fst (dict_set d k v)) <-> x = k \/ In x (map fst d).
Proof.
  induction d as [|[k0 w] d IH]; intros x; cbn [dict_set map fst In].
  - intuition.
  - destruct (Z.eqb_spec k0 k) as [->|Hne]; cbn [map fst In].
    + intuition.
    + rewrite IH. intuition.
Qed.

Lemma dict_set_ok (start_ end_ : Z) (d : list (Z * RawRecord)) (k : Z)
    (v : RawRecord) :
  (start_ <= k <= end_)%Z -> seq v = k ->
  raw_data_ok start_ end_ d -> raw_data_ok start_ end_ (dict_set d k v).
Proof.
  intros Hk Hv [Hnd Hall].
  induction d as [|[k0 w] d IH]; cbn [dict_set].
  - split.
    + cbn [map fst]. constructor; [intros [] | constructor].
    + constructor; [now split | constructor].
  - cbn [map fst] in Hnd. apply NoDup_cons_iff in Hnd as [Hnin Hnd'].
    apply Forall_cons_iff in Hall as [Hkv Hall'].
    destruct (Z.eqb_spec k0 k) as [He|Hne].
    + split; [cbn [map fst]; now constructor|].
      constructor; [cbn [fst snd]; split; [lia | congruence] | assumption].
    + destruct (IH Hnd' Hall') as [IH1 IH2]. split.
      * cbn [map fst]. constructor; [|assumption].
        rewrite dict_set_keys. intros [H | H]; [congruence | contradiction].
      * now constructor.
Qed.

Lemma load_lines_ok (lines : list ustr) (start_ end_ : Z) :
  forall d d',
    raw_data_ok start_ end_ d ->
    load_lines lines start_ end_ d = Ok d' ->
    raw_data_ok start_ end_ d'.
Proof.
  induction lines as [|line rest IH]; intros d d' Hd; cbn [load_lines].
  - intros H. now injection H as <-.
  - destruct (ignored (strip line)); [now apply IH|].
    destruct (5 <=? _)%nat; [|now apply IH].
    destruct (py_int _) as [n|]; [|discriminate].
    destruct (Z.leb_spec start_ n); cbn [andb]; [|now apply IH].
    destruct (Z.leb_spec n end_); [|now apply IH].
    apply IH. apply dict_set_ok; [lia | reflexivity | assumption].
Qed.

(** X21.  When [load_raw_data] returns, the keys of its dictionary are
    distinct, every key is within the range asked for, and every record
    is stored under its own sequence number. *)
Theorem load_raw_data_keys :
  forall (lines : list ustr) (start_ end_ : Z) (d : list (Z * RawRecord)),
    load_raw_data lines start_ end_ = Ok d ->
    NoDup (map fst d)
    /\ Forall (fun kv => (start_ <= fst kv <= end_)%Z
                         /\ seq (snd kv) = fst kv) d.
Proof.
  intros lines start_ end_ d H.
  apply (@load_lines_ok lines start_ end_ [] d); [|exact H].
  split; constructor.
Qed.

Lemma load_raw_data_keys_witness :
  exists d,
    load_raw_data [good_line; short_line; good_line] 3001 3200 = Ok d
    /\ map fst d = [3001%Z]
    /\ NoDup (map fst d).
Proof.
  eexists. split; [vm_compute; reflexivity|]. split; [reflexivity|].
  apply (@load_raw_data_keys [good_line; short_line; good_line] 3001 3200).
  vm_compute. reflexivity.
Defined.

Lemma insert_item_perm (x : Z * RawRecord) (l : list (Z * RawRecord)) :
  Permutation (x :: l) (insert_item x l).
Proof.
  induction l as [|y l IH]; cbn [insert_item]; [reflexivity|].
  destruct (_ <=? _)%Z; [reflexivity|].
  rewrite perm_swap. now constructor.
Qed.

Lemma sorted_items_perm (d : list (Z * RawRecord)) :
  Permutation d (sorted_items d).
Proof.
  induction d as [|x d IH]; cbn [sorted_items]; [constructor|].
  rewrite <- insert_item_perm. now constructor.
Qed.

Lemma insert_item_sorted (x : Z * RawRecord) (l : list (Z * RawRecord)) :
  StronglySorted (fun a b => (fst a <= fst b)%Z) l ->
  StronglySorted (fun a b => (fst a <= fst b)%Z) (insert_item x l).
Proof.
  induction 1 as [|y l Hs IH Hall]; cbn [insert_item];
    [repeat constructor|].
  destruct (Z.leb_spec (fst x) (fst y)) as [Hle|Hgt].
  - constructor; [now constructor|]. constructor; [assumption|].
    apply Forall_forall. intros z Hz. rewrite Forall_forall in Hall.
    specialize (Hall z Hz). lia.
  - constructor; [assumption|].
    apply Forall_forall. intros z Hz.
    apply (Permutation_in z (Permutation_sym (insert_item_perm x l))) in Hz.
    destruct Hz as [<- | Hz]; [lia|].
    rewrite Forall_forall in Hall. now apply Hall.
Qed.

Lemma sorted_items_sorted (d : list (Z * RawRecord)) :
  StronglySorted (fun a b => (fst a <= fst b)%Z) (sorted_items d).
Proof.
  induction d as [|x d IH]; cbn [sorted_items]; [constructor|].
  now apply insert_item_sorted.
Qed.

Lemma strictly_sorted (l : list Z) :
  StronglySorted Z.le l -> NoDup l -> StronglySorted Z.lt l.
Proof.
  induction 1 as [|x l Hs IH Hall]; intros Hnd; [constructor|].
  inversion Hnd as [|? ? Hnin Hnd']; subst.
  constructor; [now apply IH|].
  apply Forall_forall. intros y Hy. rewrite Forall_forall in Hall.
  specialize (Hall y Hy).
  assert (x <> y) by (intros ->; contradiction). lia.
Qed.

Lemma strongly_sorted_map (A : Type) (f : A -> Z) (l : list A) :
  StronglySorted (fun a b => (f a <= f b)%Z) l ->
  StronglySorted Z.le (map f l).
Proof.
  induction 1 as [|x l Hs IH Hall]; cbn [map]; [constructor|].
  constructor; [assumption|].
  apply Forall_forall. intros y Hy. apply in_map_iff in Hy as [z [<- Hz]].
  rewrite Forall_forall in Hall. now apply Hall.
Qed.

(** X22.  The template [generate_manual] writes for the records
    [load_raw_data] returned has one case for each record, in strictly
    increasing order of sequence number, every number within the range
    asked for, and one stage in every case. *)
Theorem generate_manual_ordered :
  forall (lines : list ustr) (start_ end_ : Z) (d : list (Z * RawRecord)),
    load_raw_data lines start_ end_ = Ok d ->
    let cases := generate_manual d in
    length cases = length d
    /\ StronglySorted Z.lt (map case_seq cases)
    /\ Forall (fun c => (start_ <= case_seq c <= end_)%Z
                        /\ length (payoutAmount c) = 1) cases.
Proof.
  intros lines start_ end_ d H cases. subst cases.
  assert (Hok : raw_data_ok start_ end_ d).
  { apply (@load_lines_ok lines start_ end_ [] d); [|exact H].
    split; constructor. }
  destruct Hok as [Hnd Hall].
  pose proof (sorted_items_perm d) as Hperm.
  assert (Hall' : Forall (fun kv => (start_ <= fst kv <= end_)%Z
                                    /\ seq (snd kv) = fst kv)
                         (sorted_items d)).
  { apply Forall_forall. intros kv Hkv. rewrite Forall_forall in Hall.
    apply Hall. exact (Permutation_in kv (Permutation_sym Hperm) Hkv). }
  unfold generate_manual. split; [|split].
  - rewrite length_map. symmetry. now apply Permutation_length.
  - rewrite map_map. cbn [case_seq].
    rewrite (map_ext_in _ fst).
    + apply strictly_sorted.
      * apply strongly_sorted_map, sorted_items_sorted.
      * apply (Permutation_NoDup (Permutation_map fst Hperm) Hnd).
    + intros kv Hkv. rewrite Forall_forall in Hall'. now apply Hall'.
  - apply Forall_forall. intros c Hc. apply in_map_iff in Hc as [kv [<- Hkv]].
    rewrite Forall_forall in Hall'. destruct (Hall' kv Hkv) as [Hr Hs].
    cbn [case_seq payoutAmount length]. rewrite Hs. split; [exact Hr | reflexivity].
Qed.

(** The theorem on a file whose records come as 3005, 3001, 3003: the
    template has them as 3001, 3003, 3005. *)
Lemma generate_manual_ordered_witness :
  exists d,
    load_raw_data [line_3005; good_line; short_line; line_3003] 3001 3200
    = Ok d
    /\ map fst d = [3005%Z; 3001%Z; 3003%Z]
    /\ map case_seq (generate_manual d) = [3001%Z; 3003%Z; 3005%Z]
    /\ StronglySorted Z.lt (map case_seq (generate_manual d)).
Proof.
  eexists.
  assert (Hd : load_raw_data [line_3005; good_line; short_line; line_3003]
                 3001 3200 = Ok _) by (vm_compute; reflexivity).
  split; [exact Hd|].
  split; [vm_compute; reflexivity|].
  split; [vm_compute; reflexivity|].
  exact (proj1 (proj2 (generate_manual_ordered _ _ _ Hd))).
Defined.

End RawData.
